(** * Ghost Tracks: geometry and scoring core

    A shallow embedding of the route-shaping and shape-scoring services of the
    backend ([services/street_mapper.py], [services/shape_validator.py] and the
    tightening step of [services/shape_generator.py]).

    Numbers are modelled as real numbers: the Python floats are read as the
    exact values they approximate.  [FloatResample] reads [_resample_curve]
    once more over IEEE doubles, where its rounding changes the outcome.  The geodesy is written out with the
    Standard Library's [sin], [cos], [atan], [sqrt] and [PI].  The two
    collaborators the code calls but does not implement, the Mersenne-Twister
    generator behind [random.Random] and PIL's [ImageDraw.line], are section
    variables of the scorer. *)

From Stdlib Require Import Reals Lra Lia List Permutation Sorting ZArith Bool.
From Stdlib Require Ascii String.
Import ListNotations.
Open Scope R_scope.

(** ** Python numeric built-ins over [R] *)

Module Py.

(** [math.floor] *)
Definition floor (x : R) : Z := Int_part x.

(** [math.ceil] *)
Definition ceil (x : R) : Z := (- Int_part (- x))%Z.

(** [int(x)] on a float: truncation toward zero. *)
Definition int (x : R) : Z :=
  if Rle_dec 0 x then Int_part x else (- Int_part (- x))%Z.

(** [round(x)] on a float: round half to even. *)
Definition round (x : R) : Z :=
  let f := Int_part x in
  let d := x - IZR f in
  if Rlt_dec d (1/2) then f
  else if Rlt_dec (1/2) d then (f + 1)%Z
  else if Z.even f then f else (f + 1)%Z.

(** [x or y] on floats: [y] when [x] is [0.0]. *)
Definition or_else (x y : R) : R := if Req_dec_T x 0 then y else x.

(** [min(x, y)] and [max(x, y)] of two floats. *)
Definition min2 (x y : R) : R := if Rlt_dec y x then y else x.
Definition max2 (x y : R) : R := if Rlt_dec x y then y else x.

(** [min(xs)] / [max(xs)] of a non-empty list given as head and tail. *)
Definition min_of (x : R) (xs : list R) : R := fold_left min2 xs x.
Definition max_of (x : R) (xs : list R) : R := fold_left max2 xs x.

(** [x % m] on floats (sign of the divisor). *)
Definition fmod (x m : R) : R := x - m * IZR (Int_part (x / m)).

(** [math.atan2] (C99 semantics, without signed zeros). *)
Definition atan2 (y x : R) : R :=
  if Rlt_dec 0 x then atan (y / x)
  else if Rlt_dec x 0 then
    (if Rle_dec 0 y then atan (y / x) + PI else atan (y / x) - PI)
  else if Rlt_dec 0 y then PI / 2
  else if Rlt_dec y 0 then - (PI / 2)
  else 0.

(** [math.radians] and [math.degrees] *)
Definition radians (x : R) : R := x * (PI / 180).
Definition degrees (x : R) : R := x * (180 / PI).

(** [round(x, 1)] on a float: the nearest multiple of [0.1], ties to
    even. *)
Definition round1 (x : R) : R := IZR (round (x * 10)) / 10.

End Py.

(** ** [models/schemas.py] *)

Record Coordinate := mkCoord { lng : R; lat : R }.

Record BoundingBox := mkBBox {
  min_lng : R; min_lat : R; max_lng : R; max_lat : R }.

Definition width_deg (b : BoundingBox) : R := max_lng b - min_lng b.
Definition height_deg (b : BoundingBox) : R := max_lat b - min_lat b.

(** A default for out-of-range list reads, which the code never makes. *)
Definition origin : Coordinate := mkCoord 0 0.

(** Pydantic equality of two coordinates: field by field. *)
Definition coord_eq_dec (a b : Coordinate) : {a = b} + {a <> b}.
Proof.
  destruct a as [x1 y1], b as [x2 y2].
  destruct (Req_dec_T x1 x2) as [->|Hx]; [|right; congruence].
  destruct (Req_dec_T y1 y2) as [->|Hy]; [left; reflexivity|right; congruence].
Defined.

(** ** Geodesy kernel ([services/street_mapper.py]) *)

Definition EARTH_R : R := 6371000.

(** [haversine_distance_m] *)
Definition haversine_distance_m (a b : Coordinate) : R :=
  let phi1 := Py.radians (lat a) in
  let phi2 := Py.radians (lat b) in
  let d_phi := Py.radians (lat b - lat a) in
  let d_lambda := Py.radians (lng b - lng a) in
  let a_val := sin (d_phi / 2) ^ 2
               + cos phi1 * cos phi2 * sin (d_lambda / 2) ^ 2 in
  EARTH_R * 2 * Py.atan2 (sqrt a_val) (sqrt (1 - a_val)).

(** [_bearing_deg] *)
Definition _bearing_deg (a b : Coordinate) : R :=
  let d_lng := Py.radians (lng b - lng a) in
  let lat1 := Py.radians (lat a) in
  let lat2 := Py.radians (lat b) in
  let x := sin d_lng * cos lat2 in
  let y := cos lat1 * sin lat2 - sin lat1 * cos lat2 * cos d_lng in
  Py.fmod (Py.degrees (Py.atan2 x y)) 360.

(** ** [StreetMapper] ([services/street_mapper.py]) *)

Module StreetMapper.

(** Linear interpolation [a + (b - a) * frac] on both axes. *)
Definition lerp (a b : Coordinate) (frac : R) : Coordinate :=
  mkCoord (lng a + (lng b - lng a) * frac) (lat a + (lat b - lat a) * frac).

(** [scale_to_bbox] *)
Definition scale_to_bbox (points : list Coordinate) (target_bbox : BoundingBox)
    (padding_pct : R) : list Coordinate :=
  match points with
  | [] => []
  | p0 :: ps =>
      let s_min_lng := Py.min_of (lng p0) (map lng ps) in
      let s_max_lng := Py.max_of (lng p0) (map lng ps) in
      let s_min_lat := Py.min_of (lat p0) (map lat ps) in
      let s_max_lat := Py.max_of (lat p0) (map lat ps) in
      let s_width := Py.or_else (s_max_lng - s_min_lng) 1e-6 in
      let s_height := Py.or_else (s_max_lat - s_min_lat) 1e-6 in
      let s_cx := (s_min_lng + s_max_lng) / 2 in
      let s_cy := (s_min_lat + s_max_lat) / 2 in
      let pad_lng := width_deg target_bbox * padding_pct in
      let pad_lat := height_deg target_bbox * padding_pct in
      let t_width := width_deg target_bbox - 2 * pad_lng in
      let t_height := height_deg target_bbox - 2 * pad_lat in
      let t_cx := (min_lng target_bbox + max_lng target_bbox) / 2 in
      let t_cy := (min_lat target_bbox + max_lat target_bbox) / 2 in
      let scale := Py.min2 (t_width / s_width) (t_height / s_height) in
      map (fun p => mkCoord (t_cx + (lng p - s_cx) * scale)
                            (t_cy + (lat p - s_cy) * scale)) points
  end.

(** The body of [densify]'s loop for one pair [(a, b)]: the interpolated
    points, then [b]. *)
Definition densify_segment (max_segment_m : R) (a b : Coordinate)
    : list Coordinate :=
  let dist := haversine_distance_m a b in
  (if Rlt_dec max_segment_m dist then
     let n_segments := Z.to_nat (Py.ceil (dist / max_segment_m)) in
     map (fun j => lerp a b (INR j / INR n_segments))
         (seq 1 (n_segments - 1))
   else []) ++ [b].

Fixpoint densify_loop (max_segment_m : R) (a : Coordinate)
    (rest : list Coordinate) : list Coordinate :=
  match rest with
  | [] => []
  | b :: rest' => densify_segment max_segment_m a b ++ densify_loop max_segment_m b rest'
  end.

(** [densify] *)
Definition densify (points : list Coordinate) (max_segment_m : R)
    : list Coordinate :=
  match points with
  | [] | [_] => points
  | p0 :: rest => p0 :: densify_loop max_segment_m p0 rest
  end.

(** The curvature test of [deduplicate]: the bearing change at [p] between
    the incoming bearing from [prev] and the outgoing bearing to [next_p],
    folded into [0, 180]. *)
Definition angle_change (prev p next_p : Coordinate) : R :=
  let b_in := _bearing_deg prev p in
  let b_out := _bearing_deg p next_p in
  let ac := Rabs (b_out - b_in) in
  if Rlt_dec 180 ac then 360 - ac else ac.

(** The loop of [deduplicate] over [points[1:]]; [prev] is [result[-1]] and
    the returned list is what the loop appends to [result]. *)
Fixpoint dedup_loop (min_distance_m : R) (prev : Coordinate)
    (rest : list Coordinate) : list Coordinate :=
  match rest with
  | [] => []
  | p :: rest' =>
      if Rle_dec min_distance_m (haversine_distance_m prev p) then
        p :: dedup_loop min_distance_m p rest'
      else
        match rest' with
        | [] => dedup_loop min_distance_m prev rest'
        | next_p :: _ =>
            if Rlt_dec 20 (angle_change prev p next_p) then
              p :: dedup_loop min_distance_m p rest'
            else dedup_loop min_distance_m prev rest'
        end
  end.

(** [deduplicate] *)
Definition deduplicate (points : list Coordinate) (min_distance_m : R)
    : list Coordinate :=
  match points with
  | [] | [_] => points
  | p0 :: rest =>
      let result := p0 :: dedup_loop min_distance_m p0 rest in
      (* Always keep the last point *)
      if coord_eq_dec (last result p0) (last points p0) then result
      else result ++ [last points p0]
  end.

(** [map_to_streets] *)
Definition map_to_streets (control_points : list Coordinate)
    (target_bbox : BoundingBox) : list Coordinate :=
  let scaled := scale_to_bbox control_points target_bbox 0.1 in
  let dense := densify scaled 80 in
  deduplicate dense 12.

(** [estimate_distance_km] *)
Definition estimate_distance_km (points : list Coordinate) : R :=
  let total :=
    fold_left (fun total i =>
        total + haversine_distance_m (nth i points origin) (nth (S i) points origin))
      (seq 0 (length points - 1)) 0 in
  Py.round1 (total / 1000).

End StreetMapper.

(** ** [services/shape_validator.py] *)

Module ShapeValidator.

Import StreetMapper.

(** [VALIDATION_THRESHOLD = int(os.environ.get("SHAPE_VALIDATION_THRESHOLD",
    "45"))]: the argument is the environment variable's value after [int()],
    [None] when it is unset. *)
Definition VALIDATION_THRESHOLD (env_value : option Z) : Z :=
  match env_value with Some v => v | None => 45%Z end.

Inductive Method := algorithmic | glm_4v.

(** The [reasoning] text, by the values it is formatted from. *)
Inductive Reasoning :=
  | EmptyPointSet
  | DegenerateShape
  | Blended (mhd_score mhd os_score iou_score diameter : R).

Record ValidationResult := mkResult {
  score : R; passed : bool; method : Method; reasoning : Reasoning }.

(** [np.percentile(xs, q)] with numpy's default ("linear") method: sort,
    take the virtual index [q/100 * (n-1)] and interpolate between its two
    neighbours. *)
Fixpoint insert_sorted (x : R) (l : list R) : list R :=
  match l with
  | [] => [x]
  | y :: l' => if Rle_dec x y then x :: y :: l' else y :: insert_sorted x l'
  end.

Definition sort (l : list R) : list R := fold_right insert_sorted [] l.

Definition np_percentile (xs : list R) (q : R) : R :=
  let s := sort xs in
  let n := length s in
  let vi := q / 100 * INR (n - 1) in
  let lo := Z.to_nat (Py.floor vi) in
  let hi := Nat.min (lo + 1) (n - 1) in
  let g := vi - INR lo in
  let a := nth lo s 0 in
  let b := nth hi s 0 in
  a + (b - a) * g.

(** [min(haversine_distance_m(s, t) for t in tgt)]; [min] of an empty
    generator raises, which the scorer never reaches (both sets are
    non-empty there). *)
Definition nearest_distance (s : Coordinate) (tgt : list Coordinate) : R :=
  match map (haversine_distance_m s) tgt with
  | [] => 0
  | d :: ds => Py.min_of d ds
  end.

(** [_modified_hausdorff_distance] *)
Definition directed_distances (src tgt : list Coordinate) : list R :=
  map (fun s => nearest_distance s tgt) src.

Definition _modified_hausdorff_distance (points_a points_b : list Coordinate)
    (percentile : R) : R :=
  let d_ab := directed_distances points_a points_b in
  let d_ba := directed_distances points_b points_a in
  let all_dists := d_ab ++ d_ba in
  np_percentile all_dists percentile.

(** [_resample_curve]: cumulative arc length... (Exact arithmetic: in
    floats [total * (n - 1) / (n - 1)] can round above [total]; the module
    [FloatResample] below reads the function over doubles.) *)
Fixpoint cumlen_from (acc : R) (prev : Coordinate) (rest : list Coordinate)
    : list R :=
  match rest with
  | [] => []
  | p :: rest' =>
      let acc' := acc + haversine_distance_m prev p in
      acc' :: cumlen_from acc' p rest'
  end.

Definition cumlen (points : list Coordinate) : list R :=
  match points with
  | [] => [0]
  | p0 :: rest => 0 :: cumlen_from 0 p0 rest
  end.

(** ... and the segment scan [for i in range(1, len(cumlen)): if cumlen[i]
    >= target_len: ...; break], from index [i] with [fuel] indices left. *)
Fixpoint find_segment (points : list Coordinate) (cum : list R)
    (target_len : R) (i fuel : nat) : option Coordinate :=
  match fuel with
  | O => None
  | S fuel' =>
      if Rle_dec target_len (nth i cum 0) then
        let seg_len := nth i cum 0 - nth (i - 1) cum 0 in
        let frac := if Req_dec_T seg_len 0 then 0
                    else (target_len - nth (i - 1) cum 0) / seg_len in
        Some (lerp (nth (i - 1) points origin) (nth i points origin) frac)
      else find_segment points cum target_len (S i) fuel'
  end.

Definition _resample_curve (points : list Coordinate) (n : nat)
    : list Coordinate :=
  if (length points <? 2)%nat || (n <? 2)%nat then
    (if (n <=? length points)%nat then firstn n points else points)
  else
    let cum := cumlen points in
    let total := last cum 0 in
    if Req_dec_T total 0 then repeat (hd origin points) n
    else
      flat_map (fun k =>
          let target_len := total * INR k / INR (n - 1) in
          match find_segment points cum target_len 1 (length cum - 1) with
          | Some c => [c]
          | None => []
          end) (seq 0 n).

(** The mean of [haversine_distance_m(t, a) for t, a in zip(ts, as)]. *)
Definition mean_paired_distance (ts as_ : list Coordinate) : R :=
  let dists := map (fun ta => haversine_distance_m (fst ta) (snd ta))
                   (combine ts as_) in
  fold_right Rplus 0 dists / INR (length dists).

(** [_compute_shared_bbox]; [min] of the empty list raises, which the scorer
    never reaches. *)
Definition _compute_shared_bbox (points_a points_b : list Coordinate)
    (padding_pct : R) : R * R * R * R :=
  match points_a ++ points_b with
  | [] => (0, 0, 0, 0)
  | p0 :: ps =>
      let min_lng := Py.min_of (lng p0) (map lng ps) in
      let max_lng := Py.max_of (lng p0) (map lng ps) in
      let min_lat := Py.min_of (lat p0) (map lat ps) in
      let max_lat := Py.max_of (lat p0) (map lat ps) in
      let w := Py.or_else (max_lng - min_lng) 1e-6 in
      let h := Py.or_else (max_lat - min_lat) 1e-6 in
      (min_lng - w * padding_pct, min_lat - h * padding_pct,
       max_lng + w * padding_pct, max_lat + h * padding_pct)
  end.

(** A binary canvas: which pixels [(x, y)] are lit. *)
Definition Canvas := Z -> Z -> bool.

Definition blank : Canvas := fun _ _ => false.

(** The number of lit pixels of a [size x size] canvas. *)
Definition count_lit (size : Z) (c : Canvas) : nat :=
  let r := map Z.of_nat (seq 0 (Z.to_nat size)) in
  length (filter (fun xy => c (fst xy) (snd xy)) (list_prod r r)).

(** [hausdorff_distance]; [None] where the code raises: [min] of an empty
    generator, when a non-empty set is measured against an empty one. *)
Definition directed_hd (src tgt : list Coordinate) : option R :=
  fold_left (fun acc s =>
      match acc with
      | None => None
      | Some max_min =>
          match map (haversine_distance_m s) tgt with
          | [] => None
          | d :: ds => Some (Py.max2 max_min (Py.min_of d ds))
          end
      end) src (Some 0).

Definition hausdorff_distance (points_a points_b : list Coordinate) : option R :=
  match directed_hd points_a points_b with
  | None => None
  | Some d_ab =>
      match directed_hd points_b points_a with
      | None => None
      | Some d_ba => Some (Py.max2 d_ab d_ba)
      end
  end.

(** The [to_pixel] of [rasterize_route], on its own. *)
Definition to_pixel (bbox : R * R * R * R) (size : Z) (c : Coordinate) : Z * Z :=
  let '(min_lng, min_lat, max_lng, max_lat) := bbox in
  let w := max_lng - min_lng in
  let h := max_lat - min_lat in
  (Py.int ((lng c - min_lng) / w * IZR (size - 1)),
   Py.int ((max_lat - lat c) / h * IZR (size - 1))).

Section Scorer.

(** [random.Random(seed)] and [rng.sample(range(n), k)] of the Python
    standard library: a generator state, its seeding, and one sampling call
    returning the drawn indices and the next state. *)
Variable RandomState : Type.
Variable Random : Z -> RandomState.
Variable rng_sample : RandomState -> nat -> nat -> list nat * RandomState.

(** PIL's [ImageDraw.Draw(img).line(pixels, fill=255, width=w)] on a blank
    [size x size] canvas: [draw_line pixels w size] is the lit-pixel map. *)
Variable draw_line : list (Z * Z) -> Z -> Z -> Canvas.

(** [rasterize_route] *)
Definition rasterize_route (coords : list Coordinate) (bbox : R * R * R * R)
    (size line_width : Z) : Canvas :=
  let '(min_lng, min_lat, max_lng, max_lat) := bbox in
  let w := max_lng - min_lng in
  let h := max_lat - min_lat in
  let to_pixel (c : Coordinate) : Z * Z :=
    (Py.int ((lng c - min_lng) / w * IZR (size - 1)),
     Py.int ((max_lat - lat c) / h * IZR (size - 1))) in
  let pixels := map to_pixel coords in
  if (2 <=? length pixels)%nat then draw_line pixels line_width size
  else blank.

(** [_raster_iou_score] *)
Definition _raster_iou_score (target actual : list Coordinate)
    (size line_width : Z) : R :=
  let bbox := _compute_shared_bbox target actual 0.1 in
  let img_t := rasterize_route target bbox size line_width in
  let img_a := rasterize_route actual bbox size line_width in
  let intersection := count_lit size (fun x y => img_t x y && img_a x y) in
  let union := count_lit size (fun x y => img_t x y || img_a x y) in
  if (union =? 0)%nat then 0
  else IZR (Py.round (INR intersection / INR union * 100)).

(** [if d > max_dist: max_dist = d] *)
Definition keep_max (max_dist d : R) : R :=
  if Rlt_dec max_dist d then d else max_dist.

(** The exhaustive branch of [_compute_diameter]: all pairs [i < j]. *)
Fixpoint all_pairs_max (max_dist : R) (points : list Coordinate) : R :=
  match points with
  | [] => max_dist
  | p :: rest =>
      all_pairs_max
        (fold_left (fun m q => keep_max m (haversine_distance_m p q)) rest max_dist)
        rest
  end.

(** The sampled branch of [_compute_diameter], threading the generator
    state [rng] through [for i in range(n)]. *)
Definition sampled_max (rng : RandomState) (points : list Coordinate) : R :=
  let n := length points in
  fst (fold_left
         (fun (st : R * RandomState) i =>
            let '(max_dist, rng) := st in
            let '(samples, rng') := rng_sample rng n (Nat.min 50 n) in
            (fold_left
               (fun m j =>
                  if Nat.eq_dec i j then m
                  else keep_max m (haversine_distance_m (nth i points origin)
                                                       (nth j points origin)))
               samples max_dist, rng'))
         (seq 0 n) (0, rng)).

(** [_compute_diameter] *)
Definition _compute_diameter (points : list Coordinate) : R :=
  let n := length points in
  if (n <? 2)%nat then 0
  else if (n <=? 60)%nat then all_pairs_max 0 points
  else
    let rng := Random 42 in (* deterministic for reproducibility *)
    sampled_max rng points.

(** [_ordered_sampling_score] *)
Definition _ordered_sampling_score (target actual : list Coordinate)
    (n_samples : nat) : R :=
  let t_resampled := _resample_curve target n_samples in
  let a_resampled := _resample_curve actual n_samples in
  match t_resampled, a_resampled with
  | [], _ | _, [] => 0
  | _, _ =>
      let mean_dist := mean_paired_distance t_resampled a_resampled in
      let diameter := _compute_diameter target in
      if Req_dec_T diameter 0 then 0
      else
        let normalized := Py.min2 (mean_dist / diameter) 1 in
        IZR (Py.round ((1 - normalized) * 100))
  end.

(** [ShapeValidator._validate_algorithmic] *)
Definition _validate_algorithmic (target_points actual_points : list Coordinate)
    (threshold : Z) : ValidationResult :=
  match target_points, actual_points with
  | [], _ | _, [] => mkResult 0 false algorithmic EmptyPointSet
  | _, _ =>
      let diameter := _compute_diameter target_points in
      if Req_dec_T diameter 0 then mkResult 0 false algorithmic DegenerateShape
      else
        (* Component 1: Modified Hausdorff (90th percentile) -> score *)
        let mhd := _modified_hausdorff_distance target_points actual_points 90 in
        let mhd_norm := Py.min2 (mhd / diameter) 1 in
        let mhd_score := (1 - mhd_norm) * 100 in
        (* Component 2: Ordered sampling score *)
        let os_score := _ordered_sampling_score target_points actual_points 50 in
        (* Component 3: Raster IoU score *)
        let iou_score := _raster_iou_score target_points actual_points 128 12 in
        let blended := 0.55 * mhd_score + 0.35 * os_score + 0.10 * iou_score in
        let score := Py.round blended in
        mkResult (IZR score) (Z.leb threshold score) algorithmic
                 (Blended mhd_score mhd os_score iou_score diameter)
  end.

(** [ShapeValidator.validate] with [GLM_API_KEY] unset and its [threshold]
    argument omitted: the algorithmic path at [VALIDATION_THRESHOLD]. *)
Definition validate (env_threshold : option Z)
    (target_points actual_points : list Coordinate) : ValidationResult :=
  _validate_algorithmic target_points actual_points
                        (VALIDATION_THRESHOLD env_threshold).

(** A call of [_validate_algorithmic] in a world whose interpreter-global
    generator (the state of the [random] module) is [w]: the code builds its
    own [random.Random(42)] and leaves [w] as it found it. *)
Definition validate_in_world (w : RandomState)
    (target_points actual_points : list Coordinate) (threshold : Z)
    : ValidationResult * RandomState :=
  (_validate_algorithmic target_points actual_points threshold, w).

End Scorer.

End ShapeValidator.

(** ** A concrete environment for examples: a generator whose
    [sample(range(n), k)] draws the first [k] indices, and a line drawer that
    lights the vertex pixels only. *)

Module Environment.

Definition RandomState : Type := unit.

Definition Random (seed : Z) : RandomState := tt.

Definition rng_sample (r : RandomState) (n k : nat) : list nat * RandomState :=
  (firstn k (seq 0 n), r).

Definition draw_line (pixels : list (Z * Z)) (width size : Z) : ShapeValidator.Canvas :=
  fun x y => existsb (fun p => Z.eqb (fst p) x && Z.eqb (snd p) y) pixels.

End Environment.

(** ** [ShapeGenerator._tighten_control_points]
    ([services/shape_generator.py]) *)

Module ShapeGenerator.

Import StreetMapper.

Definition midpoint (a b : Coordinate) : Coordinate :=
  mkCoord ((lng a + lng b) / 2) ((lat a + lat b) / 2).

(** The deviation of segment [i]: the distance from its midpoint to the
    closest actual point, [0.0] when there is no actual point. *)
Definition segment_deviation (target_points actual_points : list Coordinate)
    (i : nat) : R :=
  let a := nth i target_points (mkCoord 0 0) in
  let b := nth (S i) target_points (mkCoord 0 0) in
  let mid := midpoint a b in
  match map (haversine_distance_m mid) actual_points with
  | [] => 0
  | d :: ds => Py.min_of d ds
  end.

(** [list.sort(key=lambda x: x[1], reverse=True)]: a stable sort, largest
    key first, equal keys kept in their original order. *)
Fixpoint insert_desc (x : nat * R) (l : list (nat * R)) : list (nat * R) :=
  match l with
  | [] => [x]
  | y :: l' => if Rlt_dec (snd y) (snd x) then x :: y :: l'
               else y :: insert_desc x l'
  end.

Definition sort_desc (l : list (nat * R)) : list (nat * R) :=
  fold_left (fun acc x => insert_desc x acc) l [].

Definition mem (i : nat) (s : list nat) : bool := existsb (Nat.eqb i) s.

(** [_tighten_control_points] *)
Definition _tighten_control_points (target_points actual_points : list Coordinate)
    : list Coordinate :=
  if (length target_points <? 2)%nat then target_points
  else
    let m := (length target_points - 1)%nat in
    let segment_deviations :=
      map (fun i => (i, segment_deviation target_points actual_points i))
          (seq 0 m) in
    let sorted := sort_desc segment_deviations in
    let segments_to_tighten :=
      map fst (firstn (Nat.max 1 (length segment_deviations / 2)) sorted) in
    hd (mkCoord 0 0) target_points ::
    flat_map (fun i =>
        let a := nth i target_points (mkCoord 0 0) in
        let b := nth (S i) target_points (mkCoord 0 0) in
        if mem i segments_to_tighten then [midpoint a b; b] else [b])
      (seq 0 m).

(** The string literals of [_extract_waypoints] and
    [_difficulty_for_distance]. *)
Module Literals.
Import String.
Definition Waypoint : string := "Waypoint".
Definition Start_here : string := "Start here".
Definition Make_a_U_turn : string := "Make a U-turn".
Definition Turn_right : string := "Turn right".
Definition Bear_right : string := "Bear right".
Definition Turn_left : string := "Turn left".
Definition Bear_left : string := "Bear left".
Definition Finish : string := "Finish!".
Definition easy : string := "easy".
Definition moderate : string := "moderate".
Definition hard : string := "hard".
End Literals.

(** [WaypointMarker] ([models/schemas.py]). *)
Record WaypointMarker := mkMarker {
  index : Z; marker_lng : R; marker_lat : R; instruction : String.string }.

(** [c[0], c[1]] of a routed coordinate [c : list[float]]; [None] where the
    read raises [IndexError]. *)
Definition lng_lat (c : list R) : option (R * R) :=
  match c with
  | x :: y :: _ => Some (x, y)
  | _ => None
  end.

(** The local [bearing] of [_extract_waypoints]. *)
Definition bearing (a b : R * R) : R :=
  let d_lng := Py.radians (fst b - fst a) in
  let lat1 := Py.radians (snd a) in
  let lat2 := Py.radians (snd b) in
  let x := sin d_lng * cos lat2 in
  let y := cos lat1 * sin lat2 - sin lat1 * cos lat2 * cos d_lng in
  Py.fmod (Py.degrees (Py.atan2 x y)) 360.

(** [range(start, stop, step)] for [step >= 1]. *)
Definition py_range (start stop step : nat) : list nat :=
  map (fun k => (start + k * step)%nat) (seq 0 ((stop - start + step - 1) / step)).

(** The list comprehension of the short case: one ["Waypoint"] marker per
    coordinate, numbered from [i + 1]. *)
Fixpoint plain_markers (i : nat) (coordinates : list (list R))
    : option (list WaypointMarker) :=
  match coordinates with
  | [] => Some []
  | c :: cs =>
      match lng_lat c with
      | None => None
      | Some (x, y) =>
          match plain_markers (S i) cs with
          | None => None
          | Some ms => Some (mkMarker (Z.of_nat (S i)) x y Literals.Waypoint :: ms)
          end
      end
  end.

(** One pass of the loop over [range(step, len(coordinates) - step, step)]. *)
Definition waypoint_step (coordinates : list (list R)) (step : nat)
    (acc : option (list WaypointMarker)) (i : nat) : option (list WaypointMarker) :=
  match acc with
  | None => None
  | Some waypoints =>
      let prev := nth (i - step) coordinates [] in
      let curr := nth i coordinates [] in
      let next_p := nth (Nat.min (i + step) (length coordinates - 1)) coordinates [] in
      match lng_lat prev, lng_lat curr, lng_lat next_p with
      | Some prev, Some curr, Some next_p =>
          let b1 := bearing prev curr in
          let b2 := bearing curr next_p in
          let ac := Rabs (b2 - b1) in
          let angle_change := if Rlt_dec 180 ac then 360 - ac else ac in
          if Rle_dec 30 angle_change then
            let cross := Py.fmod (b2 - b1 + 360) 360 in
            let instruction :=
              if Rlt_dec 150 angle_change then Literals.Make_a_U_turn
              else if Rlt_dec cross 180 then
                (if Rlt_dec 60 angle_change then Literals.Turn_right else Literals.Bear_right)
              else
                (if Rlt_dec 60 angle_change then Literals.Turn_left else Literals.Bear_left) in
            Some (waypoints ++
                  [mkMarker (Z.of_nat (length waypoints + 1)) (fst curr) (snd curr) instruction])
          else Some waypoints
      | _, _, _ => None
      end
  end.

(** [_extract_waypoints] *)
Definition _extract_waypoints (coordinates : list (list R))
    : option (list WaypointMarker) :=
  if (length coordinates <? 3)%nat then plain_markers 0 coordinates
  else
    match lng_lat (nth 0 coordinates []) with
    | None => None
    | Some (x0, y0) =>
        let waypoints := [mkMarker 1 x0 y0 Literals.Start_here] in
        let step := Nat.max 1 (length coordinates / 50) in
        match fold_left (waypoint_step coordinates step)
                (py_range step (length coordinates - step) step) (Some waypoints) with
        | None => None
        | Some waypoints =>
            match lng_lat (last coordinates []) with
            | None => None
            | Some (xl, yl) =>
                Some (waypoints ++
                      [mkMarker (Z.of_nat (length waypoints + 1)) xl yl Literals.Finish])
            end
        end
    end.

(** [_difficulty_for_distance] *)
Definition _difficulty_for_distance (km : R) : String.string :=
  if Rlt_dec km 4 then Literals.easy
  else if Rlt_dec km 8 then Literals.moderate
  else Literals.hard.

End ShapeGenerator.

(** ** Predicates of the specification's wording

    Read from the specification's sentences, to be compared with what the
    definitions above compute. *)

Module SpecWording.

Import StreetMapper.

(** The point [p] of the input, retained after [q], whose bearing change
    (incoming from [q], outgoing to the next input point) exceeds 20 degrees. *)
Definition curvature_retained (points : list Coordinate) (q p : Coordinate) : Prop :=
  exists i next_p, nth_error points i = Some p /\
    nth_error points (S i) = Some next_p /\ 20 < angle_change q p next_p.

(** "every pair of consecutive points is at least 12 m apart, or the later
    point was retained for curvature" *)
Definition spaced_or_curved (points out : list Coordinate) : Prop :=
  forall k q p, nth_error out k = Some q -> nth_error out (S k) = Some p ->
    12 <= haversine_distance_m q p \/ curvature_retained points q p.

(** "every pair of consecutive points is at most [d] m apart" *)
Definition consecutive_within (d : R) (out : list Coordinate) : Prop :=
  forall k q p, nth_error out k = Some q -> nth_error out (S k) = Some p ->
    haversine_distance_m q p <= d.

(** The number of equal pieces a segment [a -> b] is cut into by a maximum
    piece length of 80 m: [ceil(d / 80)] when [d > 80], else one piece. *)
Definition pieces (a b : Coordinate) : nat :=
  let d := haversine_distance_m a b in
  if Rlt_dec 80 d then Z.to_nat (Py.ceil (d / 80)) else 1%nat.

(** Each segment [a -> b] replaced by the points [a + (b - a) * j / N] for
    [j = 1 .. N], [N = pieces a b]: equal steps in longitude and latitude,
    ending at [b]. *)
Fixpoint evenly_split (a : Coordinate) (rest : list Coordinate) : list Coordinate :=
  match rest with
  | [] => []
  | b :: rest' =>
      map (fun j => lerp a b (INR j / INR (pieces a b))) (seq 1 (pieces a b))
      ++ evenly_split b rest'
  end.

(** The corrected reading: a pair may also be the final one, ending at the
    last input point, which is appended unconditionally; the output starts
    with the first input point and ends with the last one. *)
Definition spaced_curved_or_final (points out : list Coordinate) : Prop :=
  (forall k q p, nth_error out k = Some q -> nth_error out (S k) = Some p ->
     12 <= haversine_distance_m q p \/ curvature_retained points q p \/
     (S k = pred (length out) /\ p = last points origin)) /\
  hd_error out = hd_error points /\
  (forall d, last out d = last points d).

Definition in_bbox (bbox : BoundingBox) (q : Coordinate) : Prop :=
  min_lng bbox <= lng q <= max_lng bbox /\ min_lat bbox <= lat q <= max_lat bbox.

End SpecWording.

(** ** [services/shape_templates.py] *)

Module ShapeTemplates.

Import (notations) Ascii String.

(** [_heart] *)
Definition _heart (cx cy scale : R) : list Coordinate :=
  let n := 64%nat in
  let points :=
    map (fun i =>
        let t := 2 * PI * INR i / INR (n - 1) in
        let x := 16 * sin t ^ 3 in
        let y := 13 * cos t - 5 * cos (2 * t) - 2 * cos (3 * t) - cos (4 * t) in
        mkCoord (cx + (x / 17) * scale * 0.5) (cy + (y / 17) * scale * 0.5))
      (seq 0 n) in
  points ++ [hd origin points]. (* close the shape *)

(** [_star] *)
Definition _star (cx cy scale : R) : list Coordinate :=
  let outer_r := scale * 0.5 in
  let inner_r := outer_r * 0.38 in
  let vertices :=
    map (fun i =>
        let angle := PI / 2 + (2 * PI * INR i / 10) in
        let r := if (i mod 2 =? 0)%nat then outer_r else inner_r in
        (cx + r * cos angle, cy + r * sin angle))
      (seq 0 10) in
  let points :=
    flat_map (fun i =>
        let '(ax, ay) := nth i vertices (0, 0) in
        let '(bx, by0) := nth ((i + 1) mod length vertices) vertices (0, 0) in
        [mkCoord ax ay; mkCoord ((ax + bx) / 2) ((ay + by0) / 2)])
      (seq 0 (length vertices)) in
  points ++ [hd origin points]. (* close *)

(** [_circle] *)
Definition _circle (cx cy scale : R) : list Coordinate :=
  let r := scale * 0.45 in
  let n := 48%nat in
  let points :=
    map (fun i =>
        let angle := 2 * PI * INR i / INR n in
        mkCoord (cx + r * cos angle) (cy + r * sin angle))
      (seq 0 n) in
  points ++ [hd origin points]. (* close *)

(** [_triangle] *)
Definition _triangle (cx cy scale : R) : list Coordinate :=
  let r := scale * 0.45 in
  let corners :=
    map (fun i =>
        let angle := PI / 2 + (2 * PI * INR i / 3) in
        (cx + r * cos angle, cy + r * sin angle))
      (seq 0 3) in
  let pts_per_edge := 4%nat in
  let points :=
    flat_map (fun i =>
        let '(ax, ay) := nth i corners (0, 0) in
        let '(bx, by0) := nth ((i + 1) mod 3) corners (0, 0) in
        map (fun j =>
            let frac := INR j / INR (pts_per_edge + 1) in
            mkCoord (ax + (bx - ax) * frac) (ay + (by0 - ay) * frac))
          (seq 0 (pts_per_edge + 1)))
      (seq 0 3) in
  points ++ [hd origin points]. (* close *)

(** [_arrow] *)
Definition _arrow (cx cy scale : R) : list Coordinate :=
  let s := scale * 0.45 in
  let vertices :=
    [(cx - s, cy); (cx + s * 0.3, cy); (cx + s * 0.3, cy + s * 0.4); (cx + s, cy);
     (cx + s * 0.3, cy - s * 0.4); (cx + s * 0.3, cy); (cx - s, cy)] in
  let points :=
    flat_map (fun i =>
        let '(ax, ay) := nth i vertices (0, 0) in
        let '(bx, by0) := nth (i + 1) vertices (0, 0) in
        [mkCoord ax ay; mkCoord ((ax + bx) / 2) ((ay + by0) / 2)])
      (seq 0 (length vertices - 1)) in
  points ++ [mkCoord (fst (last vertices (0, 0))) (snd (last vertices (0, 0)))].

(** [_square] *)
Definition _square (cx cy scale : R) : list Coordinate :=
  let s := scale * 0.4 in
  let corners := [(cx - s, cy + s); (cx + s, cy + s); (cx + s, cy - s); (cx - s, cy - s)] in
  let pts_per_edge := 3%nat in
  let points :=
    flat_map (fun i =>
        let '(ax, ay) := nth i corners (0, 0) in
        let '(bx, by0) := nth ((i + 1) mod 4) corners (0, 0) in
        map (fun j =>
            let frac := INR j / INR (pts_per_edge + 1) in
            mkCoord (ax + (bx - ax) * frac) (ay + (by0 - ay) * frac))
          (seq 0 (pts_per_edge + 1)))
      (seq 0 4) in
  points ++ [hd origin points]. (* close *)

(** The text functions of [get_parametric_shape]: a Python [str] is a list
    of code points [Char]; [str.lower], [str.upper], [str.strip],
    [str.split()] and the one-character [str.isalpha] follow Unicode tables
    of the interpreter and are section variables, with the code points of the
    ASCII literals ([chr]) and code-point equality. *)
Section Names.

Variable Char : Type.
Variable char_eqb : Char -> Char -> bool.
Variable chr : Ascii.ascii -> Char.
Variable str_lower str_upper str_strip : list Char -> list Char.
Variable str_split : list Char -> list (list Char).
Variable char_isalpha : Char -> bool.

(** A string literal. *)
Definition lit (s : String.string) : list Char := map chr (String.list_ascii_of_string s).

(** [a == b] on strings. *)
Fixpoint str_eqb (a b : list Char) : bool :=
  match a, b with
  | [], [] => true
  | x :: a', y :: b' => char_eqb x y && str_eqb a' b'
  | _, _ => false
  end.

Fixpoint is_prefix (needle hay : list Char) : bool :=
  match needle, hay with
  | [], _ => true
  | x :: n', y :: h' => char_eqb x y && is_prefix n' h'
  | _ :: _, [] => false
  end.

(** [needle in hay] on strings. *)
Fixpoint contains (needle hay : list Char) : bool :=
  is_prefix needle hay ||
  match hay with
  | [] => false
  | _ :: hay' => contains needle hay'
  end.

(** [s.isalpha()]: non-empty, every character alphabetic. *)
Definition str_isalpha (s : list Char) : bool :=
  negb (match s with [] => true | _ => false end) && forallb char_isalpha s.

(** [d.get(k, default)] on a dict with string keys, in insertion order. *)
Fixpoint dict_get {V : Type} (k : list Char) (d : list (list Char * V)) (default : V) : V :=
  match d with
  | [] => default
  | (k', v) :: d' => if str_eqb k' k then v else dict_get k d' default
  end.

(** The [templates] dict of [_letter]. *)
Definition letter_templates (s h : R) : list (list Char * list (R * R)) :=
  [(lit "A"%string, [(-s, -h); (-s * 0.2, h); (s * 0.2, h); (s, -h); (s * 0.5, 0); (-s * 0.5, 0)]);
   (lit "B"%string, [(-s, -h); (-s, h); (s * 0.5, h); (s, h * 0.6); (s * 0.5, 0);
              (s, -h * 0.6); (s * 0.5, -h); (-s, -h); (-s, 0); (s * 0.5, 0)]);
   (lit "C"%string, [(s, h * 0.7); (0, h); (-s, h * 0.5); (-s, -h * 0.5); (0, -h); (s, -h * 0.7)]);
   (lit "D"%string, [(-s, -h); (-s, h); (s * 0.3, h); (s, 0); (s * 0.3, -h); (-s, -h)]);
   (lit "E"%string, [(s, h); (-s, h); (-s, 0); (s * 0.5, 0); (-s, 0); (-s, -h); (s, -h)]);
   (lit "H"%string, [(-s, h); (-s, -h); (-s, 0); (s, 0); (s, h); (s, -h)]);
   (lit "L"%string, [(-s, h); (-s, -h); (s, -h)]);
   (lit "M"%string, [(-s, -h); (-s, h); (0, 0); (s, h); (s, -h)]);
   (lit "N"%string, [(-s, -h); (-s, h); (s, -h); (s, h)]);
   (lit "O"%string, [(0, h); (-s, h * 0.5); (-s, -h * 0.5); (0, -h); (s, -h * 0.5);
              (s, h * 0.5); (0, h)]);
   (lit "P"%string, [(-s, -h); (-s, h); (s * 0.5, h); (s, h * 0.5); (s * 0.5, 0); (-s, 0)]);
   (lit "R"%string, [(-s, -h); (-s, h); (s * 0.5, h); (s, h * 0.5); (s * 0.5, 0);
              (-s, 0); (s, -h)]);
   (lit "S"%string, [(s, h * 0.7); (0, h); (-s, h * 0.3); (-s, 0); (s, 0);
              (s, -h * 0.3); (0, -h); (-s, -h * 0.7)]);
   (lit "T"%string, [(-s, h); (s, h); (0, h); (0, -h)]);
   (lit "V"%string, [(-s, h); (0, -h); (s, h)]);
   (lit "W"%string, [(-s, h); (-s * 0.5, -h); (0, 0); (s * 0.5, -h); (s, h)]);
   (lit "X"%string, [(-s, h); (s, -h); (0, 0); (-s, -h); (s, h)]);
   (lit "Z"%string, [(-s, h); (s, h); (-s, -h); (s, -h)])].

(** [_letter] *)
Definition _letter (char : list Char) (cx cy scale : R) : list Coordinate :=
  let s := scale * 0.4 in
  let h := scale * 0.5 in
  let templates := letter_templates s h in
  let raw := dict_get (str_upper char) templates (dict_get (lit "O"%string) templates []) in
  map (fun d => mkCoord (cx + fst d) (cy + snd d)) raw.

(** The [TEMPLATES] registry. *)
Definition TEMPLATES : list (list Char * (R -> R -> R -> list Coordinate)) :=
  [(lit "heart"%string, _heart); (lit "star"%string, _star); (lit "circle"%string, _circle);
   (lit "triangle"%string, _triangle); (lit "arrow"%string, _arrow); (lit "square"%string, _square)].

(** The character test of the first letter loop. *)
Definition letter_char (c : Char) : bool :=
  char_isalpha c && negb (char_eqb c (chr "l"%char)) && negb (char_eqb c (chr "e"%char))
  && negb (char_eqb c (chr "t"%char)) && negb (char_eqb c (chr "r"%char)).

(** [get_parametric_shape] *)
Definition get_parametric_shape (shape_name : list Char) (center : Coordinate)
    (scale : R) : list Coordinate :=
  let name_lower := str_strip (str_lower shape_name) in
  (* Check for letter patterns *)
  let letter :=
    if contains (lit "letter"%string) name_lower then
      match find letter_char name_lower with
      | Some char => Some (_letter [char] (lng center) (lat center) scale)
      | None =>
          (* If "letter X" pattern *)
          match find (fun p => (length p =? 1)%nat && str_isalpha p) (str_split name_lower) with
          | Some p => Some (_letter p (lng center) (lat center) scale)
          | None => None
          end
      end
    else None in
  match letter with
  | Some pts => pts
  | None =>
      (* Check templates *)
      match find (fun kf => contains (fst kf) name_lower) TEMPLATES with
      | Some (_, func) => func (lng center) (lat center) scale
      | None =>
          (* Single character *)
          if (length name_lower =? 1)%nat && str_isalpha name_lower
          then _letter name_lower (lng center) (lat center) scale
          (* Default: circle *)
          else _circle (lng center) (lat center) scale
      end
  end.

End Names.

End ShapeTemplates.

(** ** Measures the properties below are stated with *)

Module Measures.

(** The length of a polyline: the sum of its consecutive geodesic
    distances. *)
Fixpoint route_length (points : list Coordinate) : R :=
  match points with
  | p :: (q :: _) as rest => haversine_distance_m p q + route_length rest
  | _ => 0
  end.

(** [subseq l l']: [l] is [l'] with some elements left out, in order. *)
Inductive subseq {A : Type} : list A -> list A -> Prop :=
  | subseq_nil : subseq [] []
  | subseq_skip (x : A) (l l' : list A) : subseq l l' -> subseq l (x :: l')
  | subseq_take (x : A) (l l' : list A) : subseq l l' -> subseq (x :: l) (x :: l').

(** The instructions of the turn markers of [_extract_waypoints]. *)
Definition turn_instructions : list String.string :=
  [ShapeGenerator.Literals.Make_a_U_turn; ShapeGenerator.Literals.Turn_right;
   ShapeGenerator.Literals.Bear_right; ShapeGenerator.Literals.Turn_left;
   ShapeGenerator.Literals.Bear_left].

(** [p] is at most [half] away from [(cx, cy)] in longitude and in latitude. *)
Definition within_box (cx cy half : R) (p : Coordinate) : Prop :=
  cx - half <= lng p <= cx + half /\ cy - half <= lat p <= cy + half.

End Measures.

(** ** IEEE 754 binary64, for the float reading of [_resample_curve]

    A double is [mant * 2 ^ expo]. Every operation computes the exact result
    and rounds it to 53 significant bits, to nearest with ties to even, as
    Python's float arithmetic does. Only the normal range is modelled: no
    subnormals, overflow, infinities or NaN, none of which the inputs below
    reach. *)

Module Binary64.

Local Open Scope Z_scope.

Record double := mkDouble { mant : Z; expo : Z }.

Definition zero : double := mkDouble 0 0.

(** [p / q] rounded to the nearest integer, ties to even ([0 <= p], [0 < q]). *)
Definition div_rne (p q : Z) : Z :=
  let (m, r) := Z.div_eucl p q in
  if 2 * r <? q then m
  else if q <? 2 * r then m + 1
  else if Z.even m then m else m + 1.

(** [a / den * 2 ^ (sh - e)] as a fraction. *)
Definition scaled (a den sh e : Z) : Z * Z :=
  if 0 <=? sh - e then (a * 2 ^ (sh - e), den) else (a, den * 2 ^ (e - sh)).

(** The double nearest to [num / den * 2 ^ sh] ([0 < den]): the exponent [e]
    puts [|num| / den * 2 ^ (sh - e)] in [[2^52, 2^53)]. *)
Definition round (num den sh : Z) : double :=
  if num =? 0 then zero else
  let a := Z.abs num in
  let e0 := Z.log2 a - Z.log2 den + sh - 52 in
  let e := let '(p, q) := scaled a den sh e0 in
           if p <? 2 ^ 52 * q then e0 - 1 else e0 in
  let '(p, q) := scaled a den sh e in
  mkDouble (Z.sgn num * div_rne p q) e.

(** The two significands on the smaller of the two exponents. *)
Definition aligned (x y : double) : Z * Z * Z :=
  let e := Z.min (expo x) (expo y) in
  (mant x * 2 ^ (expo x - e), mant y * 2 ^ (expo y - e), e).

Definition add (x y : double) : double :=
  let '(a, b, e) := aligned x y in round (a + b) 1 e.

Definition sub (x y : double) : double :=
  let '(a, b, e) := aligned x y in round (a - b) 1 e.

Definition mul (x y : double) : double :=
  round (mant x * mant y) 1 (expo x + expo y).

Definition div (x y : double) : double :=
  round (mant x * Z.sgn (mant y)) (Z.abs (mant y)) (expo x - expo y).

(** [x <= y] and [x == y] on the values. *)
Definition leb (x y : double) : bool :=
  let '(a, b, _) := aligned x y in a <=? b.

Definition eqb (x y : double) : bool :=
  let '(a, b, _) := aligned x y in a =? b.

(** [float(k)] of a Python [int] below [2 ^ 53]. *)
Definition of_nat (k : nat) : double := round (Z.of_nat k) 1 0.

(** The real number a double stands for. *)
Definition to_R (x : double) : R := IZR (mant x) * powerRZ 2 (expo x).

End Binary64.

(** ** [_resample_curve] over doubles *)

Module FloatResample.

Import Binary64.

(** [Coordinate] with float fields. *)
Record Coordinate := mkCoord { lng : double; lat : double }.

Definition origin : Coordinate := mkCoord zero zero.

Section Resample.

(** The float [haversine_distance_m] of [services/street_mapper.py]: its
    result depends on the platform's [math] library, so it is a variable. *)
Variable haversine_distance_m : Coordinate -> Coordinate -> double.

Fixpoint cumlen_from (acc : double) (prev : Coordinate) (rest : list Coordinate)
    : list double :=
  match rest with
  | [] => []
  | p :: rest' =>
      let acc' := add acc (haversine_distance_m prev p) in
      acc' :: cumlen_from acc' p rest'
  end.

Definition cumlen (points : list Coordinate) : list double :=
  match points with
  | [] => [zero]
  | p0 :: rest => zero :: cumlen_from zero p0 rest
  end.

Fixpoint find_segment (points : list Coordinate) (cum : list double)
    (target_len : double) (i fuel : nat) : option Coordinate :=
  match fuel with
  | O => None
  | S fuel' =>
      if leb target_len (nth i cum zero) then
        let seg_len := sub (nth i cum zero) (nth (i - 1) cum zero) in
        let frac := if eqb seg_len zero then zero
                    else div (sub target_len (nth (i - 1) cum zero)) seg_len in
        let a := nth (i - 1) points origin in
        let b := nth i points origin in
        Some (mkCoord (add (lng a) (mul (sub (lng b) (lng a)) frac))
                      (add (lat a) (mul (sub (lat b) (lat a)) frac)))
      else find_segment points cum target_len (S i) fuel'
  end.

Definition _resample_curve (points : list Coordinate) (n : nat)
    : list Coordinate :=
  if (length points <? 2)%nat || (n <? 2)%nat then
    (if (n <=? length points)%nat then firstn n points else points)
  else
    let cum := cumlen points in
    let total := last cum zero in
    if eqb total zero then repeat (hd origin points) n
    else
      flat_map (fun k =>
          let target_len := div (mul total (of_nat k)) (of_nat (n - 1)) in
          match find_segment points cum target_len 1 (length cum - 1) with
          | Some c => [c]
          | None => []
          end) (seq 0 n).

End Resample.

(** The literals of the example: [0.1] is [0x1.999999999999ap-4], and
    [11119.492664455875] ([0x1.5b7bf0fa0fef1p+13]) is what CPython's
    [haversine_distance_m(Coordinate(lng=0, lat=0), Coordinate(lng=0,
    lat=0.1))] returns. *)
Definition lat_0_1 : double := mkDouble 3602879701896397 (-55).

Definition d_0_1 : double := mkDouble 6113005739769585 (-39).

Definition p00 : Coordinate := mkCoord zero zero.

Definition p01 : Coordinate := mkCoord zero lat_0_1.

End FloatResample.

(** * Properties *)

(** ** Geodesy facts *)

Module GeodesyFacts.

Lemma PI_gt_3 : 3 < PI.
Proof.
  pose proof (sin_lt_x (PI / 6) PI6_RGT_0) as H.
  rewrite sin_PI6 in H. lra.
Qed.

Lemma atan2_nonneg (y x : R) : 0 <= y -> 0 <= x -> 0 <= Py.atan2 y x.
Proof.
  intros Hy Hx. unfold Py.atan2.
  destruct (Rlt_dec 0 x) as [Hx'|Hx'].
  - destruct (Req_dec_T y 0) as [->|Hy0].
    + unfold Rdiv. rewrite Rmult_0_l, atan_0. lra.
    + rewrite <- atan_0. left. apply atan_increasing.
      apply Rdiv_lt_0_compat; lra.
  - destruct (Rlt_dec x 0); [lra|].
    destruct (Rlt_dec 0 y); [pose proof PI_RGT_0; lra|].
    destruct (Rlt_dec y 0); lra.
Qed.

Lemma haversine_nonneg (a b : Coordinate) : 0 <= haversine_distance_m a b.
Proof.
  unfold haversine_distance_m. cbv zeta.
  apply Rmult_le_pos; [unfold EARTH_R; lra|].
  apply atan2_nonneg; apply sqrt_pos.
Qed.

Lemma haversine_self (p : Coordinate) : haversine_distance_m p p = 0.
Proof.
  unfold haversine_distance_m, Py.radians. cbv zeta.
  rewrite !Rminus_diag.
  replace (0 * (PI / 180) / 2) with 0 by field.
  rewrite sin_0.
  assert (E : forall c, 0 ^ 2 + c * 0 ^ 2 = 0) by (intros; ring).
  rewrite E, Rminus_0_r, sqrt_0, sqrt_1. unfold Py.atan2.
  destruct (Rlt_dec 0 1); [|lra].
  unfold Rdiv. rewrite Rmult_0_l, atan_0. ring.
Qed.

Lemma atan2_sin_cos (u : R) : 0 <= u <= PI / 2 -> Py.atan2 (sin u) (cos u) = u.
Proof.
  intros [H0 H1]. unfold Py.atan2.
  destruct (Req_dec_T u (PI / 2)) as [->|Hne].
  - rewrite cos_PI2, sin_PI2.
    destruct (Rlt_dec 0 0); [lra|]. destruct (Rlt_dec 0 0); [lra|].
    destruct (Rlt_dec 0 1); [reflexivity|lra].
  - assert (Hc : 0 < cos u) by (apply cos_gt_0; pose proof PI_RGT_0; lra).
    destruct (Rlt_dec 0 (cos u)); [|lra].
    change (sin u / cos u) with (tan u). apply atan_tan.
    pose proof PI_RGT_0; lra.
Qed.

(** The last step of the haversine formula when [a_val] is [sin t ^ 2] for an
    angle [t] of at most a quarter turn: the central angle is [2 |t|]. *)
Lemma haversine_central_angle (t : R) : - (PI / 2) <= t <= PI / 2 ->
  EARTH_R * 2 * Py.atan2 (sqrt (sin t ^ 2)) (sqrt (1 - sin t ^ 2))
  = EARTH_R * 2 * Rabs t.
Proof.
  intros Ht.
  assert (Hs : sqrt (sin t ^ 2) = sin (Rabs t)).
  { rewrite <- Rsqr_pow2, sqrt_Rsqr_abs.
    unfold Rabs at 2. destruct (Rcase_abs t).
    - rewrite sin_neg. rewrite Rabs_left1; [ring|].
      assert (0 <= sin (- t)) by (apply sin_ge_0; pose proof PI_RGT_0; lra).
      rewrite sin_neg in H. lra.
    - apply Rabs_right. apply Rle_ge, sin_ge_0; pose proof PI_RGT_0; lra. }
  assert (Hc : sqrt (1 - sin t ^ 2) = cos (Rabs t)).
  { replace (1 - sin t ^ 2) with (cos t ^ 2)
      by (pose proof (sin2_cos2 t); unfold Rsqr in *; simpl; lra).
    rewrite <- Rsqr_pow2, sqrt_Rsqr.
    - unfold Rabs. destruct (Rcase_abs t); [rewrite cos_neg|]; reflexivity.
    - apply cos_ge_0; lra. }
  rewrite Hs, Hc, atan2_sin_cos; [reflexivity|].
  split; [apply Rabs_pos|]. unfold Rabs; destruct (Rcase_abs t); lra.
Qed.

(** Scaling a difference of degrees into a half angle in radians. *)
Lemma Rabs_half_radians (x : R) :
  Rabs (x * (PI / 180) / 2) = Rabs x * (PI / 180) / 2.
Proof.
  pose proof PI_RGT_0.
  replace (x * (PI / 180) / 2) with (x * (PI / 360)) by field.
  rewrite Rabs_mult, (Rabs_right (PI / 360)) by lra. field.
Qed.

Lemma half_radians_bound (x : R) : Rabs x <= 180 ->
  - (PI / 2) <= x * (PI / 180) / 2 <= PI / 2.
Proof.
  intros Hx. pose proof PI_RGT_0.
  unfold Rabs in Hx. destruct (Rcase_abs x); split; nra.
Qed.

(** Two points on one meridian: the distance is the arc of the latitude
    difference. *)
Lemma haversine_meridian (a b : Coordinate) :
  lng a = lng b -> Rabs (lat b - lat a) <= 180 ->
  haversine_distance_m a b = EARTH_R * Rabs (lat b - lat a) * (PI / 180).
Proof.
  intros Hl Hd. unfold haversine_distance_m, Py.radians. cbv zeta.
  rewrite Hl, Rminus_diag.
  replace (0 * (PI / 180) / 2) with 0 by field.
  rewrite sin_0.
  assert (E : forall s c, s + c * 0 ^ 2 = s) by (intros; ring).
  rewrite E.
  rewrite haversine_central_angle.
  - rewrite Rabs_half_radians. field.
  - apply half_radians_bound; exact Hd.
Qed.

(** Two points on the equator less than half a turn apart in longitude. *)
Lemma haversine_equator (a b : Coordinate) :
  lat a = 0 -> lat b = 0 -> Rabs (lng b - lng a) <= 180 ->
  haversine_distance_m a b = EARTH_R * Rabs (lng b - lng a) * (PI / 180).
Proof.
  intros Ha Hb Hd. unfold haversine_distance_m, Py.radians. cbv zeta.
  rewrite Ha, Hb, Rminus_diag.
  replace (0 * (PI / 180) / 2) with 0 by field.
  rewrite Rmult_0_l, sin_0, cos_0.
  assert (E : forall s, 0 ^ 2 + 1 * 1 * s = s) by (intros; ring).
  rewrite E.
  rewrite haversine_central_angle.
  - rewrite Rabs_half_radians. field.
  - apply half_radians_bound; exact Hd.
Qed.

(** Two points on the equator more than half a turn apart in longitude: the
    shorter way round, across the antimeridian. *)
Lemma haversine_equator_wrap (a b : Coordinate) :
  lat a = 0 -> lat b = 0 -> 180 <= lng b - lng a <= 360 ->
  haversine_distance_m a b = EARTH_R * (360 - (lng b - lng a)) * (PI / 180).
Proof.
  intros Ha Hb Hd. unfold haversine_distance_m, Py.radians. cbv zeta.
  rewrite Ha, Hb, Rminus_diag.
  replace (0 * (PI / 180) / 2) with 0 by field.
  rewrite Rmult_0_l, sin_0, cos_0.
  rewrite <- (sin_PI_x ((lng b - lng a) * (PI / 180) / 2)).
  assert (E : forall s, 0 ^ 2 + 1 * 1 * s = s) by (intros; ring).
  rewrite E.
  pose proof PI_RGT_0.
  rewrite haversine_central_angle by nra.
  rewrite Rabs_right by nra. field.
Qed.

End GeodesyFacts.

(** ** Street mapper *)

Module StreetMapperFacts.

Import StreetMapper SpecWording GeodesyFacts.

(** The pairs that [deduplicate]'s loop produces after [prev]. *)
Lemma dedup_loop_pairs (md : R) (rest : list Coordinate) : forall prev k q p,
  nth_error (prev :: dedup_loop md prev rest) k = Some q ->
  nth_error (prev :: dedup_loop md prev rest) (S k) = Some p ->
  md <= haversine_distance_m q p \/
  exists i next_p, nth_error rest i = Some p /\
    nth_error rest (S i) = Some next_p /\ 20 < angle_change q p next_p.
Proof.
  induction rest as [|x rest IH]; intros prev k q p Hq Hp.
  - simpl in Hp. destruct k; discriminate.
  - simpl dedup_loop in Hq, Hp.
    destruct (Rle_dec md (haversine_distance_m prev x)) as [Hd|Hd].
    + destruct k as [|k].
      * simpl in Hq, Hp. injection Hq as <-. injection Hp as <-. left; exact Hd.
      * simpl in Hq, Hp.
        destruct (IH x k q p Hq Hp) as [H|(i & n & H1 & H2 & H3)]; [left; exact H|].
        right. exists (S i), n. simpl. auto.
    + destruct rest as [|n rest'].
      * simpl in Hp. destruct k as [|[|k]]; discriminate.
      * destruct (Rlt_dec 20 (angle_change prev x n)) as [Ha|Ha].
        -- destruct k as [|k].
           ++ simpl in Hq, Hp. injection Hq as <-. injection Hp as <-.
              right. exists 0%nat, n. simpl. auto.
           ++ simpl in Hq, Hp.
              destruct (IH x k q p Hq Hp) as [H|(i & m & H1 & H2 & H3)];
                [left; exact H|].
              right. exists (S i), m. simpl. auto.
        -- destruct (IH prev k q p Hq Hp) as [H|(i & m & H1 & H2 & H3)];
             [left; exact H|].
           right. exists (S i), m. simpl. auto.
Qed.

(** Everything [deduplicate]'s loop keeps comes from its input. *)
Lemma dedup_loop_incl (md : R) (rest : list Coordinate) : forall prev q,
  In q (dedup_loop md prev rest) -> In q rest.
Proof.
  induction rest as [|x rest IH]; intros prev q Hq; [contradiction|].
  simpl in Hq.
  destruct (Rle_dec md (haversine_distance_m prev x)) as [Hd|Hd].
  - destruct Hq as [<-|Hq]; [left; reflexivity|right; eapply IH; exact Hq].
  - destruct rest as [|n rest']; [contradiction|].
    destruct (Rlt_dec 20 (angle_change prev x n)) as [Ha|Ha].
    + destruct Hq as [<-|Hq]; [left; reflexivity|right; eapply IH; exact Hq].
    + right. eapply IH. exact Hq.
Qed.

Lemma last_in {A} (l : list A) (d : A) : l <> [] -> In (last l d) l.
Proof.
  induction l as [|x [|y l] IH]; intro H; [congruence|left; reflexivity|].
  right. apply IH. discriminate.
Qed.

Lemma deduplicate_incl (points : list Coordinate) (md : R) (q : Coordinate) :
  In q (deduplicate points md) -> In q points.
Proof.
  unfold deduplicate. destruct points as [|p0 [|p1 rest]]; try (intro H; exact H).
  destruct (coord_eq_dec _ _) as [_|_]; intro H.
  - destruct H as [<-|H]; [left; reflexivity|right; eapply dedup_loop_incl; exact H].
  - apply in_app_or in H. destruct H as [[<-|H]|[<-|[]]].
    + left; reflexivity.
    + right. eapply dedup_loop_incl. exact H.
    + apply last_in. discriminate.
Qed.

Lemma last_default {A} (l : list A) (d d' : A) : l <> [] -> last l d = last l d'.
Proof.
  induction l as [|x [|y l] IH]; intro H; [congruence|reflexivity|].
  simpl. simpl in IH. apply IH. discriminate.
Qed.

Lemma deduplicate_pairs (points : list Coordinate) :
  spaced_curved_or_final points (deduplicate points 12).
Proof.
  unfold spaced_curved_or_final.
  destruct points as [|p0 [|p1 rest]].
  - simpl. split; [intros k q p Hq; destruct k; discriminate|]. auto.
  - simpl. split; [intros k q p Hq Hp; destruct k; discriminate|]. auto.
  - unfold deduplicate. lazy beta iota zeta.
    set (pts := p0 :: p1 :: rest).
    assert (Hloop : forall k q p,
      nth_error (p0 :: dedup_loop 12 p0 (p1 :: rest)) k = Some q ->
      nth_error (p0 :: dedup_loop 12 p0 (p1 :: rest)) (S k) = Some p ->
      12 <= haversine_distance_m q p \/ curvature_retained pts q p).
    { intros k q p Hq Hp.
      destruct (dedup_loop_pairs 12 (p1 :: rest) p0 k q p Hq Hp)
        as [H|(i & n & H1 & H2 & H3)]; [left; exact H|].
      right. exists (S i), n. split; [exact H1|]. split; [exact H2|exact H3]. }
    set (res := p0 :: dedup_loop 12 p0 (p1 :: rest)).
    destruct (coord_eq_dec (last res p0) (last pts p0)) as [He|He].
    + split; [|split; [reflexivity|]].
      * intros k q p Hq Hp. destruct (Hloop k q p Hq Hp) as [H|H]; auto.
      * intro d. rewrite (last_default res d p0) by discriminate.
        rewrite He. apply last_default. discriminate.
    + split; [|split; [reflexivity|]].
      * intros k q p Hq Hp.
        assert (Hk : (k < length res)%nat).
        { destruct (Nat.lt_ge_cases k (length res)) as [H|H]; [exact H|].
          rewrite nth_error_app2 in Hp by lia.
          replace (S k - length res)%nat with (S (k - length res)) in Hp by lia.
          destruct (k - length res)%nat; discriminate. }
        rewrite nth_error_app1 in Hq by exact Hk.
        destruct (Nat.lt_ge_cases (S k) (length res)) as [Hs|Hs].
        -- rewrite nth_error_app1 in Hp by exact Hs.
           destruct (Hloop k q p Hq Hp) as [H|H]; auto.
        -- right; right.
           rewrite nth_error_app2 in Hp by exact Hs.
           replace (S k - length res)%nat with 0%nat in Hp by lia.
           cbn [nth_error] in Hp. injection Hp as <-. rewrite length_app.
           change (length [last pts p0]) with 1%nat.
           split; [lia|]. unfold pts. simpl.
           destruct rest; [reflexivity|apply last_default; discriminate].
      * intro d. rewrite last_last. apply last_default. discriminate.
Qed.

Lemma haversine_C3_pair :
  haversine_distance_m (mkCoord 14.42 50.07) (mkCoord 14.42 50.07001)
  = EARTH_R * (1 / 100000) * (PI / 180).
Proof.
  rewrite haversine_meridian; simpl lat; simpl lng;
    replace (50.07001 - 50.07) with (1 / 100000) by lra;
    try reflexivity; rewrite Rabs_right; lra.
Qed.

Lemma Int_part_eq (x : R) (z : Z) : IZR z <= x < IZR z + 1 -> Int_part x = z.
Proof.
  intros [H1 H2]. destruct (base_Int_part x) as [H3 H4].
  assert (A : IZR (Int_part x - z) < 1) by (rewrite minus_IZR; lra).
  assert (B : -1 < IZR (Int_part x - z)) by (rewrite minus_IZR; lra).
  apply lt_IZR in A. apply lt_IZR in B. lia.
Qed.

Lemma ceil_ge (x : R) : x <= IZR (Py.ceil x).
Proof.
  unfold Py.ceil. rewrite opp_IZR. destruct (base_Int_part (- x)). lra.
Qed.

Lemma INR_Z_to_nat (z : Z) : (0 <= z)%Z -> INR (Z.to_nat z) = IZR z.
Proof. intro H. rewrite INR_IZR_INZ, Z2Nat.id by exact H. reflexivity. Qed.

Lemma lerp_one (a b : Coordinate) (n : nat) : (1 <= n)%nat ->
  lerp a b (INR n / INR n) = b.
Proof.
  intro Hn. replace (INR n / INR n) with 1 by (field; apply not_0_INR; lia).
  destruct b. unfold lerp. simpl. f_equal; ring.
Qed.

Lemma pieces_facts (a b : Coordinate) :
  (1 <= pieces a b)%nat /\
  haversine_distance_m a b / INR (pieces a b) <= 80 /\
  (haversine_distance_m a b <= 80 -> pieces a b = 1%nat).
Proof.
  unfold pieces. pose proof (haversine_nonneg a b) as Hn.
  set (d := haversine_distance_m a b) in *.
  destruct (Rlt_dec 80 d) as [Hd|Hd].
  - pose proof (ceil_ge (d / 80)) as Hc.
    assert (Hz : (2 <= Py.ceil (d / 80))%Z).
    { assert (1 < IZR (Py.ceil (d / 80))).
      { apply Rlt_le_trans with (d / 80); [|exact Hc].
        apply Rmult_lt_reg_r with 80; [lra|]. unfold Rdiv.
        rewrite Rmult_assoc, Rinv_l by lra. lra. }
      apply lt_IZR in H. lia. }
    split; [lia|]. split; [|intro; lra].
    rewrite INR_Z_to_nat by lia.
    assert (Hp : 0 < IZR (Py.ceil (d / 80))) by (apply IZR_lt; lia).
    unfold Rdiv. apply Rmult_le_reg_r with (IZR (Py.ceil (d / 80))); [exact Hp|].
    rewrite Rmult_assoc, Rinv_l by lra.
    unfold Rdiv in Hc. nra.
  - split; [lia|]. split; [|intro; reflexivity]. simpl. lra.
Qed.

Lemma densify_segment_pieces (a b : Coordinate) :
  densify_segment 80 a b =
  map (fun j => lerp a b (INR j / INR (pieces a b))) (seq 1 (pieces a b)).
Proof.
  destruct (pieces_facts a b) as [H1 _].
  unfold densify_segment. unfold pieces in *.
  destruct (Rlt_dec 80 (haversine_distance_m a b)) as [Hd|Hd].
  - remember (Z.to_nat (Py.ceil (haversine_distance_m a b / 80))) as n eqn:En.
    destruct n as [|m]; [lia|].
    replace (S m - 1)%nat with m by lia.
    rewrite seq_S, map_app. replace (1 + m)%nat with (S m) by lia.
    cbn [map]. rewrite lerp_one by exact H1. reflexivity.
  - cbn [seq map app]. rewrite lerp_one by lia. reflexivity.
Qed.

Lemma densify_loop_split (rest : list Coordinate) : forall a,
  densify_loop 80 a rest = evenly_split a rest.
Proof.
  induction rest as [|b rest IH]; intro a; [reflexivity|].
  simpl. rewrite densify_segment_pieces, IH. reflexivity.
Qed.

(** [densify] outputs convex combinations of consecutive inputs. *)
Lemma densify_in_bbox (bbox : BoundingBox) (points : list Coordinate) (q : Coordinate) :
  (forall p, In p points -> in_bbox bbox p) ->
  In q (densify points 80) -> in_bbox bbox q.
Proof.
  intros Hall Hq.
  assert (Hseg : forall a b, in_bbox bbox a -> in_bbox bbox b ->
            forall q, In q (densify_segment 80 a b) -> in_bbox bbox q).
  { intros a b Ha Hb q' Hq'. rewrite densify_segment_pieces in Hq'.
    apply in_map_iff in Hq'. destruct Hq' as (j & <- & Hj).
    apply in_seq in Hj. destruct (pieces_facts a b) as [H1 _].
    assert (Hf : 0 <= INR j / INR (pieces a b) <= 1).
    { assert (0 < INR (pieces a b)) by (apply lt_0_INR; lia).
      assert (INR j <= INR (pieces a b)) by (apply le_INR; lia).
      pose proof (pos_INR j).
      split; [unfold Rdiv; apply Rmult_le_pos; [lra|left; apply Rinv_0_lt_compat; lra]|].
      apply Rmult_le_reg_r with (INR (pieces a b)); [lra|].
      unfold Rdiv. rewrite Rmult_assoc, Rinv_l by lra. lra. }
    set (f := INR j / INR (pieces a b)) in *.
    unfold in_bbox, lerp in *. simpl.
    destruct Ha as [[Ha1 Ha2] [Ha3 Ha4]], Hb as [[Hb1 Hb2] [Hb3 Hb4]].
    split; split; nra. }
  unfold densify in Hq.
  destruct points as [|p0 [|p1 rest]]; [contradiction| exact (Hall q Hq)|].
  destruct Hq as [<-|Hq]; [apply Hall; left; reflexivity|].
  assert (Hgen : forall a r, in_bbox bbox a -> (forall p, In p r -> in_bbox bbox p) ->
            In q (densify_loop 80 a r) -> in_bbox bbox q).
  { intros a r. revert a. induction r as [|b r IH]; intros a Ha Hr Hin; [contradiction|].
    simpl in Hin. apply in_app_or in Hin. destruct Hin as [Hin|Hin].
    - eapply Hseg; [exact Ha| apply Hr; left; reflexivity| exact Hin].
    - eapply IH; [apply Hr; left; reflexivity| intros p Hp; apply Hr; right; exact Hp| exact Hin]. }
  eapply Hgen; [apply Hall; left; reflexivity| |exact Hq].
  intros p Hp. apply Hall. right. exact Hp.
Qed.

Lemma min2_le (x y : R) : Py.min2 x y <= x /\ Py.min2 x y <= y.
Proof. unfold Py.min2. destruct (Rlt_dec y x); lra. Qed.

Lemma max2_ge (x y : R) : x <= Py.max2 x y /\ y <= Py.max2 x y.
Proof. unfold Py.max2. destruct (Rlt_dec x y); lra. Qed.

Lemma min_of_le (xs : list R) : forall x y, In y (x :: xs) -> Py.min_of x xs <= y.
Proof.
  induction xs as [|z zs IH]; intros x y Hy.
  - destruct Hy as [<-|[]]. unfold Py.min_of. simpl. lra.
  - unfold Py.min_of. simpl. fold (Py.min_of (Py.min2 x z) zs).
    destruct (min2_le x z) as [H1 H2].
    destruct Hy as [<-|[<-|Hy]].
    + eapply Rle_trans; [apply IH; left; reflexivity|exact H1].
    + eapply Rle_trans; [apply IH; left; reflexivity|exact H2].
    + apply IH. right. exact Hy.
Qed.

Lemma max_of_ge (xs : list R) : forall x y, In y (x :: xs) -> y <= Py.max_of x xs.
Proof.
  induction xs as [|z zs IH]; intros x y Hy.
  - destruct Hy as [<-|[]]. unfold Py.max_of. simpl. lra.
  - unfold Py.max_of. simpl. fold (Py.max_of (Py.max2 x z) zs).
    destruct (max2_ge x z) as [H1 H2].
    destruct Hy as [<-|[<-|Hy]].
    + eapply Rle_trans; [exact H1|apply IH; left; reflexivity].
    + eapply Rle_trans; [exact H2|apply IH; left; reflexivity].
    + apply IH. right. exact Hy.
Qed.

(** One axis of [scale_to_bbox]: the centred, scaled coordinate stays in
    the target interval. *)
Lemma scale_axis (tmin tmax smin smax x sc : R) :
  tmin < tmax -> smin <= x <= smax -> 0 < sc ->
  sc <= (tmax - tmin - 2 * ((tmax - tmin) * 0.1)) / Py.or_else (smax - smin) 1e-6 ->
  tmin <= (tmin + tmax) / 2 + (x - (smin + smax) / 2) * sc <= tmax.
Proof.
  intros Ht Hx Hsc Hle.
  set (sw := Py.or_else (smax - smin) 1e-6) in *.
  assert (Hsw : 0 < sw /\ smax - smin <= sw).
  { unfold sw, Py.or_else. destruct (Req_dec_T (smax - smin) 0); [lra|].
    split; [|lra]. destruct (Rle_lt_or_eq_dec _ _ (Rle_trans _ _ _ (proj1 Hx) (proj2 Hx)));
      [lra|]. subst. lra. }
  destruct Hsw as [Hsw1 Hsw2].
  assert (Hm : sc * sw <= 0.8 * (tmax - tmin)).
  { apply Rmult_le_compat_r with (r := sw) in Hle; [|lra].
    unfold Rdiv in Hle. rewrite Rmult_assoc, Rinv_l in Hle by lra. lra. }
  assert (U : (x - (smin + smax) / 2) * sc <= sw / 2 * sc)
    by (apply Rmult_le_compat_r; lra).
  assert (L : - (sw / 2) * sc <= (x - (smin + smax) / 2) * sc)
    by (apply Rmult_le_compat_r; lra).
  split; nra.
Qed.

Lemma scale_to_bbox_in_bbox (cp : list Coordinate) (bbox : BoundingBox) (q : Coordinate) :
  0 < width_deg bbox -> 0 < height_deg bbox ->
  In q (scale_to_bbox cp bbox 0.1) -> in_bbox bbox q.
Proof.
  intros Hw Hh Hq. destruct cp as [|p0 ps]; [contradiction|].
  unfold scale_to_bbox in Hq. cbv zeta in Hq.
  apply in_map_iff in Hq. destruct Hq as (p & <- & Hp).
  unfold width_deg, height_deg in *.
  set (w := Py.or_else (Py.max_of (lng p0) (map lng ps) - Py.min_of (lng p0) (map lng ps)) 1e-6).
  set (h := Py.or_else (Py.max_of (lat p0) (map lat ps) - Py.min_of (lat p0) (map lat ps)) 1e-6).
  assert (Hwp : 0 < w).
  { unfold w, Py.or_else. destruct (Req_dec_T _ 0); [lra|].
    pose proof (min_of_le (map lng ps) (lng p0) (lng p0) (or_introl eq_refl)).
    pose proof (max_of_ge (map lng ps) (lng p0) (lng p0) (or_introl eq_refl)). lra. }
  assert (Hhp : 0 < h).
  { unfold h, Py.or_else. destruct (Req_dec_T _ 0); [lra|].
    pose proof (min_of_le (map lat ps) (lat p0) (lat p0) (or_introl eq_refl)).
    pose proof (max_of_ge (map lat ps) (lat p0) (lat p0) (or_introl eq_refl)). lra. }
  set (sc := Py.min2 ((max_lng bbox - min_lng bbox - 2 * ((max_lng bbox - min_lng bbox) * 0.1)) / w)
                     ((max_lat bbox - min_lat bbox - 2 * ((max_lat bbox - min_lat bbox) * 0.1)) / h)).
  assert (Hsc : 0 < sc).
  { unfold sc, Py.min2. destruct (Rlt_dec _ _); apply Rdiv_lt_0_compat; lra. }
  destruct (min2_le ((max_lng bbox - min_lng bbox - 2 * ((max_lng bbox - min_lng bbox) * 0.1)) / w)
                    ((max_lat bbox - min_lat bbox - 2 * ((max_lat bbox - min_lat bbox) * 0.1)) / h))
    as [Hs1 Hs2]. fold sc in Hs1, Hs2.
  assert (Hlng : In (lng p) (lng p0 :: map lng ps)).
  { destruct Hp as [<-|Hp]; [left; reflexivity|right; apply in_map; exact Hp]. }
  assert (Hlat : In (lat p) (lat p0 :: map lat ps)).
  { destruct Hp as [<-|Hp]; [left; reflexivity|right; apply in_map; exact Hp]. }
  unfold in_bbox. simpl. split.
  - apply scale_axis; [lra| |exact Hsc|exact Hs1].
    split; [apply min_of_le|apply max_of_ge]; exact Hlng.
  - apply scale_axis; [lra| |exact Hsc|exact Hs2].
    split; [apply min_of_le|apply max_of_ge]; exact Hlat.
Qed.

End StreetMapperFacts.

(** ** Street mapper claims *)

Module StreetMapperClaims.

Import StreetMapper SpecWording GeodesyFacts StreetMapperFacts.

(** C3 (counterexample): two input points 1.1 m apart. [deduplicate]
    drops the second one in its loop, then appends it back as the last
    point; the output pair is closer than 12 m and the second point was not
    kept for curvature (it has no successor to turn towards). *)
Lemma deduplicate_close_final_pair :
  deduplicate [mkCoord 14.42 50.07; mkCoord 14.42 50.07001] 12
    = [mkCoord 14.42 50.07; mkCoord 14.42 50.07001] /\
  haversine_distance_m (mkCoord 14.42 50.07) (mkCoord 14.42 50.07001) < 12 /\
  ~ spaced_or_curved [mkCoord 14.42 50.07; mkCoord 14.42 50.07001]
      (deduplicate [mkCoord 14.42 50.07; mkCoord 14.42 50.07001] 12).
Proof.
  assert (Hd : haversine_distance_m (mkCoord 14.42 50.07) (mkCoord 14.42 50.07001) < 12).
  { rewrite haversine_C3_pair. unfold EARTH_R. pose proof PI_4. lra. }
  assert (He : deduplicate [mkCoord 14.42 50.07; mkCoord 14.42 50.07001] 12
               = [mkCoord 14.42 50.07; mkCoord 14.42 50.07001]).
  { unfold deduplicate. cbn [dedup_loop].
    destruct (Rle_dec 12 _) as [H|H]; [lra|].
    cbn [dedup_loop last].
    destruct (coord_eq_dec _ _) as [E|E]; [injection E; lra|reflexivity]. }
  split; [exact He|]. split; [exact Hd|].
  rewrite He. intro Hs.
  destruct (Hs 0%nat (mkCoord 14.42 50.07) (mkCoord 14.42 50.07001) eq_refl eq_refl)
    as [H|(i & np & H1 & H2 & _)]; [lra|].
  destruct i as [|[|i]]; cbn [nth_error] in H1, H2.
  - injection H1. lra.
  - discriminate.
  - destruct i; discriminate.
Qed.

(** C3 (amended): every consecutive pair of the output of [deduplicate]
    (and so of [map_to_streets], whose input is the densified, scaled
    outline) is at least 12 m apart, or its later point was kept for a
    bearing change above 20 degrees, or it is the final pair, ending at the
    input's last point; the output starts with the input's first point and
    ends with its last point. *)
Theorem deduplicate_spacing_with_final :
  (forall points, spaced_curved_or_final points (deduplicate points 12)) /\
  (forall cp bbox, spaced_curved_or_final (densify (scale_to_bbox cp bbox 0.1) 80)
                     (map_to_streets cp bbox)).
Proof.
  split; intros; [apply deduplicate_pairs|unfold map_to_streets; apply deduplicate_pairs].
Qed.

(** C5 (counterexample): two equator points 0.001 degrees apart across the
    antimeridian, about 111 m apart on the sphere. [densify] cuts the
    segment in two, but interpolates in raw longitude, so the inserted
    point is (0, 0), half the world away from both. *)
Lemma densify_antimeridian :
  densify [mkCoord (-179.9995) 0; mkCoord 179.9995 0] 80
    = [mkCoord (-179.9995) 0; mkCoord 0 0; mkCoord 179.9995 0] /\
  80 < haversine_distance_m (mkCoord (-179.9995) 0) (mkCoord 179.9995 0) <= 160 /\
  80 < haversine_distance_m (mkCoord (-179.9995) 0) (mkCoord 0 0) /\
  ~ consecutive_within 80 (densify [mkCoord (-179.9995) 0; mkCoord 179.9995 0] 80).
Proof.
  pose proof PI_gt_3. pose proof PI_4.
  assert (Hd : haversine_distance_m (mkCoord (-179.9995) 0) (mkCoord 179.9995 0)
               = EARTH_R * (360 - (179.9995 - -179.9995)) * (PI / 180))
    by (apply haversine_equator_wrap; simpl; lra).
  assert (Hr : 80 < haversine_distance_m (mkCoord (-179.9995) 0) (mkCoord 179.9995 0) <= 160)
    by (rewrite Hd; unfold EARTH_R; lra).
  assert (Ho : 80 < haversine_distance_m (mkCoord (-179.9995) 0) (mkCoord 0 0)).
  { rewrite haversine_equator by (simpl; try rewrite Rabs_right; lra). simpl.
    rewrite Rabs_right by lra. unfold EARTH_R. lra. }
  assert (Hc : Py.ceil (haversine_distance_m (mkCoord (-179.9995) 0) (mkCoord 179.9995 0) / 80)
               = 2%Z).
  { unfold Py.ceil. rewrite (Int_part_eq _ (-2)); [reflexivity|].
    split.
    - apply Rmult_le_reg_r with 80; [lra|]. unfold Rdiv.
      rewrite Ropp_mult_distr_l_reverse, Rmult_assoc, Rinv_l by lra. lra.
    - apply Rmult_lt_reg_r with 80; [lra|]. unfold Rdiv.
      rewrite Ropp_mult_distr_l_reverse, Rmult_assoc, Rinv_l by lra. lra. }
  assert (He : densify [mkCoord (-179.9995) 0; mkCoord 179.9995 0] 80
               = [mkCoord (-179.9995) 0; mkCoord 0 0; mkCoord 179.9995 0]).
  { unfold densify, densify_loop, densify_segment.
    destruct (Rlt_dec 80 _) as [H'|H']; [|lra].
    rewrite Hc. change (Z.to_nat 2) with 2%nat. cbn [Nat.sub seq map app].
    unfold lerp. cbn [lng lat].
    replace (INR 1 / INR 2) with (1 / 2) by (simpl; field).
    match goal with |- [_; mkCoord ?x ?y; _] = _ =>
      replace x with 0 by lra; replace y with 0 by lra end.
    reflexivity. }
  split; [exact He|]. split; [exact Hr|]. split; [exact Ho|].
  rewrite He. intro Hw.
  specialize (Hw 0%nat _ _ eq_refl eq_refl). lra.
Qed.

(** C5 (amended): [densify] keeps the first point and replaces each
    segment [a -> b] by the points [a + (b - a) * j / N], [j = 1 .. N]:
    equal longitude/latitude steps ending at the original point [b], so the
    original points are kept in order. [N] is at least 1, is 1 when the
    segment is at most 80 m long, and the segment's geodesic length divided
    by [N] is at most 80 m. *)
Theorem densify_even_split :
  (forall points, densify points 80 =
     match points with [] => [] | p0 :: rest => p0 :: evenly_split p0 rest end) /\
  (forall a b, (1 <= pieces a b)%nat /\
     haversine_distance_m a b / INR (pieces a b) <= 80 /\
     (haversine_distance_m a b <= 80 -> pieces a b = 1%nat)).
Proof.
  split; [|exact pieces_facts].
  intros [|p0 [|p1 rest]]; [reflexivity|reflexivity|].
  unfold densify. rewrite densify_loop_split. reflexivity.
Qed.

(** C10: for a target box of positive width and height, every waypoint of
    [map_to_streets] lies in the box. *)
Theorem map_to_streets_in_bbox (cp : list Coordinate) (bbox : BoundingBox) :
  0 < width_deg bbox -> 0 < height_deg bbox ->
  Forall (in_bbox bbox) (map_to_streets cp bbox).
Proof.
  intros Hw Hh. apply Forall_forall. intros q Hq.
  unfold map_to_streets in Hq. apply deduplicate_incl in Hq.
  eapply densify_in_bbox; [|exact Hq].
  intros p Hp. eapply scale_to_bbox_in_bbox; eassumption.
Qed.

Lemma map_to_streets_in_bbox_witness :
  0 < width_deg (mkBBox 14.42 50.07 14.46 50.09) /\
  0 < height_deg (mkBBox 14.42 50.07 14.46 50.09) /\
  Forall (in_bbox (mkBBox 14.42 50.07 14.46 50.09))
    (map_to_streets [mkCoord 0 0; mkCoord 1 0; mkCoord 1 1; mkCoord 0 1]
       (mkBBox 14.42 50.07 14.46 50.09)).
Proof.
  split; [unfold width_deg; simpl; lra|].
  split; [unfold height_deg; simpl; lra|].
  apply map_to_streets_in_bbox; unfold width_deg, height_deg; simpl; lra.
Defined.

End StreetMapperClaims.

(** ** Shape validator *)

Module ValidatorFacts.

Import StreetMapper ShapeValidator GeodesyFacts StreetMapperFacts.

(** *** [round] *)

Lemma round_IZR (z : Z) : Py.round (IZR z) = z.
Proof.
  unfold Py.round. cbv zeta.
  rewrite (Int_part_eq (IZR z) z) by lra.
  destruct (Rlt_dec (IZR z - IZR z) (1 / 2)); [reflexivity|lra].
Qed.

Lemma round_mono (x y : R) : x <= y -> (Py.round x <= Py.round y)%Z.
Proof.
  intro Hxy.
  destruct (base_Int_part x) as [Hx1 Hx2]. destruct (base_Int_part y) as [Hy1 Hy2].
  assert (Hf : (Int_part x <= Int_part y)%Z).
  { assert (H : IZR (Int_part x) < IZR (Int_part y + 1)) by (rewrite plus_IZR; lra).
    apply lt_IZR in H. lia. }
  unfold Py.round. cbv zeta.
  remember (Int_part x) as fx. remember (Int_part y) as fy.
  destruct (Z.eq_dec fx fy) as [E|E].
  - rewrite <- E. assert (Ey : IZR fx = IZR fy) by (rewrite E; reflexivity).
    destruct (Rlt_dec (x - IZR fx) (1 / 2)); destruct (Rlt_dec (1 / 2) (x - IZR fx));
    destruct (Rlt_dec (y - IZR fx) (1 / 2)); destruct (Rlt_dec (1 / 2) (y - IZR fx));
    repeat match goal with H : ~ (_ < _) |- _ => apply Rnot_lt_le in H end;
    destruct (Z.even fx); first [lia | exfalso; lra].
  - assert (Hlt : (fx + 1 <= fy)%Z) by lia.
    destruct (Rlt_dec (x - IZR fx) (1 / 2)); destruct (Rlt_dec (1 / 2) (x - IZR fx));
    destruct (Rlt_dec (y - IZR fy) (1 / 2)); destruct (Rlt_dec (1 / 2) (y - IZR fy));
    destruct (Z.even fx); destruct (Z.even fy); lia.
Qed.

Lemma round_ge (z : Z) (x : R) : IZR z <= x -> (z <= Py.round x)%Z.
Proof. intro H. rewrite <- (round_IZR z) at 1. apply round_mono. exact H. Qed.

Lemma round_le (z : Z) (x : R) : x <= IZR z -> (Py.round x <= z)%Z.
Proof. intro H. rewrite <- (round_IZR z). apply round_mono. exact H. Qed.

Lemma min2_Rmin (x y : R) : Py.min2 x y = Rmin x y.
Proof.
  unfold Py.min2. destruct (Rlt_dec y x).
  - rewrite Rmin_right; lra.
  - rewrite Rmin_left; lra.
Qed.

Lemma min_of_in (xs : list R) : forall x, In (Py.min_of x xs) (x :: xs).
Proof.
  induction xs as [|z zs IH]; intro x; [left; reflexivity|].
  unfold Py.min_of. simpl. fold (Py.min_of (Py.min2 x z) zs).
  destruct (IH (Py.min2 x z)) as [E|H]; [|right; right; exact H].
  rewrite <- E. unfold Py.min2. destruct (Rlt_dec z x); [right; left|left]; reflexivity.
Qed.

(** *** Percentile and modified Hausdorff distance *)

Lemma insert_sorted_Forall (P : R -> Prop) (x : R) (l : list R) :
  P x -> Forall P l -> Forall P (insert_sorted x l).
Proof.
  intros Hx Hl. induction Hl as [|y l Hy Hl IH]; simpl; [constructor; auto|].
  destruct (Rle_dec x y); repeat constructor; auto.
Qed.

Lemma sort_Forall (P : R -> Prop) (l : list R) : Forall P l -> Forall P (sort l).
Proof.
  intro Hl. induction Hl as [|y l Hy Hl IH]; simpl; [constructor|].
  apply insert_sorted_Forall; assumption.
Qed.

Lemma np_percentile_zero (xs : list R) (q : R) :
  Forall (fun d => d = 0) xs -> np_percentile xs q = 0.
Proof.
  intro H. apply sort_Forall in H. unfold np_percentile. cbv zeta.
  assert (Z0 : forall i, nth i (sort xs) 0 = 0).
  { intro i. destruct (Nat.lt_ge_cases i (length (sort xs))) as [Hi|Hi].
    - rewrite Forall_forall in H. apply H. apply nth_In. exact Hi.
    - apply nth_overflow. exact Hi. }
  rewrite !Z0. ring.
Qed.

Lemma nearest_distance_self (s : Coordinate) (tgt : list Coordinate) :
  In s tgt -> nearest_distance s tgt = 0.
Proof.
  intro Hs. unfold nearest_distance.
  destruct tgt as [|t ts]; [contradiction|]. simpl map.
  apply Rle_antisym.
  - apply min_of_le. change (In 0 (map (haversine_distance_m s) (t :: ts))).
    rewrite <- (haversine_self s). apply in_map. exact Hs.
  - pose proof (min_of_in (map (haversine_distance_m s) ts) (haversine_distance_m s t)) as Hm.
    change (In (Py.min_of (haversine_distance_m s t) (map (haversine_distance_m s) ts))
              (map (haversine_distance_m s) (t :: ts))) in Hm.
    apply in_map_iff in Hm. destruct Hm as (u & <- & _). apply haversine_nonneg.
Qed.

Lemma mhd_self (points : list Coordinate) (q : R) :
  _modified_hausdorff_distance points points q = 0.
Proof.
  unfold _modified_hausdorff_distance. cbv zeta. apply np_percentile_zero.
  apply Forall_app. unfold directed_distances.
  split; apply Forall_forall; intros d Hd; apply in_map_iff in Hd;
    destruct Hd as (s & <- & Hs); apply nearest_distance_self; exact Hs.
Qed.

(** *** Arc length and resampling *)

Lemma lerp_zero (a b : Coordinate) : lerp a b 0 = a.
Proof. destruct a. unfold lerp. simpl. f_equal; ring. Qed.

Lemma length_cumlen_from (rest : list Coordinate) : forall acc prev,
  length (cumlen_from acc prev rest) = length rest.
Proof. induction rest; intros; simpl; [reflexivity|rewrite IHrest; reflexivity]. Qed.

Lemma length_cumlen (points : list Coordinate) :
  points <> [] -> length (cumlen points) = length points.
Proof.
  destruct points; [congruence|]. intros _. simpl. rewrite length_cumlen_from. reflexivity.
Qed.

Lemma cumlen_from_step (rest : list Coordinate) : forall acc prev j,
  (S j < S (length rest))%nat ->
  nth j (acc :: cumlen_from acc prev rest) 0 <= nth (S j) (acc :: cumlen_from acc prev rest) 0.
Proof.
  induction rest as [|p rest IH]; intros acc prev j Hj; simpl in Hj; [lia|].
  destruct j as [|j].
  - simpl. pose proof (haversine_nonneg prev p). lra.
  - change (nth j (acc + haversine_distance_m prev p
                   :: cumlen_from (acc + haversine_distance_m prev p) p rest) 0
            <= nth (S j) (acc + haversine_distance_m prev p
                   :: cumlen_from (acc + haversine_distance_m prev p) p rest) 0).
    apply IH. lia.
Qed.

Lemma cumlen_step (points : list Coordinate) (j : nat) :
  (S j < length points)%nat -> nth j (cumlen points) 0 <= nth (S j) (cumlen points) 0.
Proof.
  destruct points as [|p0 rest]; simpl; intro Hj; [lia|].
  apply cumlen_from_step. exact Hj.
Qed.

Lemma cumlen_mono (points : list Coordinate) (j j' : nat) :
  (j <= j')%nat -> (j' < length points)%nat ->
  nth j (cumlen points) 0 <= nth j' (cumlen points) 0.
Proof.
  intros Hjj. induction Hjj as [|j' Hle IH]; intro Hj'; [lra|].
  eapply Rle_trans; [apply IH; lia|apply cumlen_step; exact Hj'].
Qed.

Lemma cumlen_0 (points : list Coordinate) : nth 0 (cumlen points) 0 = 0.
Proof. destruct points; reflexivity. Qed.

Lemma cumlen_nonneg (points : list Coordinate) (j : nat) :
  (j < length points)%nat -> 0 <= nth j (cumlen points) 0.
Proof.
  intro Hj. pose proof (cumlen_mono points 0 j ltac:(lia) Hj) as H.
  rewrite cumlen_0 in H. exact H.
Qed.

Lemma last_nth_pred {A} (l : list A) (d : A) : l <> [] -> last l d = nth (pred (length l)) l d.
Proof.
  induction l as [|x [|y l] IH]; intro H; [congruence|reflexivity|].
  change (last (y :: l) d = nth (pred (length (y :: l))) (y :: l) d).
  apply IH. discriminate.
Qed.

Lemma find_segment_spec (points : list Coordinate) (cum : list R) (t : R) :
  forall fuel i, (exists j, (i <= j < i + fuel)%nat /\ t <= nth j cum 0) ->
  exists j, (i <= j < i + fuel)%nat /\ t <= nth j cum 0 /\
    (forall j', (i <= j' < j)%nat -> nth j' cum 0 < t) /\
    find_segment points cum t i fuel =
      Some (lerp (nth (j - 1) points origin) (nth j points origin)
             (if Req_dec_T (nth j cum 0 - nth (j - 1) cum 0) 0 then 0
              else (t - nth (j - 1) cum 0) / (nth j cum 0 - nth (j - 1) cum 0))).
Proof.
  induction fuel as [|fuel IH]; intros i (j & Hj & Ht); [lia|].
  cbn [find_segment].
  destruct (Rle_dec t (nth i cum 0)) as [Hi|Hi].
  - exists i. split; [lia|]. split; [exact Hi|]. split; [intros; lia|reflexivity].
  - destruct (IH (S i)) as (j0 & Hj0 & Ht0 & Hmin & Hf).
    + exists j. split; [|exact Ht].
      destruct (Nat.eq_dec j i); [subst; contradiction|lia].
    + exists j0. split; [lia|]. split; [exact Ht0|]. split; [|exact Hf].
      intros j' Hj'. destruct (Nat.eq_dec j' i) as [->|Hne]; [lra|].
      apply Hmin. lia.
Qed.

Lemma flat_map_single {A B} (f : A -> list B) (g : A -> B) (l : list A) :
  (forall x, In x l -> f x = [g x]) -> flat_map f l = map g l.
Proof.
  induction l as [|x l IH]; intro H; [reflexivity|].
  simpl. rewrite H by (left; reflexivity). rewrite IH; [reflexivity|].
  intros y Hy. apply H. right. exact Hy.
Qed.

Lemma resample_curve_spec (P : list Coordinate) (n : nat) :
  (2 <= length P)%nat -> (2 <= n)%nat ->
  length (_resample_curve P n) = n /\
  (last (cumlen P) 0 = 0 -> _resample_curve P n = repeat (hd origin P) n) /\
  (forall k, (k < n)%nat ->
     exists i f, (1 <= i < length P)%nat /\
       (forall j, (1 <= j < i)%nat ->
          nth j (cumlen P) 0 < last (cumlen P) 0 * INR k / INR (n - 1)) /\
       0 <= f <= 1 /\
       nth (i - 1) (cumlen P) 0 + f * (nth i (cumlen P) 0 - nth (i - 1) (cumlen P) 0)
         = last (cumlen P) 0 * INR k / INR (n - 1) /\
       nth_error (_resample_curve P n) k
         = Some (lerp (nth (i - 1) P origin) (nth i P origin) f)).
Proof.
  intros HP Hn.
  assert (HPne : P <> []) by (destruct P; simpl in HP; [lia|discriminate]).
  assert (Hlc : length (cumlen P) = length P) by (apply length_cumlen; exact HPne).
  assert (Htot : last (cumlen P) 0 = nth (pred (length P)) (cumlen P) 0).
  { rewrite last_nth_pred, Hlc; [reflexivity|]. intro E. rewrite E in Hlc. simpl in Hlc. lia. }
  assert (Hnn : 0 <= last (cumlen P) 0) by (rewrite Htot; apply cumlen_nonneg; lia).
  assert (Hd : 0 < INR (n - 1)) by (apply lt_0_INR; lia).
  assert (Ht : forall k, (k < n)%nat ->
            0 <= last (cumlen P) 0 * INR k / INR (n - 1) <= last (cumlen P) 0).
  { intros k Hk. assert (INR k <= INR (n - 1)) by (apply le_INR; lia). pose proof (pos_INR k).
    split.
    - unfold Rdiv. apply Rmult_le_pos; [apply Rmult_le_pos; lra|left; apply Rinv_0_lt_compat; lra].
    - apply Rmult_le_reg_r with (INR (n - 1)); [lra|]. unfold Rdiv.
      rewrite Rmult_assoc, Rinv_l by lra. nra. }
  assert (Hb : ((length P <? 2) || (n <? 2))%nat = false).
  { apply orb_false_iff. split; apply Nat.ltb_ge; lia. }
  assert (Hp0 : hd origin P = nth 0 P origin) by (destruct P; reflexivity).
  unfold _resample_curve. rewrite Hb. cbv zeta.
  destruct (Req_dec_T (last (cumlen P) 0) 0) as [Hz|Hz].
  - split; [apply repeat_length|]. split; [intros _; reflexivity|].
    intros k Hk. exists 1%nat, 0. split; [lia|]. split; [intros; lia|]. split; [lra|]. split.
    + replace (1 - 1)%nat with 0%nat by lia. rewrite Hz, cumlen_0. unfold Rdiv. ring.
    + rewrite nth_error_repeat by exact Hk. replace (1 - 1)%nat with 0%nat by lia.
      rewrite lerp_zero, Hp0. reflexivity.
  - assert (Hfs : forall k, (k < n)%nat ->
      exists i, (1 <= i < 1 + (length (cumlen P) - 1))%nat /\
        last (cumlen P) 0 * INR k / INR (n - 1) <= nth i (cumlen P) 0 /\
        (forall j', (1 <= j' < i)%nat ->
           nth j' (cumlen P) 0 < last (cumlen P) 0 * INR k / INR (n - 1)) /\
        find_segment P (cumlen P) (last (cumlen P) 0 * INR k / INR (n - 1)) 1
          (length (cumlen P) - 1) =
        Some (lerp (nth (i - 1) P origin) (nth i P origin)
          (if Req_dec_T (nth i (cumlen P) 0 - nth (i - 1) (cumlen P) 0) 0 then 0
           else (last (cumlen P) 0 * INR k / INR (n - 1) - nth (i - 1) (cumlen P) 0)
                / (nth i (cumlen P) 0 - nth (i - 1) (cumlen P) 0)))).
    { intros k Hk. apply find_segment_spec. exists (pred (length P)).
      split; [lia|]. rewrite <- Htot. apply Ht. exact Hk. }
    set (g := fun k => match find_segment P (cumlen P) (last (cumlen P) 0 * INR k / INR (n - 1))
                         1 (length (cumlen P) - 1) with Some c => c | None => origin end).
    rewrite (flat_map_single _ g).
    2:{ intros x Hx. apply in_seq in Hx. destruct (Hfs x ltac:(lia)) as (i & _ & _ & _ & E).
        unfold g. rewrite E. reflexivity. }
    split; [rewrite length_map, length_seq; reflexivity|].
    split; [intro; contradiction|].
    intros k Hk. destruct (Hfs k Hk) as (i & Hi & Hti & Hmin & E).
    set (t := last (cumlen P) 0 * INR k / INR (n - 1)) in *.
    set (c1 := nth (i - 1) (cumlen P) 0) in *.
    set (c2 := nth i (cumlen P) 0) in *.
    assert (H12 : c1 <= c2).
    { unfold c1, c2. replace i with (S (i - 1)) at 2 by lia. apply cumlen_step. lia. }
    assert (H1t : c1 <= t).
    { destruct (Nat.eq_dec i 1) as [->|Hi1].
      - unfold c1. replace (1 - 1)%nat with 0%nat by lia. rewrite cumlen_0. apply Ht. exact Hk.
      - left. apply Hmin. lia. }
    exists i, (if Req_dec_T (c2 - c1) 0 then 0 else (t - c1) / (c2 - c1)).
    split; [lia|]. fold c1 c2. split; [exact Hmin|].
    split; [|split].
    + destruct (Req_dec_T (c2 - c1) 0); [lra|].
      split.
      * unfold Rdiv. apply Rmult_le_pos; [lra|left; apply Rinv_0_lt_compat; lra].
      * apply Rmult_le_reg_r with (c2 - c1); [lra|]. unfold Rdiv.
        rewrite Rmult_assoc, Rinv_l by lra. lra.
    + destruct (Req_dec_T (c2 - c1) 0); [lra|]. field. lra.
    + rewrite nth_error_map, nth_error_seq.
      destruct (Nat.ltb_spec k n); [|lia]. simpl. unfold g. fold t. rewrite E. reflexivity.
Qed.

Lemma resample_head (P : list Coordinate) (n : nat) :
  (2 <= length P)%nat -> (2 <= n)%nat ->
  exists rest, _resample_curve P n = hd origin P :: rest.
Proof.
  intros HP Hn.
  destruct P as [|p0 [|p1 rest]]; simpl in HP; [lia|lia|].
  destruct n as [|[|n']]; [lia|lia|].
  unfold _resample_curve. cbn [length Nat.ltb Nat.leb orb]. cbv zeta.
  destruct (Req_dec_T _ 0) as [Hz|Hz]; [eexists; reflexivity|].
  assert (E : find_segment (p0 :: p1 :: rest) (cumlen (p0 :: p1 :: rest))
                (last (cumlen (p0 :: p1 :: rest)) 0 * INR 0 / INR (S (S n') - 1)) 1
                (length (cumlen (p0 :: p1 :: rest)) - 1) = Some p0).
  { rewrite length_cumlen by discriminate. cbn [length].
    replace (S (S (length rest)) - 1)%nat with (S (length rest)) by lia.
    cbn [find_segment]. change (INR 0) with 0.
    replace (last (cumlen (p0 :: p1 :: rest)) 0 * 0 / INR (S (S n') - 1)) with 0
      by (unfold Rdiv; ring).
    assert (Hc : 0 <= nth 1 (cumlen (p0 :: p1 :: rest)) 0) by (apply cumlen_nonneg; simpl; lia).
    destruct (Rle_dec 0 _) as [H|H]; [|contradiction].
    cbv zeta. change (nth (1 - 1) (cumlen (p0 :: p1 :: rest)) 0) with 0.
    change (nth (1 - 1) (p0 :: p1 :: rest) origin) with p0.
    destruct (Req_dec_T _ 0).
    - rewrite lerp_zero. reflexivity.
    - replace ((0 - 0) / _) with 0 by (unfold Rdiv; ring). rewrite lerp_zero. reflexivity. }
  cbn [seq flat_map]. rewrite E. eexists. reflexivity.
Qed.

Lemma mean_paired_self (l : list Coordinate) : mean_paired_distance l l = 0.
Proof.
  unfold mean_paired_distance. cbv zeta.
  assert (H : fold_right Rplus 0
                (map (fun ta => haversine_distance_m (fst ta) (snd ta)) (combine l l)) = 0).
  { induction l as [|x l IH]; [reflexivity|]. simpl. rewrite IH, haversine_self. ring. }
  rewrite H. unfold Rdiv. ring.
Qed.

Lemma count_lit_false (size : Z) (c : Canvas) :
  (forall x y, c x y = false) -> count_lit size c = 0%nat.
Proof.
  intro H. unfold count_lit.
  induction (list_prod _ _) as [|xy l IH]; [reflexivity|].
  simpl. rewrite H. exact IH.
Qed.

(** *** The scorer, for any generator and line drawer *)

Section ScorerFacts.

Variable RandomState : Type.
Variable Random : Z -> RandomState.
Variable rng_sample : RandomState -> nat -> nat -> list nat * RandomState.
Variable draw_line : list (Z * Z) -> Z -> Z -> Canvas.

Local Abbreviation diam := (_compute_diameter RandomState Random rng_sample).
Local Abbreviation OS := (_ordered_sampling_score RandomState Random rng_sample).
Local Abbreviation IOU := (_raster_iou_score draw_line).
Local Abbreviation VA := (_validate_algorithmic RandomState Random rng_sample draw_line).

Lemma fold_left_inv {A B} (f : A -> B -> A) (I : A -> Prop) (l : list B) :
  forall a, I a -> (forall a b, In b l -> I a -> I (f a b)) -> I (fold_left f l a).
Proof.
  induction l as [|b l IH]; intros a Ha Hf; [exact Ha|].
  simpl. apply IH; [apply Hf; [left; reflexivity|exact Ha]|].
  intros a' b' Hb'. apply Hf. right. exact Hb'.
Qed.

Lemma keep_max_0 : keep_max 0 0 = 0.
Proof. unfold keep_max. destruct (Rlt_dec 0 0); lra. Qed.

Lemma all_pairs_max_const (points : list Coordinate) :
  (forall p q, In p points -> In q points -> p = q) -> all_pairs_max 0 points = 0.
Proof.
  induction points as [|p rest IH]; intro H; [reflexivity|].
  simpl. replace (fold_left _ rest 0) with 0.
  - apply IH. intros a b Ha Hb. apply H; right; assumption.
  - symmetry. apply (fold_left_inv _ (fun m => m = 0)); [reflexivity|].
    intros m q Hq ->. rewrite (H p q) by (simpl; auto). rewrite haversine_self. apply keep_max_0.
Qed.

Lemma diameter_lt2 (points : list Coordinate) : (length points < 2)%nat -> diam points = 0.
Proof.
  intro H. unfold _compute_diameter. cbv zeta.
  destruct (Nat.ltb_spec (length points) 2); [reflexivity|lia].
Qed.

(** [rng.sample(range(n), k)] draws from [range(n)]. *)
Hypothesis rng_sample_range :
  forall r n k j, In j (fst (rng_sample r n k)) -> (j < n)%nat.

Lemma diameter_const (points : list Coordinate) :
  (forall p q, In p points -> In q points -> p = q) -> diam points = 0.
Proof.
  intro H. unfold _compute_diameter. cbv zeta.
  destruct (length points <? 2)%nat; [reflexivity|].
  destruct (length points <=? 60)%nat; [apply all_pairs_max_const; exact H|].
  unfold sampled_max. cbv zeta.
  apply (fold_left_inv _ (fun st : R * RandomState => fst st = 0)); [reflexivity|].
  intros [m rng] i Hi Hm. simpl in Hm. subst m. apply in_seq in Hi.
  destruct (rng_sample rng (length points) (Nat.min 50 (length points))) as [samples rng'] eqn:Es.
  simpl. apply (fold_left_inv _ (fun m => m = 0)); [reflexivity|].
  intros m j Hj ->. destruct (Nat.eq_dec i j); [reflexivity|].
  assert (Hj' : (j < length points)%nat).
  { apply (rng_sample_range rng (length points) (Nat.min 50 (length points))). rewrite Es. exact Hj. }
  rewrite (H (nth i points origin) (nth j points origin)) by (apply nth_In; lia).
  rewrite haversine_self. apply keep_max_0.
Qed.

Lemma diameter_pos_length (points : list Coordinate) :
  0 < diam points -> (2 <= length points)%nat.
Proof.
  intro H. destruct (Nat.lt_ge_cases (length points) 2) as [Hl|Hl]; [|exact Hl].
  rewrite diameter_lt2 in H by exact Hl. lra.
Qed.

Lemma iou_nonneg (target actual : list Coordinate) (size w : Z) : 0 <= IOU target actual size w.
Proof.
  unfold _raster_iou_score. cbv zeta.
  match goal with |- 0 <= (if ?b then _ else _) => destruct b end; [lra|].
  apply IZR_le. apply round_ge. simpl (IZR 0).
  unfold Rdiv. apply Rmult_le_pos; [|lra].
  apply Rmult_le_pos; [apply pos_INR|]. destruct (count_lit _ _) as [|u].
  - simpl. rewrite Rinv_0. lra.
  - left. apply Rinv_0_lt_compat. apply lt_0_INR. lia.
Qed.

Lemma rasterize_short (coords : list Coordinate) bbox size w :
  (length coords < 2)%nat -> forall x y, rasterize_route draw_line coords bbox size w x y = false.
Proof.
  intros H x y. destruct bbox as [[[a b] c] d]. unfold rasterize_route. cbv zeta.
  rewrite length_map. destruct (Nat.leb_spec 2 (length coords)); [lia|reflexivity].
Qed.

(** A single actual point draws nothing: the IoU component is 0. *)
Lemma iou_short_actual (target actual : list Coordinate) (size w : Z) :
  (length actual < 2)%nat -> IOU target actual size w = 0.
Proof.
  intro H. unfold _raster_iou_score. cbv zeta.
  rewrite (count_lit_false size (fun x y => _ && _)).
  2:{ intros x y. rewrite (rasterize_short actual) by exact H. apply andb_false_r. }
  match goal with |- (if ?b then _ else _) = _ => destruct b end; [reflexivity|].
  simpl INR. unfold Rdiv. rewrite !Rmult_0_l.
  change 0 with (IZR 0) at 1. rewrite round_IZR. reflexivity.
Qed.

Lemma os_self (points : list Coordinate) : 0 < diam points -> OS points points 50 = 100.
Proof.
  intro Hd. pose proof (diameter_pos_length points Hd) as Hl.
  destruct (resample_head points 50 Hl ltac:(lia)) as [rest E].
  unfold _ordered_sampling_score. cbv zeta. rewrite E.
  rewrite mean_paired_self.
  destruct (Req_dec_T (diam points) 0) as [H0|_]; [lra|].
  replace (Py.min2 (0 / diam points) 1) with 0.
  - replace ((1 - 0) * 100) with (IZR 100) by lra. rewrite round_IZR. reflexivity.
  - unfold Rdiv. rewrite Rmult_0_l. unfold Py.min2. destruct (Rlt_dec 1 0); lra.
Qed.

(** The two-point meridian outline [(0, 1) -> (0, 0)], one degree long. *)
Lemma meridian_haversine (x y : R) : Rabs (y - x) <= 180 ->
  haversine_distance_m (mkCoord 0 x) (mkCoord 0 y) = Rabs (y - x) * (EARTH_R * (PI / 180)).
Proof. intro H. rewrite haversine_meridian; simpl; [ring|reflexivity|exact H]. Qed.

Lemma keep_max_pos (d : R) : 0 < d -> keep_max 0 d = d.
Proof. intro H. unfold keep_max. destruct (Rlt_dec 0 d); lra. Qed.

Lemma diameter_meridian (x y : R) : x <> y -> Rabs (y - x) <= 180 ->
  diam [mkCoord 0 x; mkCoord 0 y] = Rabs (y - x) * (EARTH_R * (PI / 180)).
Proof.
  intros Hxy H. unfold _compute_diameter. cbv zeta. cbn [length Nat.ltb Nat.leb].
  cbn [all_pairs_max fold_left]. rewrite meridian_haversine by exact H.
  apply keep_max_pos. apply Rmult_lt_0_compat; [apply Rabs_pos_lt; lra|].
  unfold EARTH_R. pose proof PI_RGT_0. nra.
Qed.

Lemma np_percentile_sorted3 (xs : list R) (a b c : R) :
  sort xs = [a; b; c] -> np_percentile xs 90 = b + (c - b) * 0.8.
Proof.
  intro H. unfold np_percentile. rewrite H. cbv zeta. cbn [length].
  change (3 - 1)%nat with 2%nat. change (INR 2) with (1 + 1).
  unfold Py.floor. rewrite (Int_part_eq _ 1) by lra.
  change (Z.to_nat 1) with 1%nat. change (Nat.min (1 + 1) 2) with 2%nat.
  cbn [nth]. change (INR 1) with 1. replace (90 / 100 * (1 + 1) - 1) with 0.8 by lra. reflexivity.
Qed.

Lemma np_percentile_pair_min (x y : R) :
  np_percentile [x; y; Py.min2 x y] 90 = 0.2 * Rmin x y + 0.8 * Rmax x y.
Proof.
  unfold Py.min2. destruct (Rlt_dec y x) as [H|H].
  - rewrite (np_percentile_sorted3 _ y y x).
    + rewrite Rmin_right, Rmax_left by lra. lra.
    + unfold sort.
      repeat (cbn [insert_sorted fold_right]; destruct (Rle_dec _ _); try (exfalso; lra));
      first [reflexivity | replace y with x by lra; reflexivity].
  - rewrite (np_percentile_sorted3 _ x x y).
    + rewrite Rmin_left, Rmax_right by lra. lra.
    + unfold sort.
      repeat (cbn [insert_sorted fold_right]; destruct (Rle_dec _ _); try (exfalso; lra));
      first [reflexivity | replace y with x by lra; reflexivity].
Qed.

(** The modified Hausdorff distance between a two-point outline and one
    point. *)
Lemma mhd_single (a b p : Coordinate) :
  haversine_distance_m p a = haversine_distance_m a p ->
  haversine_distance_m p b = haversine_distance_m b p ->
  _modified_hausdorff_distance [a; b] [p] 90
  = 0.2 * Rmin (haversine_distance_m a p) (haversine_distance_m b p)
    + 0.8 * Rmax (haversine_distance_m a p) (haversine_distance_m b p).
Proof.
  intros Ha Hb. unfold _modified_hausdorff_distance, directed_distances, nearest_distance.
  cbv zeta. cbn [map app]. unfold Py.min_of. cbn [fold_left].
  rewrite Ha, Hb. apply np_percentile_pair_min.
Qed.

Lemma resample_single (p : Coordinate) (n : nat) : (2 <= n)%nat -> _resample_curve [p] n = [p].
Proof.
  intro Hn. unfold _resample_curve. cbn [length Nat.ltb Nat.leb orb].
  destruct (Nat.leb_spec n 1); [lia|reflexivity].
Qed.

(** The ordered-sampling score against one actual point: only the first
    resampled target point is paired ([zip] stops at the shorter list). *)
Lemma os_single (P : list Coordinate) (p : Coordinate) :
  (2 <= length P)%nat -> diam P <> 0 ->
  OS P [p] 50 =
  IZR (Py.round ((1 - Py.min2 (haversine_distance_m (hd origin P) p / diam P) 1) * 100)).
Proof.
  intros HP Hd. destruct (resample_head P 50 HP ltac:(lia)) as [rest E].
  unfold _ordered_sampling_score. cbv zeta. rewrite E, resample_single by lia.
  assert (Em : mean_paired_distance (hd origin P :: rest) [p] = haversine_distance_m (hd origin P) p).
  { unfold mean_paired_distance. destruct rest; cbn [combine map fold_right length fst snd];
      change (INR 1) with 1; field. }
  rewrite Em. destruct (Req_dec_T (diam P) 0); [contradiction|reflexivity].
Qed.

Lemma D_pos : 0 < EARTH_R * (PI / 180).
Proof. unfold EARTH_R. pose proof PI_RGT_0. lra. Qed.

Lemma mul_div_same (c d : R) : d <> 0 -> c * d / d = c.
Proof. intro H. unfold Rdiv. rewrite Rmult_assoc, Rinv_r by exact H. ring. Qed.

Lemma min2_le1 (x : R) : x <= 1 -> Py.min2 x 1 = x.
Proof. intro H. unfold Py.min2. destruct (Rlt_dec 1 x); lra. Qed.

(** The score of a two-point outline against one actual point. *)
Lemma score_two_one (a b p : Coordinate) (threshold : Z) :
  diam [a; b] <> 0 ->
  haversine_distance_m p a = haversine_distance_m a p ->
  haversine_distance_m p b = haversine_distance_m b p ->
  score (VA [a; b] [p] threshold) =
  IZR (Py.round
    (0.55 * ((1 - Py.min2 ((0.2 * Rmin (haversine_distance_m a p) (haversine_distance_m b p)
                            + 0.8 * Rmax (haversine_distance_m a p) (haversine_distance_m b p))
                           / diam [a; b]) 1) * 100)
     + 0.35 * IZR (Py.round ((1 - Py.min2 (haversine_distance_m a p / diam [a; b]) 1) * 100))
     + 0.10 * 0)).
Proof.
  intros Hd Ha Hb. unfold _validate_algorithmic. cbv beta iota zeta.
  destruct (Req_dec_T (diam [a; b]) 0); [contradiction|].
  rewrite mhd_single by assumption.
  rewrite os_single by first [assumption | simpl; lia].
  rewrite iou_short_actual by (simpl; lia). reflexivity.
Qed.

(** The one-degree outline [(0,1) -> (0,0)] against the single point
    [(0,0)]: score 11. *)
Lemma score_meridian_at_0 (threshold : Z) :
  score (VA [mkCoord 0 1; mkCoord 0 0] [mkCoord 0 0] threshold) = 11.
Proof.
  pose proof D_pos as HD. set (D := EARTH_R * (PI / 180)) in *.
  assert (Hdm : diam [mkCoord 0 1; mkCoord 0 0] = D).
  { rewrite diameter_meridian by (try rewrite Rabs_left; lra).
    rewrite Rabs_left by lra. unfold D. ring. }
  assert (H10 : haversine_distance_m (mkCoord 0 1) (mkCoord 0 0) = D).
  { rewrite meridian_haversine by (rewrite Rabs_left; lra). rewrite Rabs_left by lra. unfold D. ring. }
  assert (H01 : haversine_distance_m (mkCoord 0 0) (mkCoord 0 1) = D).
  { rewrite meridian_haversine by (rewrite Rabs_right; lra). rewrite Rabs_right by lra. unfold D. ring. }
  rewrite score_two_one by (rewrite ?Hdm, ?H10, ?H01, ?haversine_self; lra).
  rewrite Hdm, H10, haversine_self.
  rewrite Rmin_right, Rmax_left by lra.
  replace (0.2 * 0 + 0.8 * D) with (0.8 * D) by lra.
  replace (D / D) with (1 * D / D) by (f_equal; ring).
  rewrite !mul_div_same by lra.
  rewrite !min2_le1 by lra.
  replace ((1 - 1) * 100) with (IZR 0) by (simpl; lra). rewrite round_IZR.
  replace (0.55 * ((1 - 0.8) * 100) + 0.35 * IZR 0 + 0.10 * 0) with (IZR 11) by (simpl; lra).
  rewrite round_IZR. reflexivity.
Qed.

(** The same outline against [(0, 1.1)], the point moved 1.1 degrees
    north: score 37. *)
Lemma score_meridian_at_1_1 (threshold : Z) :
  score (VA [mkCoord 0 1; mkCoord 0 0] [mkCoord 0 1.1] threshold) = 37.
Proof.
  pose proof D_pos as HD. set (D := EARTH_R * (PI / 180)) in *.
  assert (Hdm : diam [mkCoord 0 1; mkCoord 0 0] = D).
  { rewrite diameter_meridian by (try rewrite Rabs_left; lra).
    rewrite Rabs_left by lra. unfold D. ring. }
  assert (Ha : haversine_distance_m (mkCoord 0 1) (mkCoord 0 1.1) = 0.1 * D).
  { rewrite meridian_haversine by (rewrite Rabs_right; lra). rewrite Rabs_right by lra.
    fold D. lra. }
  assert (Ha' : haversine_distance_m (mkCoord 0 1.1) (mkCoord 0 1) = 0.1 * D).
  { rewrite meridian_haversine by (rewrite Rabs_left; lra). rewrite Rabs_left by lra.
    fold D. lra. }
  assert (Hb : haversine_distance_m (mkCoord 0 0) (mkCoord 0 1.1) = 1.1 * D).
  { rewrite meridian_haversine by (rewrite Rabs_right; lra). rewrite Rabs_right by lra.
    fold D. lra. }
  assert (Hb' : haversine_distance_m (mkCoord 0 1.1) (mkCoord 0 0) = 1.1 * D).
  { rewrite meridian_haversine by (rewrite Rabs_left; lra). rewrite Rabs_left by lra.
    fold D. lra. }
  rewrite score_two_one by (rewrite ?Hdm, ?Ha, ?Ha', ?Hb, ?Hb'; lra).
  rewrite Hdm, Ha, Hb.
  rewrite Rmin_left, Rmax_right by lra.
  replace (0.2 * (0.1 * D) + 0.8 * (1.1 * D)) with (0.9 * D) by lra.
  rewrite !mul_div_same by lra.
  rewrite !min2_le1 by lra.
  replace ((1 - 0.1) * 100) with (IZR 90) by (simpl; lra). rewrite round_IZR.
  replace (0.55 * ((1 - 0.9) * 100) + 0.35 * IZR 90 + 0.10 * 0) with (IZR 37) by (simpl; lra).
  rewrite round_IZR. reflexivity.
Qed.

(** C1: for non-empty target and actual sets with a positive target
    diameter, the score is [round(0.55 * mhd_score + 0.35 * ordered +
    0.10 * iou)] with [mhd_score = 100 * (1 - min(d / diameter, 1))], [d] the
    90th percentile of the pooled directed nearest-point distances in both
    directions; [passed] is [score >= threshold]; the threshold of
    [validate] defaults to 45 when the environment variable is unset. *)
Theorem validate_algorithmic_blended (t a : list Coordinate) (threshold : Z) :
  t <> [] -> a <> [] -> 0 < diam t ->
  let d := np_percentile (directed_distances t a ++ directed_distances a t) 90 in
  let mhd_score := 100 * (1 - Rmin (d / diam t) 1) in
  let s := Py.round (0.55 * mhd_score + 0.35 * OS t a 50 + 0.10 * IOU t a 128 12) in
  score (VA t a threshold) = IZR s /\
  (passed (VA t a threshold) = true <-> (threshold <= s)%Z) /\
  VALIDATION_THRESHOLD None = 45%Z /\
  validate RandomState Random rng_sample draw_line None t a = VA t a 45.
Proof.
  intros Ht Ha Hd. cbv zeta.
  unfold validate. split; [|split; [|split; reflexivity]].
  - unfold _validate_algorithmic.
    destruct t as [|p ps]; [contradiction|]. destruct a as [|q qs]; [contradiction|].
    cbv beta iota zeta. destruct (Req_dec_T (diam (p :: ps)) 0); [lra|].
    cbn [score]. rewrite min2_Rmin. unfold _modified_hausdorff_distance. cbv zeta.
    rewrite (Rmult_comm (1 - _) 100). reflexivity.
  - unfold _validate_algorithmic.
    destruct t as [|p ps]; [contradiction|]. destruct a as [|q qs]; [contradiction|].
    cbv beta iota zeta. destruct (Req_dec_T (diam (p :: ps)) 0); [lra|].
    cbn [passed]. rewrite min2_Rmin. unfold _modified_hausdorff_distance. cbv zeta.
    rewrite Z.leb_le. rewrite (Rmult_comm (1 - _) 100). reflexivity.
Qed.

(** C2: if the target is empty, the actual set is empty, the target
    diameter is zero, or all target points are equal, the scorer returns
    score 0, not passed, with no metric in its reasoning. *)
Theorem validate_algorithmic_degenerate (t a : list Coordinate) (threshold : Z) :
  t = [] \/ a = [] \/ diam t = 0 \/ (forall p q, In p t -> In q t -> p = q) ->
  VA t a threshold = mkResult 0 false algorithmic EmptyPointSet \/
  VA t a threshold = mkResult 0 false algorithmic DegenerateShape.
Proof.
  intro H.
  assert (Hd : t = [] \/ a = [] \/ diam t = 0).
  { destruct H as [H|[H|[H|H]]]; auto. right. right. apply diameter_const. exact H. }
  unfold _validate_algorithmic.
  destruct t as [|p ps]; [left; reflexivity|]. destruct a as [|q qs]; [left; reflexivity|].
  destruct Hd as [E|[E|E]]; try discriminate.
  right. cbv beta iota zeta. destruct (Req_dec_T (diam (p :: ps)) 0); [reflexivity|contradiction].
Qed.

(** C6 (amended): identical target and actual sets with a positive target
    diameter score at least 90 and pass at the default threshold. *)
Theorem validate_identical_sets (P : list Coordinate) :
  0 < diam P ->
  90 <= score (validate RandomState Random rng_sample draw_line None P P) /\
  passed (validate RandomState Random rng_sample draw_line None P P) = true.
Proof.
  intro Hd. unfold validate, VALIDATION_THRESHOLD, _validate_algorithmic.
  destruct P as [|p ps]; [rewrite diameter_lt2 in Hd by (simpl; lia); lra|].
  cbv beta iota zeta. destruct (Req_dec_T (diam (p :: ps)) 0); [lra|].
  rewrite mhd_self, os_self by exact Hd.
  pose proof (iou_nonneg (p :: ps) (p :: ps) 128 12) as Hi.
  replace (Py.min2 (0 / diam (p :: ps)) 1) with 0
    by (unfold Rdiv; rewrite Rmult_0_l; unfold Py.min2; destruct (Rlt_dec 1 0); lra).
  match goal with |- context [Py.round ?x] =>
    assert (Hs : (90 <= Py.round x)%Z) by (apply round_ge; lra) end.
  cbn [score passed]. split.
  - apply IZR_le in Hs. exact Hs.
  - apply Z.leb_le. lia.
Qed.

(** C7 (amended): the score is monotone in each component. If two actual
    sets [a1] and [a2] are scored against the same target, and [a2] has a
    modified Hausdorff distance at least as large and an ordered-sampling
    score and an IoU score at most as large, then [a2] does not score
    higher than [a1]. *)
Theorem validate_score_monotone (t a1 a2 : list Coordinate) (threshold : Z) :
  t <> [] -> a1 <> [] -> a2 <> [] -> 0 < diam t ->
  _modified_hausdorff_distance t a1 90 <= _modified_hausdorff_distance t a2 90 ->
  OS t a2 50 <= OS t a1 50 ->
  IOU t a2 128 12 <= IOU t a1 128 12 ->
  score (VA t a2 threshold) <= score (VA t a1 threshold).
Proof.
  intros Ht H1 H2 Hd Hm Ho Hi. unfold _validate_algorithmic.
  destruct t as [|p ps]; [contradiction|].
  destruct a1 as [|q1 qs1]; [contradiction|]. destruct a2 as [|q2 qs2]; [contradiction|].
  cbv beta iota zeta. destruct (Req_dec_T (diam (p :: ps)) 0); [lra|].
  cbn [score]. apply IZR_le. apply round_mono.
  set (m1 := _modified_hausdorff_distance (p :: ps) (q1 :: qs1) 90) in *.
  set (m2 := _modified_hausdorff_distance (p :: ps) (q2 :: qs2) 90) in *.
  assert (Hq : m1 / diam (p :: ps) <= m2 / diam (p :: ps)).
  { unfold Rdiv. apply Rmult_le_compat_r; [left; apply Rinv_0_lt_compat; exact Hd|exact Hm]. }
  assert (Hmin : Py.min2 (m1 / diam (p :: ps)) 1 <= Py.min2 (m2 / diam (p :: ps)) 1).
  { unfold Py.min2. destruct (Rlt_dec 1 (m1 / diam (p :: ps)));
      destruct (Rlt_dec 1 (m2 / diam (p :: ps))); lra. }
  lra.
Qed.

(** C9: the scorer is reproducible. Its result does not depend on the
    state of the interpreter-global generator, which it leaves unchanged,
    and for more than 60 target points the diameter is the sampled maximum
    drawn from a generator freshly seeded with 42. *)
Theorem validate_reproducible (w1 w2 : RandomState) (t a : list Coordinate) (threshold : Z) :
  fst (validate_in_world RandomState Random rng_sample draw_line w1 t a threshold) =
  fst (validate_in_world RandomState Random rng_sample draw_line w2 t a threshold) /\
  snd (validate_in_world RandomState Random rng_sample draw_line w1 t a threshold) = w1 /\
  ((60 < length t)%nat -> diam t = sampled_max RandomState rng_sample (Random 42) t).
Proof.
  split; [reflexivity|]. split; [reflexivity|].
  intro H. unfold _compute_diameter. cbv zeta.
  destruct (Nat.ltb_spec (length t) 2); [lia|].
  destruct (Nat.leb_spec (length t) 60); [lia|reflexivity].
Qed.

End ScorerFacts.

Lemma environment_sample_range (r : Environment.RandomState) (n k j : nat) :
  In j (fst (Environment.rng_sample r n k)) -> (j < n)%nat.
Proof.
  unfold Environment.rng_sample. simpl. intro H.
  assert (H' : In j (seq 0 n)).
  { rewrite <- (firstn_skipn k (seq 0 n)). apply in_or_app. left. exact H. }
  apply in_seq in H'. lia.
Qed.

Lemma environment_meridian_diameter :
  _compute_diameter Environment.RandomState Environment.Random Environment.rng_sample
    [mkCoord 0 1; mkCoord 0 0] = EARTH_R * (PI / 180).
Proof.
  rewrite diameter_meridian by (try rewrite Rabs_left; lra).
  rewrite Rabs_left by lra. ring.
Qed.

Lemma validate_algorithmic_blended_witness :
  [mkCoord 0 1; mkCoord 0 0] <> [] /\ [mkCoord 0 0] <> [] /\
  0 < _compute_diameter Environment.RandomState Environment.Random Environment.rng_sample
        [mkCoord 0 1; mkCoord 0 0] /\
  VALIDATION_THRESHOLD None = 45%Z.
Proof.
  assert (Hd : 0 < _compute_diameter Environment.RandomState Environment.Random
                     Environment.rng_sample [mkCoord 0 1; mkCoord 0 0])
    by (rewrite environment_meridian_diameter; apply D_pos).
  split; [discriminate|]. split; [discriminate|]. split; [exact Hd|].
  exact (proj1 (proj2 (proj2 (validate_algorithmic_blended Environment.RandomState
    Environment.Random Environment.rng_sample Environment.draw_line
    [mkCoord 0 1; mkCoord 0 0] [mkCoord 0 0] 45 ltac:(discriminate) ltac:(discriminate) Hd)))).
Defined.

Lemma validate_algorithmic_degenerate_witness :
  ([] : list Coordinate) = [] /\
  (_validate_algorithmic Environment.RandomState Environment.Random Environment.rng_sample
     Environment.draw_line [] [mkCoord 0 0] 45 = mkResult 0 false algorithmic EmptyPointSet \/
   _validate_algorithmic Environment.RandomState Environment.Random Environment.rng_sample
     Environment.draw_line [] [mkCoord 0 0] 45 = mkResult 0 false algorithmic DegenerateShape).
Proof.
  split; [reflexivity|].
  apply (validate_algorithmic_degenerate Environment.RandomState Environment.Random
           Environment.rng_sample Environment.draw_line environment_sample_range).
  left. reflexivity.
Defined.

(** C6 (counterexample): a one-point set, as target and as actual, is
    degenerate (diameter 0): score 0, not passed. *)
Lemma validate_identical_single_point :
  validate Environment.RandomState Environment.Random Environment.rng_sample
    Environment.draw_line None [mkCoord 14.42 50.07] [mkCoord 14.42 50.07]
  = mkResult 0 false algorithmic DegenerateShape.
Proof.
  unfold validate, _validate_algorithmic. cbv beta iota zeta.
  rewrite diameter_lt2 by (simpl; lia).
  destruct (Req_dec_T 0 0); [reflexivity|lra].
Qed.

Lemma validate_identical_sets_witness :
  0 < _compute_diameter Environment.RandomState Environment.Random Environment.rng_sample
        [mkCoord 0 1; mkCoord 0 0] /\
  90 <= score (validate Environment.RandomState Environment.Random Environment.rng_sample
                 Environment.draw_line None [mkCoord 0 1; mkCoord 0 0] [mkCoord 0 1; mkCoord 0 0]).
Proof.
  assert (Hd : 0 < _compute_diameter Environment.RandomState Environment.Random
                     Environment.rng_sample [mkCoord 0 1; mkCoord 0 0])
    by (rewrite environment_meridian_diameter; apply D_pos).
  split; [exact Hd|].
  exact (proj1 (validate_identical_sets Environment.RandomState Environment.Random
    Environment.rng_sample Environment.draw_line [mkCoord 0 1; mkCoord 0 0] Hd)).
Defined.

(** C7 (counterexample): the target is the one-degree meridian segment
    [(0,1) -> (0,0)] and the actual set the single point [(0,0)], on the
    target. Translating the actual point 1.1 degrees north, to [(0, 1.1)],
    off the target, raises the score from 11 to 37. *)
Lemma validate_shift_raises_score :
  score (_validate_algorithmic Environment.RandomState Environment.Random Environment.rng_sample
           Environment.draw_line [mkCoord 0 1; mkCoord 0 0] [mkCoord 0 0] 45) = 11 /\
  score (_validate_algorithmic Environment.RandomState Environment.Random Environment.rng_sample
           Environment.draw_line [mkCoord 0 1; mkCoord 0 0] [mkCoord 0 1.1] 45) = 37 /\
  nearest_distance (mkCoord 0 0) [mkCoord 0 1; mkCoord 0 0] = 0 /\
  0 < nearest_distance (mkCoord 0 1.1) [mkCoord 0 1; mkCoord 0 0].
Proof.
  split; [apply score_meridian_at_0|]. split; [apply score_meridian_at_1_1|].
  split; [apply nearest_distance_self; right; left; reflexivity|].
  unfold nearest_distance. cbn [map]. unfold Py.min_of. cbn [fold_left].
  pose proof D_pos.
  rewrite !meridian_haversine by (apply Rabs_le; lra).
  rewrite Rabs_left, Rabs_left by lra. unfold Py.min2.
  destruct (Rlt_dec _ _); nra.
Qed.

(** The comparison at work: against the meridian outline [(0,1) -> (0,0)],
    the actual point [(0,-1)] has a larger modified Hausdorff distance
    (1.8 D against 0.8 D, D the metres in a degree) and a lower ordered-sampling
    score (0 against 100) than the point [(0,1)]; neither draws a line, so
    both IoU scores are 0. *)
Lemma validate_score_monotone_witness :
  [mkCoord 0 1; mkCoord 0 0] <> [] /\
  0 < _compute_diameter Environment.RandomState Environment.Random Environment.rng_sample
        [mkCoord 0 1; mkCoord 0 0] /\
  (_modified_hausdorff_distance [mkCoord 0 1; mkCoord 0 0] [mkCoord 0 1] 90
   < _modified_hausdorff_distance [mkCoord 0 1; mkCoord 0 0] [mkCoord 0 (-1)] 90) /\
  (_ordered_sampling_score Environment.RandomState Environment.Random Environment.rng_sample
     [mkCoord 0 1; mkCoord 0 0] [mkCoord 0 (-1)] 50
   < _ordered_sampling_score Environment.RandomState Environment.Random Environment.rng_sample
     [mkCoord 0 1; mkCoord 0 0] [mkCoord 0 1] 50) /\
  (_raster_iou_score Environment.draw_line [mkCoord 0 1; mkCoord 0 0] [mkCoord 0 (-1)] 128 12
   <= _raster_iou_score Environment.draw_line [mkCoord 0 1; mkCoord 0 0] [mkCoord 0 1] 128 12) /\
  score (_validate_algorithmic Environment.RandomState Environment.Random Environment.rng_sample
           Environment.draw_line [mkCoord 0 1; mkCoord 0 0] [mkCoord 0 (-1)] 45)
  <= score (_validate_algorithmic Environment.RandomState Environment.Random Environment.rng_sample
           Environment.draw_line [mkCoord 0 1; mkCoord 0 0] [mkCoord 0 1] 45).
Proof.
  pose proof D_pos as HD.
  assert (Hdm : _compute_diameter Environment.RandomState Environment.Random
                  Environment.rng_sample [mkCoord 0 1; mkCoord 0 0] = EARTH_R * (PI / 180))
    by exact environment_meridian_diameter.
  set (D := EARTH_R * (PI / 180)) in *.
  assert (Hd : 0 < _compute_diameter Environment.RandomState Environment.Random
                     Environment.rng_sample [mkCoord 0 1; mkCoord 0 0]) by (rewrite Hdm; exact HD).
  assert (H11 : haversine_distance_m (mkCoord 0 1) (mkCoord 0 1) = 0) by apply haversine_self.
  assert (H01 : haversine_distance_m (mkCoord 0 0) (mkCoord 0 1) = D).
  { rewrite meridian_haversine by (rewrite Rabs_right; lra). rewrite Rabs_right by lra. unfold D. ring. }
  assert (H10 : haversine_distance_m (mkCoord 0 1) (mkCoord 0 0) = D).
  { rewrite meridian_haversine by (rewrite Rabs_left; lra). rewrite Rabs_left by lra. unfold D. ring. }
  assert (H1m : haversine_distance_m (mkCoord 0 1) (mkCoord 0 (-1)) = 2 * D).
  { rewrite meridian_haversine by (rewrite Rabs_left; lra). rewrite Rabs_left by lra. unfold D. ring. }
  assert (Hm1 : haversine_distance_m (mkCoord 0 (-1)) (mkCoord 0 1) = 2 * D).
  { rewrite meridian_haversine by (rewrite Rabs_right; lra). rewrite Rabs_right by lra. unfold D. ring. }
  assert (H0m : haversine_distance_m (mkCoord 0 0) (mkCoord 0 (-1)) = D).
  { rewrite meridian_haversine by (rewrite Rabs_left; lra). rewrite Rabs_left by lra. unfold D. ring. }
  assert (Hm0 : haversine_distance_m (mkCoord 0 (-1)) (mkCoord 0 0) = D).
  { rewrite meridian_haversine by (rewrite Rabs_right; lra). rewrite Rabs_right by lra. unfold D. ring. }
  assert (Hmhd : _modified_hausdorff_distance [mkCoord 0 1; mkCoord 0 0] [mkCoord 0 1] 90
                 < _modified_hausdorff_distance [mkCoord 0 1; mkCoord 0 0] [mkCoord 0 (-1)] 90).
  { rewrite !mhd_single by (rewrite ?H11, ?H01, ?H10, ?H1m, ?Hm1, ?H0m, ?Hm0; reflexivity).
    rewrite H11, H01, H1m, H0m.
    rewrite Rmin_left, Rmax_right, Rmin_right, Rmax_left by lra. lra. }
  assert (Hos : _ordered_sampling_score Environment.RandomState Environment.Random
                  Environment.rng_sample [mkCoord 0 1; mkCoord 0 0] [mkCoord 0 (-1)] 50
                < _ordered_sampling_score Environment.RandomState Environment.Random
                  Environment.rng_sample [mkCoord 0 1; mkCoord 0 0] [mkCoord 0 1] 50).
  { rewrite !os_single by (try rewrite Hdm; try (simpl; lia); lra).
    cbn [hd]. rewrite Hdm, H11, H1m.
    replace (0 / D) with 0 by (field; lra).
    replace (2 * D / D) with 2 by (field; lra).
    rewrite (min2_le1 0) by lra.
    replace (Py.min2 2 1) with 1 by (unfold Py.min2; destruct (Rlt_dec 1 2); lra).
    replace ((1 - 1) * 100) with (IZR 0) by (simpl; lra).
    replace ((1 - 0) * 100) with (IZR 100) by (simpl; lra).
    rewrite !round_IZR. apply IZR_lt. lia. }
  assert (Hiou : _raster_iou_score Environment.draw_line [mkCoord 0 1; mkCoord 0 0] [mkCoord 0 (-1)] 128 12
                 <= _raster_iou_score Environment.draw_line [mkCoord 0 1; mkCoord 0 0] [mkCoord 0 1] 128 12).
  { rewrite !iou_short_actual by (simpl; lia). apply Rle_refl. }
  split; [discriminate|]. split; [exact Hd|]. split; [exact Hmhd|].
  split; [exact Hos|]. split; [exact Hiou|].
  apply (validate_score_monotone Environment.RandomState Environment.Random
           Environment.rng_sample Environment.draw_line); try discriminate.
  - exact Hd.
  - left. exact Hmhd.
  - left. exact Hos.
  - exact Hiou.
Defined.

End ValidatorFacts.

Module GeneratorFacts.

Import ShapeGenerator.

Local Abbreviation desc := (fun x y : nat * R => snd y <= snd x).

Lemma insert_desc_perm (x : nat * R) (l : list (nat * R)) :
  Permutation (insert_desc x l) (x :: l).
Proof.
  induction l as [|y l IH]; simpl; [reflexivity|].
  destruct (Rlt_dec (snd y) (snd x)); [reflexivity|].
  rewrite IH. apply perm_swap.
Qed.

Lemma fold_insert_perm (l acc : list (nat * R)) :
  Permutation (fold_left (fun acc x => insert_desc x acc) l acc) (l ++ acc).
Proof.
  revert acc. induction l as [|x l IH]; intro acc; simpl; [reflexivity|].
  rewrite IH, insert_desc_perm. symmetry. apply Permutation_middle.
Qed.

Lemma sort_desc_perm (l : list (nat * R)) : Permutation (sort_desc l) l.
Proof. unfold sort_desc. rewrite fold_insert_perm, app_nil_r. reflexivity. Qed.

Lemma insert_desc_sorted (x : nat * R) (l : list (nat * R)) :
  Sorted desc l -> Sorted desc (insert_desc x l).
Proof.
  induction l as [|y l IH]; intro Hs; simpl; [repeat constructor|].
  destruct (Rlt_dec (snd y) (snd x)) as [Hlt|Hge].
  - constructor; [exact Hs|]. constructor. simpl. lra.
  - apply Sorted_inv in Hs. destruct Hs as [Hs Hh].
    constructor; [exact (IH Hs)|].
    destruct l as [|z l']; simpl.
    + constructor. simpl. apply Rnot_lt_le in Hge. exact Hge.
    + destruct (Rlt_dec (snd z) (snd x)); constructor; simpl.
      * apply Rnot_lt_le in Hge. exact Hge.
      * apply HdRel_inv in Hh. exact Hh.
Qed.

Lemma sort_desc_sorted (l : list (nat * R)) : StronglySorted desc (sort_desc l).
Proof.
  apply Sorted_StronglySorted; [intros x y z H1 H2; simpl in *; lra|].
  unfold sort_desc.
  assert (G : forall acc, Sorted desc acc ->
            Sorted desc (fold_left (fun acc x => insert_desc x acc) l acc)).
  { induction l as [|x l IH]; intros acc Hs; simpl; [exact Hs|].
    apply IH. apply insert_desc_sorted. exact Hs. }
  apply G. constructor.
Qed.

Lemma StronglySorted_app_rel {A : Type} (Rel : A -> A -> Prop) (l1 l2 : list A) :
  StronglySorted Rel (l1 ++ l2) -> forall x y, In x l1 -> In y l2 -> Rel x y.
Proof.
  induction l1 as [|a l1 IH]; intros Hs x y Hx Hy; [destruct Hx|].
  simpl in Hs. apply StronglySorted_inv in Hs. destruct Hs as [Hs Hf].
  destruct Hx as [<-|Hx].
  - rewrite Forall_forall in Hf. apply Hf. apply in_or_app. right. exact Hy.
  - exact (IH Hs x y Hx Hy).
Qed.

Lemma in_firstn_nat {A : Type} (k : nat) (l : list A) (x : A) : In x (firstn k l) -> In x l.
Proof.
  intro H. rewrite <- (firstn_skipn k l). apply in_or_app. left. exact H.
Qed.

Lemma mem_In (i : nat) (s : list nat) : mem i s = true <-> In i s.
Proof.
  unfold mem. rewrite existsb_exists. split.
  - intros [j [Hj E]]. apply Nat.eqb_eq in E. subst j. exact Hj.
  - intro H. exists i. split; [exact H|apply Nat.eqb_refl].
Qed.

Lemma NoDup_firstn_nat {A : Type} (k : nat) (l : list A) : NoDup l -> NoDup (firstn k l).
Proof.
  intro H. rewrite <- (firstn_skipn k l) in H. exact (NoDup_app_remove_r _ _ H).
Qed.

Lemma length_flat_map_opt {A B : Type} (f : A -> B) (g : A -> B) (p : A -> bool) (l : list A) :
  length (flat_map (fun i => if p i then [f i; g i] else [g i]) l)
  = (length l + length (filter p l))%nat.
Proof.
  induction l as [|a l IH]; simpl; [reflexivity|].
  rewrite length_app, IH. destruct (p a); simpl; lia.
Qed.

Lemma filter_mem_length (m : nat) (sel : list nat) :
  NoDup sel -> (forall i, In i sel -> (i < m)%nat) ->
  length (filter (fun i => mem i sel) (seq 0 m)) = length sel.
Proof.
  intros Hnd Hlt. apply Nat.le_antisymm.
  - apply NoDup_incl_length.
    + apply NoDup_filter, seq_NoDup.
    + intros i Hi. apply filter_In in Hi. apply mem_In. exact (proj2 Hi).
  - apply NoDup_incl_length; [exact Hnd|].
    intros i Hi. apply filter_In. split.
    + apply in_seq. specialize (Hlt i Hi). lia.
    + apply mem_In. exact Hi.
Qed.

(** C8: for an outline of at least two points and any actual route, the
    tightening step ranks the [m = length target - 1] segments by the
    distance from their midpoint to the closest actual point (0 when there
    is no actual point) and selects [max 1 (m / 2)] distinct segments, every
    selected one deviating at least as much as every unselected one; the
    output is the first point followed, for each segment in order, by the
    segment's midpoint when it is selected and then its end point, so its
    length is the input length plus the number of selected segments. *)
Theorem tighten_control_points_spec (target_points actual_points : list Coordinate) :
  (2 <= length target_points)%nat ->
  let m := (length target_points - 1)%nat in
  let dev := segment_deviation target_points actual_points in
  (forall i, actual_points = [] -> dev i = 0) /\
  (forall i, actual_points <> [] ->
     let mid := midpoint (nth i target_points (mkCoord 0 0))
                         (nth (S i) target_points (mkCoord 0 0)) in
     In (dev i) (map (haversine_distance_m mid) actual_points) /\
     forall ap, In ap actual_points -> dev i <= haversine_distance_m mid ap) /\
  exists sel : list nat,
    length sel = Nat.max 1 (m / 2) /\
    NoDup sel /\
    (forall i, In i sel -> (i < m)%nat) /\
    (forall i j, In i sel -> (j < m)%nat -> ~ In j sel -> dev j <= dev i) /\
    _tighten_control_points target_points actual_points =
      hd (mkCoord 0 0) target_points ::
      flat_map (fun i =>
          let a := nth i target_points (mkCoord 0 0) in
          let b := nth (S i) target_points (mkCoord 0 0) in
          if mem i sel then [midpoint a b; b] else [b])
        (seq 0 m) /\
    length (_tighten_control_points target_points actual_points)
      = (length target_points + length sel)%nat.
Proof.
  intros Hlen m dev.
  split.
  { intros i Ha. subst dev. unfold segment_deviation. rewrite Ha. reflexivity. }
  split.
  { intros i Ha mid. subst dev. unfold segment_deviation. cbv zeta. fold mid.
    destruct actual_points as [|ap aps]; [contradiction|].
    cbn [map]. split.
    - apply ValidatorFacts.min_of_in.
    - intros q Hq. apply StreetMapperFacts.min_of_le.
      change (In (haversine_distance_m mid q) (map (haversine_distance_m mid) (ap :: aps))).
      apply in_map. exact Hq. }
  set (devs := map (fun i => (i, dev i)) (seq 0 m)).
  set (sorted := sort_desc devs).
  set (k := Nat.max 1 (length devs / 2)).
  set (sel := map fst (firstn k sorted)).
  assert (Hdl : length devs = m) by (subst devs; rewrite length_map, length_seq; reflexivity).
  assert (Hm : (1 <= m)%nat) by (subst m; lia).
  assert (Hperm : Permutation sorted devs) by apply sort_desc_perm.
  assert (Hfst : map fst devs = seq 0 m)
    by (subst devs; rewrite map_map; simpl; apply map_id).
  assert (Hsel_nd : NoDup sel).
  { subst sel. rewrite <- firstn_map. apply NoDup_firstn_nat.
    apply (Permutation_NoDup (l := map fst devs)).
    - symmetry. apply Permutation_map. exact Hperm.
    - rewrite Hfst. apply seq_NoDup. }
  assert (Hsel_lt : forall i, In i sel -> (i < m)%nat).
  { intros i Hi. subst sel. apply in_map_iff in Hi. destruct Hi as [[j v] [Ej Hj]].
    simpl in Ej. subst j. apply in_firstn_nat in Hj.
    apply (Permutation_in _ Hperm) in Hj. subst devs.
    apply in_map_iff in Hj. destruct Hj as [j [Ej Hj]]. injection Ej as <- _.
    apply in_seq in Hj. lia. }
  assert (Hpair : forall p, In p sorted -> snd p = dev (fst p)).
  { intros [j v] Hp. apply (Permutation_in _ Hperm) in Hp. subst devs.
    apply in_map_iff in Hp. destruct Hp as [j' [Ej _]]. injection Ej as <- <-.
    reflexivity. }
  exists sel. split; [|split; [exact Hsel_nd|split; [exact Hsel_lt|split]]].
  - subst sel. rewrite length_map, length_firstn.
    rewrite (Permutation_length Hperm), Hdl. subst k. rewrite Hdl.
    apply Nat.min_l. apply Nat.max_lub; [exact Hm|apply Nat.Div0.div_le_upper_bound; lia].
  - intros i j Hi Hj Hnj.
    assert (Hjs : In (j, dev j) sorted).
    { apply (Permutation_in _ (Permutation_sym Hperm)). subst devs.
      apply (in_map (fun i => (i, dev i))). apply in_seq. lia. }
    rewrite <- (firstn_skipn k sorted) in Hjs.
    apply in_app_or in Hjs. destruct Hjs as [Hjs|Hjs].
    + exfalso. apply Hnj. subst sel. change j with (fst (j, dev j)). apply in_map. exact Hjs.
    + subst sel. apply in_map_iff in Hi. destruct Hi as [[i' v] [Ei Hiv]].
      simpl in Ei. subst i'.
      pose proof (sort_desc_sorted devs) as Hss. fold sorted in Hss.
      rewrite <- (firstn_skipn k sorted) in Hss.
      pose proof (StronglySorted_app_rel _ _ _ Hss _ _ Hiv Hjs) as Hle. simpl in Hle.
      pose proof (Hpair (i, v) (in_firstn_nat _ _ _ Hiv)) as Hv. simpl in Hv.
      rewrite <- Hv. exact Hle.
  - assert (Hout : _tighten_control_points target_points actual_points =
      hd (mkCoord 0 0) target_points ::
      flat_map (fun i =>
          let a := nth i target_points (mkCoord 0 0) in
          let b := nth (S i) target_points (mkCoord 0 0) in
          if mem i sel then [midpoint a b; b] else [b])
        (seq 0 m)).
    { unfold _tighten_control_points.
      destruct (length target_points <? 2)%nat eqn:E;
        [apply Nat.ltb_lt in E; lia|reflexivity]. }
    split; [exact Hout|].
    rewrite Hout. cbn [length]. cbv zeta.
    rewrite (length_flat_map_opt
      (fun i => midpoint (nth i target_points (mkCoord 0 0)) (nth (S i) target_points (mkCoord 0 0)))
      (fun i => nth (S i) target_points (mkCoord 0 0)) (fun i => mem i sel)).
    rewrite length_seq, (filter_mem_length m sel Hsel_nd Hsel_lt). subst m. lia.
Qed.

Lemma tighten_control_points_spec_witness :
  (2 <= length [mkCoord 0 0; mkCoord 0 1; mkCoord 1 1])%nat /\
  let target_points := [mkCoord 0 0; mkCoord 0 1; mkCoord 1 1] in
  let actual_points := [mkCoord 0 0] in
  let m := (length target_points - 1)%nat in
  let dev := segment_deviation target_points actual_points in
  (forall i, actual_points = [] -> dev i = 0) /\
  (forall i, actual_points <> [] ->
     let mid := midpoint (nth i target_points (mkCoord 0 0))
                         (nth (S i) target_points (mkCoord 0 0)) in
     In (dev i) (map (haversine_distance_m mid) actual_points) /\
     forall ap, In ap actual_points -> dev i <= haversine_distance_m mid ap) /\
  exists sel : list nat,
    length sel = Nat.max 1 (m / 2) /\
    NoDup sel /\
    (forall i, In i sel -> (i < m)%nat) /\
    (forall i j, In i sel -> (j < m)%nat -> ~ In j sel -> dev j <= dev i) /\
    _tighten_control_points target_points actual_points =
      hd (mkCoord 0 0) target_points ::
      flat_map (fun i =>
          let a := nth i target_points (mkCoord 0 0) in
          let b := nth (S i) target_points (mkCoord 0 0) in
          if mem i sel then [midpoint a b; b] else [b])
        (seq 0 m) /\
    length (_tighten_control_points target_points actual_points)
      = (length target_points + length sel)%nat.
Proof.
  split; [simpl; lia|].
  exact (tighten_control_points_spec [mkCoord 0 0; mkCoord 0 1; mkCoord 1 1] [mkCoord 0 0]
           ltac:(simpl; lia)).
Defined.

End GeneratorFacts.
(** ** Further properties of the route-shaping code *)

Module RouteFacts.

Import StreetMapper Measures GeodesyFacts StreetMapperFacts.

Lemma haversine_sym (a b : Coordinate) :
  haversine_distance_m a b = haversine_distance_m b a.
Proof.
  unfold haversine_distance_m. cbv zeta.
  assert (Hp : Py.radians (lat a - lat b) / 2 = - (Py.radians (lat b - lat a) / 2))
    by (unfold Py.radians; field).
  assert (Hl : Py.radians (lng a - lng b) / 2 = - (Py.radians (lng b - lng a) / 2))
    by (unfold Py.radians; field).
  rewrite Hp, Hl, !sin_neg.
  assert (E : forall u : R, (- u) ^ 2 = u ^ 2) by (intros; ring).
  rewrite !E.
  rewrite (Rmult_comm (cos (Py.radians (lat b))) (cos (Py.radians (lat a)))).
  reflexivity.
Qed.

Lemma round_near (x : R) : Rabs (IZR (Py.round x) - x) <= 1 / 2.
Proof.
  pose proof (base_Int_part x) as [H1 H2].
  unfold Py.round. cbv zeta.
  destruct (Rlt_dec (x - IZR (Int_part x)) (1 / 2));
    [|destruct (Rlt_dec (1 / 2) (x - IZR (Int_part x)));
      [|destruct (Z.even (Int_part x))]];
    try rewrite plus_IZR; apply Rabs_le; lra.
Qed.

Lemma round_zero (x : R) : 0 <= x < 1 / 2 -> Py.round x = 0%Z.
Proof.
  intro H. unfold Py.round.
  assert (E : Int_part x = 0%Z) by (apply Int_part_eq; simpl; lra).
  rewrite E. cbv zeta. destruct (Rlt_dec (x - IZR 0) (1 / 2)); [reflexivity|simpl in *; lra].
Qed.

Lemma fold_sum_seq (g : nat -> R) (m k : nat) (acc : R) :
  fold_left (fun t i => t + g i) (seq k m) acc
  = acc + fold_right (fun i s => g i + s) 0 (seq k m).
Proof.
  revert k acc. induction m as [|m IH]; intros k acc; simpl; [ring|].
  rewrite IH. ring.
Qed.

Lemma fold_right_map_S (f : nat -> R -> R) (l : list nat) :
  fold_right f 0 (map S l) = fold_right (fun i s => f (S i) s) 0 l.
Proof. induction l as [|i l IH]; simpl; [reflexivity|rewrite IH; reflexivity]. Qed.

Lemma route_length_nth (points : list Coordinate) :
  fold_right (fun i s => haversine_distance_m (nth i points origin) (nth (S i) points origin) + s)
    0 (seq 0 (length points - 1)) = route_length points.
Proof.
  induction points as [|p rest IH]; [reflexivity|].
  destruct rest as [|q rest']; [reflexivity|].
  cbn [length]. replace (S (S (length rest')) - 1)%nat with (S (length rest')) by lia.
  cbn [seq fold_right nth]. rewrite <- seq_shift, fold_right_map_S.
  change (route_length (p :: q :: rest')) with
    (haversine_distance_m p q + route_length (q :: rest')).
  rewrite <- IH. cbn [length]. replace (S (length rest') - 1)%nat with (length rest') by lia.
  reflexivity.
Qed.

Lemma estimate_route_length (points : list Coordinate) :
  estimate_distance_km points = Py.round1 (route_length points / 1000).
Proof.
  unfold estimate_distance_km.
  rewrite (fold_sum_seq (fun i => haversine_distance_m (nth i points origin)
                                   (nth (S i) points origin))).
  rewrite route_length_nth, Rplus_0_l. reflexivity.
Qed.

Lemma route_length_nonneg (points : list Coordinate) : 0 <= route_length points.
Proof.
  induction points as [|p rest IH]; [simpl; lra|].
  destruct rest as [|q rest']; [simpl; lra|].
  change (route_length (p :: q :: rest')) with
    (haversine_distance_m p q + route_length (q :: rest')).
  pose proof (haversine_nonneg p q). lra.
Qed.

Lemma route_length_snoc (l : list Coordinate) (x : Coordinate) :
  route_length (l ++ [x]) =
  route_length l + match l with [] => 0 | _ => haversine_distance_m (last l x) x end.
Proof.
  induction l as [|p rest IH]; [simpl; ring|].
  destruct rest as [|q rest']; [simpl; ring|].
  change ((p :: q :: rest') ++ [x]) with (p :: ((q :: rest') ++ [x])).
  change (route_length (p :: (q :: rest') ++ [x])) with
    (haversine_distance_m p q + route_length ((q :: rest') ++ [x])).
  rewrite IH.
  change (route_length (p :: q :: rest')) with
    (haversine_distance_m p q + route_length (q :: rest')).
  change (last (p :: q :: rest') x) with (last (q :: rest') x). ring.
Qed.

Lemma last_rev_hd (l : list Coordinate) (x : Coordinate) :
  l <> [] -> last (rev l) x = hd x l.
Proof.
  intro H. destruct l as [|p l]; [contradiction|].
  simpl. rewrite last_last. reflexivity.
Qed.

Lemma route_length_rev (l : list Coordinate) : route_length (rev l) = route_length l.
Proof.
  induction l as [|x l IH]; [reflexivity|].
  simpl rev. rewrite route_length_snoc, IH.
  destruct l as [|y l']; [simpl; ring|].
  assert (Hne : rev (y :: l') <> []).
  { intro E. apply (f_equal (@length Coordinate)) in E. rewrite length_rev in E.
    simpl in E. lia. }
  destruct (rev (y :: l')) as [|z zs] eqn:Er; [contradiction|].
  rewrite <- Er, last_rev_hd by discriminate. simpl hd.
  change (route_length (x :: y :: l')) with
    (haversine_distance_m x y + route_length (y :: l')).
  rewrite haversine_sym. ring.
Qed.

(** [estimate_distance_km] is the route length in km rounded to one decimal:
    never negative, within 0.05 km of the exact length, [0.0] for a route
    shorter than 50 m (in particular for fewer than two points), at least
    [0.1] for a route longer than 50 m, and the same for the route walked
    backwards. *)
Theorem estimate_distance_km_spec (points : list Coordinate) :
  0 <= estimate_distance_km points /\
  Rabs (estimate_distance_km points - route_length points / 1000) <= 0.05 /\
  (route_length points < 50 -> estimate_distance_km points = 0) /\
  (50 < route_length points -> 0.1 <= estimate_distance_km points) /\
  ((length points < 2)%nat -> estimate_distance_km points = 0) /\
  estimate_distance_km (rev points) = estimate_distance_km points.
Proof.
  pose proof (route_length_nonneg points) as Hnn.
  rewrite !estimate_route_length, route_length_rev. unfold Py.round1.
  set (L := route_length points) in *.
  pose proof (round_near (L / 1000 * 10)) as Hn.
  assert (Hn' : - (1 / 2) <= IZR (Py.round (L / 1000 * 10)) - L / 1000 * 10 <= 1 / 2)
    by (revert Hn; unfold Rabs; destruct (Rcase_abs _); intro; split; lra).
  clear Hn.
  assert (H0 : L < 50 -> Py.round (L / 1000 * 10) = 0%Z)
    by (intro; apply round_zero; lra).
  split; [|split; [|split; [|split; [|split]]]].
  - destruct (Z_lt_le_dec (Py.round (L / 1000 * 10)) 0) as [Hz|Hz].
    + assert (Hz' : (Py.round (L / 1000 * 10) <= -1)%Z) by lia.
      apply IZR_le in Hz'. lra.
    + apply IZR_le in Hz. lra.
  - apply Rabs_le. lra.
  - intro H. rewrite (H0 H). lra.
  - intro H.
    destruct (Z_lt_le_dec (Py.round (L / 1000 * 10)) 1) as [Hz|Hz].
    + apply Z.lt_le_pred in Hz. simpl in Hz. apply IZR_le in Hz. lra.
    + apply IZR_le in Hz. lra.
  - intro H. assert (HL : L = 0).
    { unfold L. destruct points as [|p [|q r]]; [reflexivity|reflexivity|simpl in H; lia]. }
    rewrite H0 by lra. lra.
  - reflexivity.
Qed.

Lemma fmod_360_range (x : R) : 0 <= Py.fmod x 360 < 360.
Proof.
  unfold Py.fmod. pose proof (base_Int_part (x / 360)) as [H1 H2].
  assert (E : x = 360 * (x / 360)) by field.
  split; lra.
Qed.

(** A bearing is in [0, 360) degrees, and the bearing change [deduplicate]
    tests is in [0, 180] degrees. *)
Theorem bearing_angle_range (a b prev p next_p : Coordinate) :
  0 <= _bearing_deg a b < 360 /\ 0 <= angle_change prev p next_p <= 180.
Proof.
  split; [apply fmod_360_range|].
  unfold angle_change. cbv zeta.
  pose proof (fmod_360_range (Py.degrees (Py.atan2
    (sin (Py.radians (lng p - lng prev)) * cos (Py.radians (lat p)))
    (cos (Py.radians (lat prev)) * sin (Py.radians (lat p)) -
     sin (Py.radians (lat prev)) * cos (Py.radians (lat p)) *
     cos (Py.radians (lng p - lng prev)))))) as H1.
  pose proof (fmod_360_range (Py.degrees (Py.atan2
    (sin (Py.radians (lng next_p - lng p)) * cos (Py.radians (lat next_p)))
    (cos (Py.radians (lat p)) * sin (Py.radians (lat next_p)) -
     sin (Py.radians (lat p)) * cos (Py.radians (lat next_p)) *
     cos (Py.radians (lng next_p - lng p)))))) as H2.
  unfold _bearing_deg. cbv zeta.
  set (u := Py.fmod _ 360) in H1 |- *. set (v := Py.fmod _ 360) in H2 |- *.
  assert (Ha : 0 <= Rabs (v - u) < 360)
    by (split; [apply Rabs_pos|]; unfold Rabs; destruct (Rcase_abs _); lra).
  destruct (Rlt_dec 180 (Rabs (v - u))); lra.
Qed.

Lemma subseq_nil_l {A : Type} (l : list A) : subseq [] l.
Proof. induction l; constructor; assumption. Qed.

Lemma subseq_refl {A : Type} (l : list A) : subseq l l.
Proof. induction l; [constructor|apply subseq_take; assumption]. Qed.

Lemma subseq_app {A : Type} (a b c d : list A) :
  subseq a b -> subseq c d -> subseq (a ++ c) (b ++ d).
Proof.
  intros H1 H2. induction H1; simpl;
    [exact H2|apply subseq_skip; assumption|apply subseq_take; assumption].
Qed.

Lemma subseq_drop_last {A : Type} (xs : list A) (x d : A) : forall l,
  subseq l (xs ++ [x]) -> (l = [] \/ last l d <> x) -> subseq l xs.
Proof.
  induction xs as [|y xs IH]; intros l Hs Hc.
  - simpl in Hs. inversion Hs; subst.
    + inversion H1; subst. constructor.
    + inversion H1; subst. destruct Hc as [Hc|Hc]; [discriminate|simpl in Hc; congruence].
  - simpl in Hs. inversion Hs; subst.
    + apply subseq_skip. exact (IH l H1 Hc).
    + apply subseq_take. destruct l0 as [|z l0]; [apply subseq_nil_l|].
      apply IH; [exact H1|]. right. destruct Hc as [Hc|Hc]; [discriminate|].
      intro E. apply Hc. exact E.
Qed.

Lemma dedup_loop_subseq (md : R) (rest : list Coordinate) : forall prev,
  subseq (dedup_loop md prev rest) rest.
Proof.
  induction rest as [|p rest IH]; intro prev; [constructor|].
  simpl. destruct (Rle_dec md (haversine_distance_m prev p)); [apply subseq_take; apply IH|].
  destruct rest as [|next_p rest']; [apply subseq_skip; apply IH|].
  destruct (Rlt_dec 20 (angle_change prev p (next_p)));
    [apply subseq_take|apply subseq_skip]; apply IH.
Qed.

Lemma densify_loop_subseq (md : R) (rest : list Coordinate) : forall a,
  subseq rest (densify_loop md a rest).
Proof.
  induction rest as [|b rest IH]; intro a; [constructor|].
  simpl. unfold densify_segment. rewrite <- app_assoc.
  apply (subseq_app [] _ (b :: rest)); [apply subseq_nil_l|].
  simpl. apply subseq_take. apply IH.
Qed.

(** [densify] only inserts points: its input is a subsequence of its
    output. [deduplicate] only removes points: its output is a subsequence
    of its input. *)
Theorem densify_deduplicate_subseq (points : list Coordinate) (md : R) :
  subseq points (densify points md) /\ subseq (deduplicate points md) points.
Proof.
  split.
  - destruct points as [|p0 [|p1 rest]]; try apply subseq_refl.
    unfold densify. apply subseq_take. apply densify_loop_subseq.
  - destruct points as [|p0 [|p1 rest]]; try apply subseq_refl.
    unfold deduplicate.
    set (L := dedup_loop md p0 (p1 :: rest)).
    pose proof (dedup_loop_subseq md (p1 :: rest) p0) as Hs. fold L in Hs.
    destruct (coord_eq_dec (last (p0 :: L) p0) (last (p0 :: p1 :: rest) p0)) as [_|Hne].
    + apply subseq_take. exact Hs.
    + change ((p0 :: L) ++ [last (p0 :: p1 :: rest) p0])
        with (p0 :: (L ++ [last (p0 :: p1 :: rest) p0])).
      apply subseq_take.
      assert (Hr : p1 :: rest <> []) by discriminate.
      change (last (p0 :: p1 :: rest) p0) with (last (p1 :: rest) p0) in Hne |- *.
      pose proof (app_removelast_last p0 Hr) as Er.
      set (x := last (p1 :: rest) p0) in *. set (xs := removelast (p1 :: rest)) in *.
      rewrite Er in Hs |- *.
      apply subseq_app; [|apply subseq_refl].
      apply (subseq_drop_last xs x p0); [exact Hs|].
      destruct L as [|z L']; [left; reflexivity|right].
      intro E. apply Hne. exact E.
Qed.

Lemma or_else_pos (x : R) : 0 <= x -> 0 < Py.or_else x 1e-6.
Proof. intro H. unfold Py.or_else. destruct (Req_dec_T x 0); lra. Qed.

(** [scale_to_bbox] preserves the aspect ratio: for a target box of positive
    width and height and a padding below one half, its output is its input
    under one scaling by a positive factor [k] on both axes, followed by a
    translation. *)
Theorem scale_to_bbox_similarity (points : list Coordinate) (bbox : BoundingBox)
    (padding_pct : R) :
  0 < width_deg bbox -> 0 < height_deg bbox -> 0 <= padding_pct < 1 / 2 ->
  exists k c_lng c_lat, 0 < k /\
    scale_to_bbox points bbox padding_pct =
    map (fun p => mkCoord (c_lng + k * lng p) (c_lat + k * lat p)) points.
Proof.
  intros Hw Hh Hp.
  destruct points as [|p0 ps]; [exists 1, 0, 0; split; [lra|reflexivity]|].
  unfold scale_to_bbox. cbv zeta.
  set (smin := Py.min_of (lng p0) (map lng ps)).
  set (smax := Py.max_of (lng p0) (map lng ps)).
  set (tmin := Py.min_of (lat p0) (map lat ps)).
  set (tmax := Py.max_of (lat p0) (map lat ps)).
  assert (H1 : smin <= smax).
  { apply (Rle_trans _ (lng p0)); [apply min_of_le|apply max_of_ge]; left; reflexivity. }
  assert (H2 : tmin <= tmax).
  { apply (Rle_trans _ (lat p0)); [apply min_of_le|apply max_of_ge]; left; reflexivity. }
  pose proof (or_else_pos (smax - smin) ltac:(lra)) as Hsw.
  pose proof (or_else_pos (tmax - tmin) ltac:(lra)) as Hsh.
  set (sw := Py.or_else (smax - smin) 1e-6) in *.
  set (sh := Py.or_else (tmax - tmin) 1e-6) in *.
  set (k := Py.min2 ((width_deg bbox - 2 * (width_deg bbox * padding_pct)) / sw)
                    ((height_deg bbox - 2 * (height_deg bbox * padding_pct)) / sh)).
  exists k, ((min_lng bbox + max_lng bbox) / 2 - (smin + smax) / 2 * k),
         ((min_lat bbox + max_lat bbox) / 2 - (tmin + tmax) / 2 * k).
  split.
  - unfold k, Py.min2.
    assert (0 < (width_deg bbox - 2 * (width_deg bbox * padding_pct)) / sw)
      by (apply Rdiv_lt_0_compat; nra).
    assert (0 < (height_deg bbox - 2 * (height_deg bbox * padding_pct)) / sh)
      by (apply Rdiv_lt_0_compat; nra).
    destruct (Rlt_dec _ _); assumption.
  - apply map_ext. intro p. f_equal; ring.
Qed.

Lemma scale_to_bbox_similarity_witness :
  0 < width_deg (mkBBox 0 0 1 1) /\ 0 < height_deg (mkBBox 0 0 1 1) /\ 0 <= 0.1 < 1 / 2 /\
  exists k c_lng c_lat, 0 < k /\
    scale_to_bbox [mkCoord 0 0; mkCoord 1 2] (mkBBox 0 0 1 1) 0.1 =
    map (fun p => mkCoord (c_lng + k * lng p) (c_lat + k * lat p)) [mkCoord 0 0; mkCoord 1 2].
Proof.
  split; [unfold width_deg; simpl; lra|]. split; [unfold height_deg; simpl; lra|].
  split; [lra|].
  apply scale_to_bbox_similarity; unfold width_deg, height_deg; simpl; lra.
Defined.

End RouteFacts.

(** ** Further properties of the scoring code *)

Module ScoreFacts.

Import StreetMapper ShapeValidator GeodesyFacts StreetMapperFacts ValidatorFacts RouteFacts.

Lemma fold_left_none {A B : Type} (f : option B -> A -> option B) (l : list A) :
  (forall x, f None x = None) -> fold_left f l None = None.
Proof. intro H. induction l as [|x l IH]; [reflexivity|simpl; rewrite H; exact IH]. Qed.

Lemma directed_hd_some (src tgt : list Coordinate) : forall a,
  tgt <> [] ->
  fold_left (fun acc s =>
      match acc with
      | None => None
      | Some max_min =>
          match map (haversine_distance_m s) tgt with
          | [] => None
          | d :: ds => Some (Py.max2 max_min (Py.min_of d ds))
          end
      end) src (Some a)
  = Some (fold_left (fun m s => Py.max2 m (nearest_distance s tgt)) src a).
Proof.
  induction src as [|s src IH]; intros a Ht; [reflexivity|].
  simpl. unfold nearest_distance.
  destruct tgt as [|t ts]; [contradiction|]. cbn [map].
  apply IH. discriminate.
Qed.

Lemma directed_hd_value (src tgt : list Coordinate) :
  tgt <> [] ->
  directed_hd src tgt = Some (fold_left (fun m s => Py.max2 m (nearest_distance s tgt)) src 0).
Proof. intro Ht. unfold directed_hd. apply directed_hd_some. exact Ht. Qed.

Lemma directed_hd_empty_tgt (src : list Coordinate) :
  src <> [] -> directed_hd src [] = None.
Proof.
  intro Hs. destruct src as [|s src]; [contradiction|].
  unfold directed_hd. simpl. apply fold_left_none. reflexivity.
Qed.

Lemma max_fold_bounds (f : Coordinate -> R) (src : list Coordinate) : forall a,
  a <= fold_left (fun m s => Py.max2 m (f s)) src a /\
  (forall s, In s src -> f s <= fold_left (fun m s => Py.max2 m (f s)) src a).
Proof.
  induction src as [|s src IH]; intro a; [simpl; split; [lra|intros s []]|].
  simpl. destruct (IH (Py.max2 a (f s))) as [H1 H2].
  destruct (max2_ge a (f s)) as [Ha Hs].
  split; [lra|]. intros s' [<-|Hin]; [lra|exact (H2 s' Hin)].
Qed.

Lemma max_fold_zero (f : Coordinate -> R) (src : list Coordinate) :
  (forall s, In s src -> f s = 0) -> fold_left (fun m s => Py.max2 m (f s)) src 0 = 0.
Proof.
  intro H. apply (fold_left_inv _ (fun m => m = 0)); [reflexivity|].
  intros m s Hs ->. rewrite (H s Hs). unfold Py.max2. destruct (Rlt_dec 0 0); lra.
Qed.

Lemma nearest_distance_nonneg (s : Coordinate) (tgt : list Coordinate) :
  0 <= nearest_distance s tgt.
Proof.
  unfold nearest_distance. destruct tgt as [|t ts]; [simpl; lra|]. cbn [map].
  destruct (min_of_in (map (haversine_distance_m s) ts) (haversine_distance_m s t)) as [E|Hin].
  - rewrite <- E. apply haversine_nonneg.
  - apply in_map_iff in Hin. destruct Hin as [u [<- _]]. apply haversine_nonneg.
Qed.

(** [hausdorff_distance] raises exactly when one of the two sets is empty
    and the other is not, and a set is at distance [0] from itself. *)
Theorem hausdorff_distance_defined (points_a points_b P : list Coordinate) :
  (hausdorff_distance points_a points_b = None <->
   (points_a = [] /\ points_b <> []) \/ (points_a <> [] /\ points_b = [])) /\
  hausdorff_distance P P = Some 0.
Proof.
  split.
  - unfold hausdorff_distance.
    destruct points_a as [|a as_], points_b as [|b bs].
    + simpl. unfold Py.max2. destruct (Rlt_dec 0 0); split; intro H; try discriminate;
        destruct H as [[_ H]|[H _]]; congruence.
    + rewrite (directed_hd_value [] (b :: bs)) by discriminate.
      rewrite directed_hd_empty_tgt by discriminate.
      split; intro; [left; split; [reflexivity|discriminate]|reflexivity].
    + rewrite directed_hd_empty_tgt by discriminate.
      split; intro; [right; split; [discriminate|reflexivity]|reflexivity].
    + rewrite !directed_hd_value by discriminate.
      split; intro H; [discriminate|]. destruct H as [[H _]|[_ H]]; discriminate.
  - unfold hausdorff_distance. destruct P as [|p ps].
    + simpl. unfold Py.max2. destruct (Rlt_dec 0 0); reflexivity.
    + rewrite directed_hd_value by discriminate.
      rewrite max_fold_zero by (intros s Hs; apply nearest_distance_self; exact Hs).
      unfold Py.max2. destruct (Rlt_dec 0 0); reflexivity.
Qed.

Lemma nth_Forall_default {A : Type} (P : A -> Prop) (l : list A) (d : A) (i : nat) :
  Forall P l -> P d -> P (nth i l d).
Proof.
  intros Hl Hd. destruct (Nat.lt_ge_cases i (length l)) as [Hi|Hi].
  - rewrite Forall_forall in Hl. apply Hl. apply nth_In. exact Hi.
  - rewrite nth_overflow by exact Hi. exact Hd.
Qed.

(** The interpolation weight of [np_percentile] is in [0, 1). *)
Lemma percentile_weight (q : R) (n : nat) :
  0 <= q ->
  0 <= q / 100 * INR n - INR (Z.to_nat (Py.floor (q / 100 * INR n))) < 1.
Proof.
  intro Hq. set (vi := q / 100 * INR n).
  assert (Hvi : 0 <= vi) by (unfold vi; pose proof (pos_INR n); unfold Rdiv; nra).
  pose proof (base_Int_part vi) as [H1 H2]. unfold Py.floor.
  assert (Hz : (0 <= Int_part vi)%Z).
  { destruct (Z_lt_le_dec (Int_part vi) 0) as [Hl|Hl]; [|exact Hl].
    assert (Hl' : (Int_part vi <= -1)%Z) by lia. apply IZR_le in Hl'. lra. }
  rewrite INR_Z_to_nat by exact Hz. lra.
Qed.

Lemma percentile_in (P : R -> Prop) (xs : list R) (q : R) :
  0 <= q -> Forall P xs -> P 0 ->
  (forall a b g, P a -> P b -> 0 <= g <= 1 -> P (a + (b - a) * g)) ->
  P (np_percentile xs q).
Proof.
  intros Hq Hxs H0 Hc. unfold np_percentile. cbv zeta.
  apply Hc.
  - apply nth_Forall_default; [apply sort_Forall; exact Hxs|exact H0].
  - apply nth_Forall_default; [apply sort_Forall; exact Hxs|exact H0].
  - pose proof (percentile_weight q (length (sort xs) - 1)). lra.
Qed.

(** For two non-empty sets and a percentile in [0, 100], the modified
    Hausdorff distance is between 0 and the classic Hausdorff distance, which
    bounds every nearest-neighbour distance in both directions. *)
Theorem mhd_le_hausdorff (points_a points_b : list Coordinate) (q : R) :
  points_a <> [] -> points_b <> [] -> 0 <= q <= 100 ->
  exists h, hausdorff_distance points_a points_b = Some h /\
    0 <= _modified_hausdorff_distance points_a points_b q <= h /\
    (forall s, In s points_a -> nearest_distance s points_b <= h) /\
    (forall s, In s points_b -> nearest_distance s points_a <= h).
Proof.
  intros Ha Hb Hq. unfold hausdorff_distance.
  rewrite !directed_hd_value by assumption.
  set (dab := fold_left (fun m s => Py.max2 m (nearest_distance s points_b)) points_a 0).
  set (dba := fold_left (fun m s => Py.max2 m (nearest_distance s points_a)) points_b 0).
  destruct (max_fold_bounds (fun s => nearest_distance s points_b) points_a 0) as [Ha0 Hab].
  destruct (max_fold_bounds (fun s => nearest_distance s points_a) points_b 0) as [Hb0 Hba].
  fold dab in Ha0, Hab. fold dba in Hb0, Hba.
  destruct (max2_ge dab dba) as [H1 H2].
  exists (Py.max2 dab dba). split; [reflexivity|].
  split; [|split; intros s Hs; [apply (Rle_trans _ dab)|apply (Rle_trans _ dba)]; auto].
  unfold _modified_hausdorff_distance. cbv zeta.
  assert (Hall : Forall (fun x => 0 <= x <= Py.max2 dab dba)
                   (directed_distances points_a points_b ++ directed_distances points_b points_a)).
  { apply Forall_app. unfold directed_distances. split; rewrite Forall_map, Forall_forall;
      intros s Hs; split; try apply nearest_distance_nonneg.
    - apply (Rle_trans _ dab); [apply Hab; exact Hs|exact H1].
    - apply (Rle_trans _ dba); [apply Hba; exact Hs|exact H2]. }
  apply (percentile_in (fun x => 0 <= x <= Py.max2 dab dba)); [lra|exact Hall|lra|].
  intros x y g [Hx1 Hx2] [Hy1 Hy2] Hg. split; nra.
Qed.

Lemma mhd_le_hausdorff_witness :
  [mkCoord 0 0; mkCoord 1 0] <> [] /\ [mkCoord 0 1] <> [] /\ 0 <= 90 <= 100 /\
  exists h, hausdorff_distance [mkCoord 0 0; mkCoord 1 0] [mkCoord 0 1] = Some h /\
    0 <= _modified_hausdorff_distance [mkCoord 0 0; mkCoord 1 0] [mkCoord 0 1] 90 <= h /\
    (forall s, In s [mkCoord 0 0; mkCoord 1 0] -> nearest_distance s [mkCoord 0 1] <= h) /\
    (forall s, In s [mkCoord 0 1] -> nearest_distance s [mkCoord 0 0; mkCoord 1 0] <= h).
Proof.
  split; [discriminate|]. split; [discriminate|]. split; [lra|].
  apply mhd_le_hausdorff; [discriminate|discriminate|lra].
Defined.


Lemma min_of_nonneg_pos_le (p0 : Coordinate) (ps : list Coordinate) (f : Coordinate -> R) (p : Coordinate) :
  In p (p0 :: ps) -> Py.min_of (f p0) (map f ps) <= f p <= Py.max_of (f p0) (map f ps).
Proof.
  intro Hp. split.
  - apply min_of_le. change (In (f p) (map f (p0 :: ps))). apply in_map. exact Hp.
  - apply max_of_ge. change (In (f p) (map f (p0 :: ps))). apply in_map. exact Hp.
Qed.

Lemma shared_bbox_bounds (points_a points_b : list Coordinate) (padding_pct : R) :
  points_a ++ points_b <> [] -> 0 < padding_pct ->
  exists x0 y0 x1 y1,
    _compute_shared_bbox points_a points_b padding_pct = (x0, y0, x1, y1) /\
    x0 < x1 /\ y0 < y1 /\
    forall p, In p (points_a ++ points_b) -> x0 < lng p < x1 /\ y0 < lat p < y1.
Proof.
  intros Hne Hp. unfold _compute_shared_bbox.
  destruct (points_a ++ points_b) as [|p0 ps]; [contradiction|]. cbv zeta.
  set (mnx := Py.min_of (lng p0) (map lng ps)). set (mxx := Py.max_of (lng p0) (map lng ps)).
  set (mny := Py.min_of (lat p0) (map lat ps)). set (mxy := Py.max_of (lat p0) (map lat ps)).
  assert (Hx : forall p, In p (p0 :: ps) -> mnx <= lng p <= mxx)
    by (intros p Hin; exact (min_of_nonneg_pos_le p0 ps lng p Hin)).
  assert (Hy : forall p, In p (p0 :: ps) -> mny <= lat p <= mxy)
    by (intros p Hin; exact (min_of_nonneg_pos_le p0 ps lat p Hin)).
  destruct (Hx p0 (or_introl eq_refl)). destruct (Hy p0 (or_introl eq_refl)).
  pose proof (or_else_pos (mxx - mnx) ltac:(lra)) as Hw.
  pose proof (or_else_pos (mxy - mny) ltac:(lra)) as Hh.
  set (w := Py.or_else (mxx - mnx) 1e-6) in *. set (h := Py.or_else (mxy - mny) 1e-6) in *.
  assert (0 < w * padding_pct) by nra. assert (0 < h * padding_pct) by nra.
  do 4 eexists. split; [reflexivity|].
  split; [lra|]. split; [lra|].
  intros p Hin. destruct (Hx p Hin), (Hy p Hin). lra.
Qed.

(** For a positive padding, the shared bounding box of two point sets, not
    both empty, has positive width and height and holds every point of both
    sets strictly inside. *)
Theorem shared_bbox_contains (points_a points_b : list Coordinate) (padding_pct : R) :
  points_a ++ points_b <> [] -> 0 < padding_pct ->
  exists x0 y0 x1 y1,
    _compute_shared_bbox points_a points_b padding_pct = (x0, y0, x1, y1) /\
    x0 < x1 /\ y0 < y1 /\
    forall p, In p (points_a ++ points_b) -> x0 < lng p < x1 /\ y0 < lat p < y1.
Proof. apply shared_bbox_bounds. Qed.

Lemma shared_bbox_contains_witness :
  [mkCoord 0 0] ++ [mkCoord 2 1] <> [] /\ 0 < 0.1 /\
  exists x0 y0 x1 y1,
    _compute_shared_bbox [mkCoord 0 0] [mkCoord 2 1] 0.1 = (x0, y0, x1, y1) /\
    x0 < x1 /\ y0 < y1 /\
    forall p, In p ([mkCoord 0 0] ++ [mkCoord 2 1]) -> x0 < lng p < x1 /\ y0 < lat p < y1.
Proof.
  split; [discriminate|]. split; [lra|].
  apply shared_bbox_contains; [discriminate|lra].
Defined.


Lemma int_range (x : R) (m : Z) : 0 <= x <= IZR m -> (0 <= Py.int x <= m)%Z.
Proof.
  intros [H1 H2]. unfold Py.int. destruct (Rle_dec 0 x) as [_|]; [|lra].
  pose proof (base_Int_part x) as [B1 B2]. split.
  - destruct (Z_lt_le_dec (Int_part x) 0) as [Hl|Hl]; [|exact Hl].
    assert (Hl' : (Int_part x <= -1)%Z) by lia. apply IZR_le in Hl'. lra.
  - apply le_IZR. lra.
Qed.

Lemma ratio_unit (a lo hi : R) : lo < a < hi -> 0 <= (a - lo) / (hi - lo) <= 1.
Proof.
  intro H. split.
  - apply Rle_mult_inv_pos; lra.
  - apply (Rmult_le_reg_r (hi - lo)); [lra|]. unfold Rdiv.
    rewrite Rmult_assoc, Rinv_l by lra. lra.
Qed.

Lemma filter_length_mono {A : Type} (f g : A -> bool) (l : list A) :
  (forall x, f x = true -> g x = true) -> (length (filter f l) <= length (filter g l))%nat.
Proof.
  intro H. induction l as [|x l IH]; simpl; [lia|].
  destruct (f x) eqn:Ef; [rewrite (H x Ef); simpl; lia|].
  destruct (g x); simpl; lia.
Qed.

Lemma round_in_0_100 (x : R) : 0 <= x <= 100 -> 0 <= IZR (Py.round x) <= 100.
Proof.
  intros [H1 H2]. split.
  - apply IZR_le. apply round_ge. exact H1.
  - apply IZR_le. apply round_le. exact H2.
Qed.

Section Scorer.

Variable RandomState : Type.
Variable Random : Z -> RandomState.
Variable rng_sample : RandomState -> nat -> nat -> list nat * RandomState.
Variable draw_line : list (Z * Z) -> Z -> Z -> Canvas.

Local Abbreviation diam := (_compute_diameter RandomState Random rng_sample).

(** Rasterizing points of two sets in their shared bounding box (10%
    padding) on a canvas of [size >= 1]: it draws a line through the pixels
    [to_pixel] gives, one per point and each inside the canvas
    ([0 <= x, y <= size - 1]), or leaves the canvas blank for fewer than two
    points. *)
Theorem rasterize_pixels_in_canvas (points_a points_b coords : list Coordinate)
    (size line_width : Z) :
  incl coords (points_a ++ points_b) -> (1 <= size)%Z ->
  let bbox := _compute_shared_bbox points_a points_b 0.1 in
  rasterize_route draw_line coords bbox size line_width =
    (if (2 <=? length coords)%nat
     then draw_line (map (to_pixel bbox size) coords) line_width size else blank) /\
  Forall (fun xy => (0 <= fst xy <= size - 1)%Z /\ (0 <= snd xy <= size - 1)%Z)
    (map (to_pixel bbox size) coords).
Proof.
  intros Hincl Hsize bbox. split.
  - unfold rasterize_route, to_pixel. destruct bbox as [[[x0 y0] x1] y1].
    rewrite length_map. reflexivity.
  - destruct coords as [|c cs]; [constructor|].
    assert (Hne : points_a ++ points_b <> []).
    { intro E. specialize (Hincl c (or_introl eq_refl)). rewrite E in Hincl. exact Hincl. }
    destruct (shared_bbox_bounds points_a points_b 0.1 Hne ltac:(lra))
      as [x0 [y0 [x1 [y1 [E [Hx [Hy Hin]]]]]]].
    subst bbox. rewrite E. rewrite Forall_map, Forall_forall. intros p Hp.
    destruct (Hin p (Hincl p Hp)) as [Hpx Hpy].
    assert (Hs : 0 <= IZR (size - 1)) by (apply IZR_le; lia).
    unfold to_pixel. cbn [fst snd]. split; apply int_range.
    + pose proof (ratio_unit (lng p) x0 x1 Hpx). split; [nra|].
      rewrite <- (Rmult_1_l (IZR (size - 1))) at 2. apply Rmult_le_compat_r; lra.
    + assert (Hr : 0 <= (y1 - lat p) / (y1 - y0) <= 1).
      { replace (y1 - lat p) with ((- lat p) - (- y1)) by ring.
        replace (y1 - y0) with ((- y0) - (- y1)) by ring. apply ratio_unit. lra. }
      split; [nra|].
      rewrite <- (Rmult_1_l (IZR (size - 1))) at 2. apply Rmult_le_compat_r; lra.
Qed.

Lemma raster_iou_bounds (target actual : list Coordinate) (size line_width : Z) :
  exists z, _raster_iou_score draw_line target actual size line_width = IZR z /\
    (0 <= z <= 100)%Z.
Proof.
  unfold _raster_iou_score. cbv zeta.
  set (img_t := rasterize_route draw_line target _ size line_width).
  set (img_a := rasterize_route draw_line actual _ size line_width).
  set (ci := count_lit size (fun x y => img_t x y && img_a x y)).
  set (cu := count_lit size (fun x y => img_t x y || img_a x y)).
  assert (Hle : (ci <= cu)%nat).
  { unfold ci, cu, count_lit. apply filter_length_mono.
    intros [x y] H. cbn [fst snd] in *. apply andb_prop in H. destruct H as [-> _]. reflexivity. }
  destruct (cu =? 0)%nat eqn:Ecu; [exists 0%Z; split; [reflexivity|lia]|].
  apply Nat.eqb_neq in Ecu.
  exists (Py.round (INR ci / INR cu * 100)). split; [reflexivity|].
  assert (Hr : 0 <= INR ci / INR cu <= 1).
  { assert (0 < INR cu) by (apply lt_0_INR; lia). apply le_INR in Hle. split.
    - apply Rle_mult_inv_pos; [apply pos_INR|assumption].
    - apply (Rmult_le_reg_r (INR cu)); [assumption|]. unfold Rdiv.
      rewrite Rmult_assoc, Rinv_l by lra. lra. }
  split.
  - apply round_ge. simpl. lra.
  - apply round_le. simpl. lra.
Qed.

(** The raster IoU score is an integer between 0 and 100. *)
Theorem raster_iou_range (target actual : list Coordinate) (size line_width : Z) :
  exists z, _raster_iou_score draw_line target actual size line_width = IZR z /\
    (0 <= z <= 100)%Z.
Proof. apply raster_iou_bounds. Qed.

Lemma keep_max_ge (m d : R) : m <= keep_max m d /\ d <= keep_max m d.
Proof. unfold keep_max. destruct (Rlt_dec m d); lra. Qed.

Lemma keep_max_cases (m d : R) : keep_max m d = m \/ keep_max m d = d.
Proof. unfold keep_max. destruct (Rlt_dec m d); auto. Qed.

Lemma all_pairs_max_ge (points : list Coordinate) : forall m, m <= all_pairs_max m points.
Proof.
  induction points as [|p rest IH]; intro m; simpl; [lra|].
  eapply Rle_trans; [|apply IH].
  apply (fold_left_inv _ (fun x => m <= x)); [lra|].
  intros a b _ Ha. pose proof (keep_max_ge a (haversine_distance_m p b)). lra.
Qed.

Lemma diameter_nonneg (points : list Coordinate) : 0 <= diam points.
Proof.
  unfold _compute_diameter. cbv zeta.
  destruct (length points <? 2)%nat; [lra|].
  destruct (length points <=? 60)%nat; [apply all_pairs_max_ge|].
  unfold sampled_max.
  apply (fold_left_inv _ (fun st => 0 <= fst st)); [simpl; lra|].
  intros [m r] i _ Hm. simpl in Hm.
  destruct (rng_sample r (length points) (Nat.min 50 (length points))) as [samples r'].
  simpl. apply (fold_left_inv _ (fun x => 0 <= x)); [exact Hm|].
  intros a j _ Ha. destruct (Nat.eq_dec i j); [exact Ha|].
  pose proof (keep_max_ge a (haversine_distance_m (nth i points origin) (nth j points origin))).
  lra.
Qed.

Lemma mean_paired_nonneg (ts as_ : list Coordinate) : 0 <= mean_paired_distance ts as_.
Proof.
  unfold mean_paired_distance.
  set (l := map _ (combine ts as_)).
  assert (Hs : 0 <= fold_right Rplus 0 l).
  { unfold l. induction (combine ts as_) as [|[t a] c IH]; simpl; [lra|].
    pose proof (haversine_nonneg t a). lra. }
  destruct (length l) as [|n]; [simpl; unfold Rdiv; rewrite Rinv_0; lra|].
  apply Rle_mult_inv_pos; [exact Hs|apply lt_0_INR; lia].
Qed.

Lemma normalized_unit (x d : R) : 0 <= x -> 0 <= d -> d <> 0 ->
  0 <= Py.min2 (x / d) 1 <= 1.
Proof.
  intros Hx Hd Hn. assert (0 <= x / d) by (apply Rle_mult_inv_pos; lra).
  unfold Py.min2. destruct (Rlt_dec 1 (x / d)); lra.
Qed.

Lemma ordered_sampling_bounds (target actual : list Coordinate) (n_samples : nat) :
  exists z, _ordered_sampling_score RandomState Random rng_sample target actual n_samples = IZR z /\
    (0 <= z <= 100)%Z.
Proof.
  unfold _ordered_sampling_score. cbv zeta.
  destruct (_resample_curve target n_samples) as [|t ts];
    [exists 0%Z; split; [reflexivity|lia]|].
  destruct (_resample_curve actual n_samples) as [|a as_];
    [exists 0%Z; split; [reflexivity|lia]|].
  destruct (Req_dec_T (diam target) 0) as [|Hd]; [exists 0%Z; split; [reflexivity|lia]|].
  eexists. split; [reflexivity|].
  pose proof (normalized_unit _ _ (mean_paired_nonneg (t :: ts) (a :: as_))
                (diameter_nonneg target) Hd).
  split; [apply round_ge|apply round_le]; simpl; lra.
Qed.

(** The ordered-sampling score is an integer between 0 and 100. *)
Theorem ordered_sampling_range (target actual : list Coordinate) (n_samples : nat) :
  exists z, _ordered_sampling_score RandomState Random rng_sample target actual n_samples = IZR z /\
    (0 <= z <= 100)%Z.
Proof. apply ordered_sampling_bounds. Qed.

(** Whatever the inputs and the threshold, the algorithmic scorer returns
    an integer score between 0 and 100 (as [ValidationResult] requires), and
    passes only when the score reaches the threshold. *)
Theorem validate_algorithmic_score_range (target_points actual_points : list Coordinate)
    (threshold : Z) :
  let r := _validate_algorithmic RandomState Random rng_sample draw_line
             target_points actual_points threshold in
  exists z, score r = IZR z /\ (0 <= z <= 100)%Z /\
    (passed r = true -> (threshold <= z)%Z).
Proof.
  intro r. subst r. unfold _validate_algorithmic.
  destruct target_points as [|p ps];
    [exists 0%Z; split; [reflexivity|split; [lia|discriminate]]|].
  destruct actual_points as [|q qs];
    [exists 0%Z; split; [reflexivity|split; [lia|discriminate]]|].
  cbv zeta.
  destruct (Req_dec_T (diam (p :: ps)) 0) as [|Hd];
    [exists 0%Z; split; [reflexivity|split; [lia|discriminate]]|].
  eexists. cbn [score passed]. split; [reflexivity|].
  split; [|intro H; apply Z.leb_le; exact H].
  destruct (ordered_sampling_bounds (p :: ps) (q :: qs) 50) as [zo [Eo Ho]].
  destruct (raster_iou_bounds (p :: ps) (q :: qs) 128 12) as [zi [Ei Hi]].
  rewrite Eo, Ei.
  assert (Hm : 0 <= _modified_hausdorff_distance (p :: ps) (q :: qs) 90).
  { unfold _modified_hausdorff_distance. cbv zeta.
    apply (percentile_in (fun x => 0 <= x)); [lra| |lra|intros; nra].
    apply Forall_app. unfold directed_distances.
    split; rewrite Forall_map, Forall_forall; intros; apply nearest_distance_nonneg. }
  pose proof (normalized_unit _ _ Hm (diameter_nonneg (p :: ps)) Hd).
  destruct Ho as [Ho1 Ho2]. destruct Hi as [Hi1 Hi2].
  apply IZR_le in Ho1, Ho2, Hi1, Hi2.
  split; [apply round_ge|apply round_le]; simpl in *; lra.
Qed.

Lemma inner_fold_bounds (p : Coordinate) (rest : list Coordinate) (m : R) :
  let r := fold_left (fun m q => keep_max m (haversine_distance_m p q)) rest m in
  m <= r /\ (forall j, (j < length rest)%nat -> haversine_distance_m p (nth j rest origin) <= r) /\
  (r = m \/ exists j, (j < length rest)%nat /\ r = haversine_distance_m p (nth j rest origin)).
Proof.
  revert m. induction rest as [|q rest IH]; intro m; cbv zeta; simpl.
  - split; [lra|]. split; [intros j Hj; lia|left; reflexivity].
  - destruct (IH (keep_max m (haversine_distance_m p q))) as [H1 [H2 H3]].
    pose proof (keep_max_ge m (haversine_distance_m p q)) as [K1 K2].
    split; [lra|]. split.
    + intros [|j] Hj; [simpl; lra|]. apply H2. simpl in Hj. lia.
    + destruct H3 as [E|[j [Hj E]]].
      * destruct (keep_max_cases m (haversine_distance_m p q)) as [E'|E'].
        -- left. rewrite E, E'. reflexivity.
        -- right. exists 0%nat. split; [lia|]. rewrite E, E'. reflexivity.
      * right. exists (S j). split; [lia|]. exact E.
Qed.

Lemma all_pairs_max_bounds (points : list Coordinate) : forall m,
  let r := all_pairs_max m points in
  (forall i j, (i < j < length points)%nat ->
     haversine_distance_m (nth i points origin) (nth j points origin) <= r) /\
  (r = m \/ exists i j, (i < j < length points)%nat /\
     r = haversine_distance_m (nth i points origin) (nth j points origin)).
Proof.
  induction points as [|p rest IH]; intro m; cbv zeta; simpl.
  - split; [intros i j H; lia|left; reflexivity].
  - destruct (inner_fold_bounds p rest m) as [B1 [B2 B3]].
    set (m' := fold_left _ rest m) in *.
    destruct (IH m') as [I1 I2]. cbv zeta in I1, I2.
    pose proof (all_pairs_max_ge rest m') as Hge.
    split.
    + intros [|i] [|j] Hij; try lia.
      * simpl. apply (Rle_trans _ m'); [apply B2; lia|exact Hge].
      * simpl. apply I1. lia.
    + destruct I2 as [E|[i [j [Hij E]]]].
      * rewrite E. destruct B3 as [E'|[j [Hj E']]]; [left; exact E'|].
        right. exists 0%nat, (S j). split; [lia|exact E'].
      * right. exists (S i), (S j). split; [lia|exact E].
Qed.

(** Up to 60 points, [_compute_diameter] is the exact diameter: the largest
    geodesic distance between two of the points. *)
Theorem diameter_exact_small (points : list Coordinate) :
  (2 <= length points <= 60)%nat ->
  (forall i j, (i < j < length points)%nat ->
     haversine_distance_m (nth i points origin) (nth j points origin) <= diam points) /\
  exists i j, (i < j < length points)%nat /\
    diam points = haversine_distance_m (nth i points origin) (nth j points origin).
Proof.
  intro Hn. unfold _compute_diameter. cbv zeta.
  destruct (length points <? 2)%nat eqn:E1; [apply Nat.ltb_lt in E1; lia|].
  destruct (length points <=? 60)%nat eqn:E2; [|apply Nat.leb_gt in E2; lia].
  destruct (all_pairs_max_bounds points 0) as [B1 B2]. cbv zeta in B1, B2.
  split; [exact B1|].
  destruct B2 as [E|H]; [|exact H].
  exists 0%nat, 1%nat. split; [lia|].
  pose proof (B1 0%nat 1%nat ltac:(lia)). pose proof (haversine_nonneg (nth 0 points origin) (nth 1 points origin)).
  lra.
Qed.

(** Above 60 points, for a generator whose [sample(range(n), k)] draws
    indices below [n], the sampled diameter never overestimates: it lies
    between 0 and the exact diameter. *)
Theorem diameter_sampled_le_exact (points : list Coordinate) :
  (forall r n k j, In j (fst (rng_sample r n k)) -> (j < n)%nat) ->
  (60 < length points)%nat ->
  0 <= diam points <= all_pairs_max 0 points.
Proof.
  intros Hrng Hn. split; [apply diameter_nonneg|].
  unfold _compute_diameter. cbv zeta.
  destruct (length points <? 2)%nat eqn:E1; [apply Nat.ltb_lt in E1; lia|].
  destruct (length points <=? 60)%nat eqn:E2; [apply Nat.leb_le in E2; lia|].
  destruct (all_pairs_max_bounds points 0) as [B1 _]. cbv zeta in B1.
  set (E := all_pairs_max 0 points) in *.
  assert (HE0 : 0 <= E) by apply all_pairs_max_ge.
  assert (Hpair : forall i j, (i < length points)%nat -> (j < length points)%nat -> i <> j ->
            haversine_distance_m (nth i points origin) (nth j points origin) <= E).
  { intros i j Hi Hj Hij. destruct (Nat.lt_ge_cases i j) as [Hl|Hl].
    - apply B1. lia.
    - rewrite haversine_sym. apply B1. lia. }
  unfold sampled_max.
  apply (fold_left_inv _ (fun st => fst st <= E)); [simpl; exact HE0|].
  intros [m r] i Hi Hm. simpl in Hm. apply in_seq in Hi.
  destruct (rng_sample r (length points) (Nat.min 50 (length points))) as [samples r'] eqn:Es.
  simpl. apply (fold_left_inv _ (fun x => x <= E)); [exact Hm|].
  intros a j Hj Ha. destruct (Nat.eq_dec i j) as [|Hij]; [exact Ha|].
  assert (Hjn : (j < length points)%nat).
  { apply (Hrng r (length points) (Nat.min 50 (length points))). rewrite Es. exact Hj. }
  unfold keep_max. destruct (Rlt_dec _ _); [apply Hpair; lia|exact Ha].
Qed.

End Scorer.

Lemma rasterize_pixels_in_canvas_witness :
  incl [mkCoord 0 0; mkCoord 1 1] ([mkCoord 0 0; mkCoord 1 1] ++ []) /\ (1 <= 128)%Z /\
  let bbox := _compute_shared_bbox [mkCoord 0 0; mkCoord 1 1] [] 0.1 in
  rasterize_route Environment.draw_line [mkCoord 0 0; mkCoord 1 1] bbox 128 12 =
    (if (2 <=? length [mkCoord 0 0; mkCoord 1 1])%nat
     then Environment.draw_line (map (to_pixel bbox 128) [mkCoord 0 0; mkCoord 1 1]) 12 128
     else blank) /\
  Forall (fun xy => (0 <= fst xy <= 128 - 1)%Z /\ (0 <= snd xy <= 128 - 1)%Z)
    (map (to_pixel bbox 128) [mkCoord 0 0; mkCoord 1 1]).
Proof.
  split; [apply incl_appl, incl_refl|]. split; [lia|].
  apply (rasterize_pixels_in_canvas Environment.draw_line); [apply incl_appl, incl_refl|lia].
Defined.

Lemma diameter_exact_small_witness :
  (2 <= length [mkCoord 0 0; mkCoord 0 1; mkCoord 1 0] <= 60)%nat /\
  let points := [mkCoord 0 0; mkCoord 0 1; mkCoord 1 0] in
  let d := _compute_diameter Environment.RandomState Environment.Random
             Environment.rng_sample points in
  (forall i j, (i < j < length points)%nat ->
     haversine_distance_m (nth i points origin) (nth j points origin) <= d) /\
  exists i j, (i < j < length points)%nat /\
    d = haversine_distance_m (nth i points origin) (nth j points origin).
Proof.
  split; [simpl; lia|].
  apply (diameter_exact_small Environment.RandomState Environment.Random Environment.rng_sample).
  simpl; lia.
Defined.

Lemma diameter_sampled_le_exact_witness :
  (60 < length (repeat (mkCoord 0 0) 61))%nat /\
  0 <= _compute_diameter Environment.RandomState Environment.Random Environment.rng_sample
         (repeat (mkCoord 0 0) 61) <= all_pairs_max 0 (repeat (mkCoord 0 0) 61).
Proof.
  split; [rewrite repeat_length; lia|].
  apply (diameter_sampled_le_exact Environment.RandomState Environment.Random
           Environment.rng_sample); [exact environment_sample_range|].
  rewrite repeat_length; lia.
Defined.

End ScoreFacts.

(** ** Further properties of the generator and the templates *)

Module WaypointFacts.

Import StreetMapper ShapeGenerator Measures ValidatorFacts ScoreFacts.

Lemma lng_lat_some (coordinates : list (list R)) (j : nat) :
  Forall (fun c => (2 <= length c)%nat) coordinates -> (j < length coordinates)%nat ->
  exists x y, lng_lat (nth j coordinates []) = Some (x, y).
Proof.
  intros Hc Hj. rewrite Forall_forall in Hc.
  pose proof (Hc _ (nth_In coordinates [] Hj)) as H.
  destruct (nth j coordinates []) as [|x [|y r]]; simpl in H; try lia.
  exists x, y. reflexivity.
Qed.

Lemma last_In {A : Type} (l : list A) (d : A) : l <> [] -> In (last l d) l.
Proof.
  induction l as [|x l IH]; intro H; [contradiction|].
  destruct l as [|y l]; [left; reflexivity|]. right. apply IH. discriminate.
Qed.

Lemma py_range_in (start stop step i : nat) :
  (1 <= step)%nat -> In i (py_range start stop step) -> (start <= i < stop)%nat.
Proof.
  intros Hs Hi. unfold py_range in Hi. apply in_map_iff in Hi.
  destruct Hi as [k [<- Hk]]. apply in_seq in Hk.
  assert (Hk1 : (S k <= (stop - start + step - 1) / step)%nat) by lia.
  assert (Hm : (S k * step <= stop - start + step - 1)%nat).
  { eapply Nat.le_trans; [apply Nat.mul_le_mono_r; exact Hk1|].
    rewrite Nat.mul_comm. apply Nat.Div0.mul_div_le. }
  simpl in Hm. nia.
Qed.

Lemma length_py_range (start stop step : nat) :
  length (py_range start stop step) = ((stop - start + step - 1) / step)%nat.
Proof. unfold py_range. rewrite length_map, length_seq. reflexivity. Qed.

Lemma plain_markers_spec (coordinates : list (list R)) : forall i,
  Forall (fun c => (2 <= length c)%nat) coordinates ->
  exists ms, plain_markers i coordinates = Some ms /\
    map index ms = map Z.of_nat (seq (S i) (length ms)) /\
    Forall2 (fun c m => lng_lat c = Some (marker_lng m, marker_lat m) /\
                        instruction m = Literals.Waypoint) coordinates ms.
Proof.
  induction coordinates as [|c cs IH]; intros i Hc.
  - exists []. split; [reflexivity|]. split; [reflexivity|constructor].
  - inversion Hc as [|? ? Hc0 Hcs]; subst.
    destruct c as [|x [|y r]]; simpl in Hc0; try lia.
    destruct (IH (S i) Hcs) as [ms [E [Hidx H2]]].
    exists (mkMarker (Z.of_nat (S i)) x y Literals.Waypoint :: ms).
    simpl. rewrite E. split; [reflexivity|]. split.
    + simpl. f_equal. exact Hidx.
    + constructor; [split; reflexivity|exact H2].
Qed.

Lemma waypoint_step_length (coordinates : list (list R)) (step i : nat)
    (ws ws' : list WaypointMarker) :
  waypoint_step coordinates step (Some ws) i = Some ws' -> (length ws' <= S (length ws))%nat.
Proof.
  unfold waypoint_step.
  destruct (lng_lat (nth (i - step) coordinates [])) as [p|]; [|discriminate].
  destruct (lng_lat (nth i coordinates [])) as [c|]; [|discriminate].
  destruct (lng_lat (nth (Nat.min (i + step) (length coordinates - 1)) coordinates [])) as [q|];
    [|discriminate].
  cbv zeta. destruct (Rle_dec 30 _); intro E; injection E as <-;
    [rewrite length_app; simpl; lia|lia].
Qed.

Lemma waypoint_fold_length (coordinates : list (list R)) (step : nat) (l : list nat) :
  forall ws ws',
  fold_left (waypoint_step coordinates step) l (Some ws) = Some ws' ->
  (length ws' <= length ws + length l)%nat.
Proof.
  induction l as [|i l IH]; intros ws ws' E.
  - simpl in E. injection E as <-. lia.
  - cbn [fold_left] in E.
    destruct (waypoint_step coordinates step (Some ws) i) as [ws1|] eqn:Ew.
    + apply waypoint_step_length in Ew. apply IH in E. simpl. lia.
    + rewrite fold_left_none in E; [discriminate|reflexivity].
Qed.

(** For routed coordinates of at least two numbers each, [_extract_waypoints]
    never raises. Up to two coordinates, it returns one ["Waypoint"] marker
    per coordinate, at that coordinate, numbered [1, 2, ...]. *)
Theorem extract_waypoints_short (coordinates : list (list R)) :
  Forall (fun c => (2 <= length c)%nat) coordinates -> (length coordinates < 3)%nat ->
  exists ms, _extract_waypoints coordinates = Some ms /\
    map index ms = map Z.of_nat (seq 1 (length ms)) /\
    Forall2 (fun c m => lng_lat c = Some (marker_lng m, marker_lat m) /\
                        instruction m = Literals.Waypoint) coordinates ms.
Proof.
  intros Hc Hn. unfold _extract_waypoints.
  destruct (length coordinates <? 3)%nat eqn:E; [|apply Nat.ltb_ge in E; lia].
  apply plain_markers_spec. exact Hc.
Qed.

(** From three routed coordinates of at least two numbers each, it
    returns a ["Start here"] marker at the first coordinate, at most 97 turn
    markers, each at an inner coordinate with one of the five turn
    instructions, and a ["Finish!"] marker at the last coordinate, numbered
    [1, 2, ...] in that order. *)
Theorem extract_waypoints_long (coordinates : list (list R)) :
  Forall (fun c => (2 <= length c)%nat) coordinates -> (3 <= length coordinates)%nat ->
  exists start inner final,
    _extract_waypoints coordinates = Some (start :: inner ++ [final]) /\
    map index (start :: inner ++ [final]) = map Z.of_nat (seq 1 (length inner + 2)) /\
    lng_lat (nth 0 coordinates []) = Some (marker_lng start, marker_lat start) /\
    instruction start = Literals.Start_here /\
    lng_lat (last coordinates []) = Some (marker_lng final, marker_lat final) /\
    instruction final = Literals.Finish /\
    (length inner <= 97)%nat /\
    Forall (fun m => In (instruction m) turn_instructions /\
      exists i, (0 < i < length coordinates - 1)%nat /\
        lng_lat (nth i coordinates []) = Some (marker_lng m, marker_lat m)) inner.
Proof.
  intros Hc Hn. set (n := length coordinates) in *.
  unfold _extract_waypoints. fold n.
  destruct (n <? 3)%nat eqn:E; [apply Nat.ltb_lt in E; lia|].
  destruct (lng_lat_some coordinates 0 Hc ltac:(lia)) as [x0 [y0 E0]]. rewrite E0.
  set (step := Nat.max 1 (n / 50)).
  assert (Hs1 : (1 <= step)%nat) by lia.
  set (start := mkMarker 1 x0 y0 Literals.Start_here).
  set (P := fun m : WaypointMarker => In (instruction m) turn_instructions /\
      exists i, (0 < i < n - 1)%nat /\
        lng_lat (nth i coordinates []) = Some (marker_lng m, marker_lat m)).
  set (l := py_range step (n - step) step).
  assert (Hinv : exists ws, fold_left (waypoint_step coordinates step) l (Some [start]) = Some ws /\
      map index ws = map Z.of_nat (seq 1 (length ws)) /\
      exists inner, ws = start :: inner /\ Forall P inner).
  { apply (fold_left_inv _ (fun acc => exists ws, acc = Some ws /\
        map index ws = map Z.of_nat (seq 1 (length ws)) /\
        exists inner, ws = start :: inner /\ Forall P inner)).
    - exists [start]. split; [reflexivity|]. split; [reflexivity|].
      exists []. split; [reflexivity|constructor].
    - intros acc i Hi [ws [-> [Hidx [inner [Hws Hinner]]]]].
      apply py_range_in in Hi; [|exact Hs1].
      unfold waypoint_step.
      destruct (lng_lat_some coordinates (i - step) Hc ltac:(lia)) as [px [py Ep]].
      destruct (lng_lat_some coordinates i Hc ltac:(lia)) as [cx [cy Ec]].
      destruct (lng_lat_some coordinates (Nat.min (i + step) (length coordinates - 1)) Hc
                  ltac:(fold n; lia)) as [qx [qy Eq]].
      rewrite Ep, Ec, Eq. cbv zeta.
      destruct (Rle_dec 30 _) as [Hturn|Hturn].
      + eexists. split; [reflexivity|]. split.
        * rewrite map_app, length_app, Hidx. cbn [length].
          rewrite Nat.add_1_r, seq_S, map_app. reflexivity.
        * eexists.
          split; [rewrite Hws; reflexivity|].
          apply Forall_app. split; [exact Hinner|]. constructor; [|constructor].
          split.
          -- cbn [instruction]. unfold turn_instructions.
             repeat match goal with |- context [Rlt_dec ?a ?b] => destruct (Rlt_dec a b) end;
               simpl; tauto.
          -- exists i. split; [lia|]. exact Ec.
      + exists ws. split; [reflexivity|]. split; [exact Hidx|]. exists inner. split; assumption. }
  destruct Hinv as [ws [Efold [Hidx [inner [Hws Hinner]]]]].
  rewrite Efold.
  assert (Hl : (0 < length coordinates)%nat) by (fold n; lia).
  assert (Hlast : exists xl yl, lng_lat (last coordinates []) = Some (xl, yl)).
  { assert (Hin : In (last coordinates []) coordinates)
      by (apply last_In; intro E'; rewrite E' in Hl; simpl in Hl; lia).
    rewrite Forall_forall in Hc. pose proof (Hc _ Hin) as H.
    destruct (last coordinates []) as [|x [|y r]]; simpl in H; try lia.
    exists x, y. reflexivity. }
  destruct Hlast as [xl [yl El]]. rewrite El.
  exists start, inner, (mkMarker (Z.of_nat (length ws + 1)) xl yl Literals.Finish).
  split; [rewrite Hws; reflexivity|].
  split.
  { replace (start :: inner ++ [mkMarker (Z.of_nat (length ws + 1)) xl yl Literals.Finish])
      with (ws ++ [mkMarker (Z.of_nat (length ws + 1)) xl yl Literals.Finish])
      by (rewrite Hws; reflexivity).
    rewrite map_app, Hidx.
    replace (length inner + 2)%nat with (S (length ws)) by (rewrite Hws; simpl; lia).
    rewrite seq_S, map_app. cbn [map index]. rewrite Nat.add_1_r. reflexivity. }
  do 4 (split; [reflexivity|]).
  split; [|exact Hinner].
  pose proof (waypoint_fold_length coordinates step l [start] ws Efold) as Hlen.
  rewrite Hws in Hlen. simpl in Hlen. unfold l in Hlen. rewrite length_py_range in Hlen.
  assert (Hq : ((n - step - step + step - 1) / step < 98)%nat).
  { apply Nat.Div0.div_lt_upper_bound. unfold step.
    pose proof (Nat.div_mod n 50 ltac:(lia)). pose proof (Nat.mod_upper_bound n 50 ltac:(lia)).
    set (q := (n / 50)%nat) in *. set (r := (n mod 50)%nat) in *. lia. }
  lia.
Qed.

Lemma extract_waypoints_short_witness :
  Forall (fun c => (2 <= length c)%nat) [[0; 0]; [1; 2; 3]] /\
  (length [[0; 0]; [1; 2; 3]] < 3)%nat /\
  exists ms, _extract_waypoints [[0; 0]; [1; 2; 3]] = Some ms /\
    map index ms = map Z.of_nat (seq 1 (length ms)) /\
    Forall2 (fun c m => lng_lat c = Some (marker_lng m, marker_lat m) /\
                        instruction m = Literals.Waypoint) [[0; 0]; [1; 2; 3]] ms.
Proof.
  assert (Hc : Forall (fun c => (2 <= length c)%nat) [[0; 0]; [1; 2; 3]])
    by (repeat constructor; simpl; lia).
  split; [exact Hc|]. split; [simpl; lia|].
  apply extract_waypoints_short; [exact Hc|simpl; lia].
Defined.

Lemma extract_waypoints_long_witness :
  let coordinates := [[0; 0]; [0; 1]; [1; 1]; [1; 2]] in
  Forall (fun c => (2 <= length c)%nat) coordinates /\ (3 <= length coordinates)%nat /\
  exists start inner final,
    _extract_waypoints coordinates = Some (start :: inner ++ [final]) /\
    map index (start :: inner ++ [final]) = map Z.of_nat (seq 1 (length inner + 2)) /\
    lng_lat (nth 0 coordinates []) = Some (marker_lng start, marker_lat start) /\
    instruction start = Literals.Start_here /\
    lng_lat (last coordinates []) = Some (marker_lng final, marker_lat final) /\
    instruction final = Literals.Finish /\
    (length inner <= 97)%nat /\
    Forall (fun m => In (instruction m) turn_instructions /\
      exists i, (0 < i < length coordinates - 1)%nat /\
        lng_lat (nth i coordinates []) = Some (marker_lng m, marker_lat m)) inner.
Proof.
  intro coordinates.
  assert (Hc : Forall (fun c => (2 <= length c)%nat) coordinates)
    by (repeat constructor; simpl; lia).
  split; [exact Hc|]. split; [simpl; lia|].
  apply extract_waypoints_long; [exact Hc|simpl; lia].
Defined.

End WaypointFacts.

Module TemplateFacts.

Import StreetMapper ShapeTemplates Measures WaypointFacts.
Import (notations) Ascii String.

Lemma close_shape (points : list Coordinate) :
  points <> [] ->
  points ++ [hd origin points] <> [] /\
  hd origin (points ++ [hd origin points]) = last (points ++ [hd origin points]) origin.
Proof.
  intro H. destruct points as [|p ps]; [contradiction|].
  split; [discriminate|]. rewrite last_last. reflexivity.
Qed.

(** Every shape of the [TEMPLATES] registry is a closed outline: a
    non-empty list of points whose last point is its first. *)
Theorem templates_closed (Char : Type) (chr : Ascii.ascii -> Char)
    (key : list Char) (func : R -> R -> R -> list Coordinate) (cx cy scale : R) :
  In (key, func) (TEMPLATES Char chr) ->
  func cx cy scale <> [] /\ hd origin (func cx cy scale) = last (func cx cy scale) origin.
Proof.
  unfold TEMPLATES. intro H.
  repeat (destruct H as [H|H]; [injection H as <- <-|]); [| | | | | |destruct H].
  - unfold _heart. cbv zeta. apply close_shape. simpl. discriminate.
  - unfold _star. cbv zeta. apply close_shape. simpl. discriminate.
  - unfold _circle. cbv zeta. apply close_shape. simpl. discriminate.
  - unfold _triangle. cbv zeta. apply close_shape. simpl. discriminate.
  - unfold _arrow. simpl. split; [discriminate|reflexivity].
  - unfold _square. cbv zeta. apply close_shape. simpl. discriminate.
Qed.

Lemma templates_closed_witness :
  In (lit Ascii.ascii (fun a => a) "heart"%string, _heart) (TEMPLATES Ascii.ascii (fun a => a)) /\
  _heart 0 0 1 <> [] /\ hd origin (_heart 0 0 1) = last (_heart 0 0 1) origin.
Proof.
  assert (H : In (lit Ascii.ascii (fun a => a) "heart"%string, _heart)
                (TEMPLATES Ascii.ascii (fun a => a))) by (left; reflexivity).
  split; [exact H|]. exact (templates_closed Ascii.ascii (fun a => a) _ _ 0 0 1 H).
Defined.


Lemma hd_In_nonempty (points : list Coordinate) : points <> [] -> In (hd origin points) points.
Proof. destruct points as [|p ps]; [contradiction|]. intros _. left. reflexivity. Qed.

Lemma sin_cos_sq (a : R) : sin a ^ 2 + cos a ^ 2 = 1.
Proof. rewrite <- (sin2_cos2 a). unfold Rsqr. ring. Qed.

(** [_circle] draws a circle: each of its points is at euclidean distance
    [0.45 * scale] (in degrees) from the centre. *)
Theorem circle_radius (cx cy scale : R) (p : Coordinate) :
  In p (_circle cx cy scale) -> (lng p - cx) ^ 2 + (lat p - cy) ^ 2 = (scale * 0.45) ^ 2.
Proof.
  unfold _circle. cbv zeta. set (r := scale * 0.45).
  set (points := map _ (seq 0 48)).
  assert (Hp : forall q, In q points -> (lng q - cx) ^ 2 + (lat q - cy) ^ 2 = r ^ 2).
  { intros q Hq. unfold points in Hq. apply in_map_iff in Hq. destruct Hq as [i [<- _]].
    cbn [lng lat]. set (a := 2 * PI * INR i / INR 48). pose proof (sin_cos_sq a) as E.
    transitivity (r ^ 2 * (sin a ^ 2 + cos a ^ 2)); [ring|]. rewrite E. ring. }
  intro H. apply in_app_or in H. destruct H as [H|[<-|[]]]; [exact (Hp p H)|].
  apply Hp. apply hd_In_nonempty. unfold points. simpl. discriminate.
Qed.

Lemma circle_radius_witness :
  In (hd origin (_circle 0 0 1)) (_circle 0 0 1) /\
  (lng (hd origin (_circle 0 0 1)) - 0) ^ 2 + (lat (hd origin (_circle 0 0 1)) - 0) ^ 2
    = (1 * 0.45) ^ 2.
Proof.
  assert (H : In (hd origin (_circle 0 0 1)) (_circle 0 0 1)) by (simpl; left; reflexivity).
  split; [exact H|]. exact (circle_radius 0 0 1 _ H).
Defined.


Lemma closed_Forall (P : Coordinate -> Prop) (points : list Coordinate) :
  points <> [] -> Forall P points -> Forall P (points ++ [hd origin points]).
Proof.
  intros Hne H. apply Forall_app. split; [exact H|]. constructor; [|constructor].
  rewrite Forall_forall in H. apply H. apply hd_In_nonempty. exact Hne.
Qed.

Lemma box_mid (cx cy half ax ay bx by0 : R) :
  within_box cx cy half (mkCoord ax ay) -> within_box cx cy half (mkCoord bx by0) ->
  within_box cx cy half (mkCoord ((ax + bx) / 2) ((ay + by0) / 2)).
Proof. unfold within_box. simpl. lra. Qed.

Lemma box_interp (cx cy half ax ay bx by0 f : R) :
  within_box cx cy half (mkCoord ax ay) -> within_box cx cy half (mkCoord bx by0) ->
  0 <= f <= 1 ->
  within_box cx cy half (mkCoord (ax + (bx - ax) * f) (ay + (by0 - ay) * f)).
Proof. unfold within_box. simpl. intros. split; split; nra. Qed.

Lemma box_polar (cx cy half r a : R) :
  0 <= r <= half -> within_box cx cy half (mkCoord (cx + r * cos a) (cy + r * sin a)).
Proof.
  intro Hr. pose proof (COS_bound a). pose proof (SIN_bound a).
  unfold within_box. simpl. split; split; nra.
Qed.

Lemma frac_unit (j n : nat) : (j < n)%nat -> 0 <= INR j / INR n <= 1.
Proof.
  intro H. assert (0 < INR n) by (apply lt_0_INR; lia).
  assert (INR j <= INR n) by (apply le_INR; lia). split.
  - apply Rle_mult_inv_pos; [apply pos_INR|assumption].
  - apply (Rmult_le_reg_r (INR n)); [assumption|]. unfold Rdiv.
    rewrite Rmult_assoc, Rinv_l by lra. lra.
Qed.

Lemma cos_3a (t : R) : cos (3 * t) = 4 * cos t ^ 3 - 3 * cos t.
Proof.
  replace (3 * t) with (2 * t + t) by ring.
  rewrite cos_plus, cos_2a_cos, sin_2a.
  assert (Hs : sin t * sin t = 1 - cos t * cos t) by (pose proof (sin_cos_sq t); nra).
  transitivity (2 * cos t * cos t * cos t - cos t - 2 * cos t * (sin t * sin t)); [ring|].
  rewrite Hs. ring.
Qed.

Lemma cos_4a (t : R) : cos (4 * t) = 8 * cos t ^ 4 - 8 * cos t ^ 2 + 1.
Proof.
  replace (4 * t) with (2 * (2 * t)) by ring.
  rewrite cos_2a_cos, cos_2a_cos. ring.
Qed.

Lemma heart_y_bound (t : R) :
  -17 <= 13 * cos t - 5 * cos (2 * t) - 2 * cos (3 * t) - cos (4 * t) <= 17.
Proof.
  rewrite cos_2a_cos, cos_3a, cos_4a.
  pose proof (COS_bound t) as [H1 H2]. set (c := cos t) in *. clearbody c.
  assert (Hc2 : 0 <= c ^ 2 <= 1).
  { assert (0 <= (1 - c) * (1 + c)) by (apply Rmult_le_pos; lra). split; nra. }
  assert (Hc3 : -1 <= c ^ 3 <= 1) by (replace (c ^ 3) with (c * c ^ 2) by ring; split; nra).
  assert (Hlow : 0 <= (c + 1) * (21 - 8 * c ^ 3 - 2 * c)) by (apply Rmult_le_pos; lra).
  split; [nra|].
  destruct (Rle_lt_dec 0 c) as [Hc|Hc].
  - assert (0 <= (c - 0.6) ^ 2 * (c + 1.2)) by (apply Rmult_le_pos; [apply pow2_ge_0|lra]).
    assert (0 <= (c - 0.6) ^ 2 * (c ^ 2 + 1.2 * c + 1.08))
      by (apply Rmult_le_pos; [apply pow2_ge_0|lra]).
    assert (0 <= (c - 0.6) ^ 2) by apply pow2_ge_0.
    nra.
  - assert (Hn3 : 0 <= - (c ^ 3)) by (replace (- (c ^ 3)) with ((- c) * c ^ 2) by ring;
                                       apply Rmult_le_pos; lra).
    assert (0 <= - (c ^ 3) * (c + 1)) by (apply Rmult_le_pos; lra).
    assert (- (c ^ 3) * (c + 1) <= 1).
    { replace 1 with (1 * 1) by ring. apply Rmult_le_compat; lra. }
    nra.
Qed.

Lemma scaled_bound (v scale : R) :
  0 <= scale -> -17 <= v <= 17 -> - (scale / 2) <= v / 17 * scale * 0.5 <= scale / 2.
Proof. intros Hs Hv. split; nra. Qed.

Lemma heart_in_box (cx cy scale : R) :
  0 <= scale -> Forall (within_box cx cy (scale / 2)) (_heart cx cy scale).
Proof.
  intro Hs. unfold _heart. cbv zeta. apply closed_Forall; [simpl; discriminate|].
  rewrite Forall_map, Forall_forall. intros i _.
  set (t := 2 * PI * INR i / INR (64 - 1)).
  pose proof (SIN_bound t).
  assert (Hx : -17 <= 16 * sin t ^ 3 <= 17) by (split; nra).
  pose proof (scaled_bound _ _ Hs Hx). pose proof (scaled_bound _ _ Hs (heart_y_bound t)).
  unfold within_box. simpl. lra.
Qed.

Lemma star_in_box (cx cy scale : R) :
  0 <= scale -> Forall (within_box cx cy (scale / 2)) (_star cx cy scale).
Proof.
  intro Hs. unfold _star. cbv zeta.
  set (vertices := map _ (seq 0 10)).
  assert (Hv : forall v, In v vertices -> within_box cx cy (scale / 2) (mkCoord (fst v) (snd v))).
  { intros v Hv. unfold vertices in Hv. apply in_map_iff in Hv. destruct Hv as [i [<- _]].
    cbn [fst snd]. apply box_polar. destruct (i mod 2 =? 0)%nat; lra. }
  assert (Hlen : length vertices = 10%nat) by reflexivity.
  apply closed_Forall; [simpl; discriminate|].
  rewrite Forall_flat_map, Forall_forall. intros i Hi. apply in_seq in Hi.
  assert (Hi1 : (i < length vertices)%nat) by lia.
  assert (Hi2 : ((i + 1) mod length vertices < length vertices)%nat)
    by (rewrite Hlen; apply Nat.mod_upper_bound; lia).
  assert (Ha := Hv _ (nth_In vertices (0, 0) Hi1)).
  assert (Hb := Hv _ (nth_In vertices (0, 0) Hi2)).
  destruct (nth i vertices (0, 0)) as [ax ay].
  destruct (nth ((i + 1) mod length vertices) vertices (0, 0)) as [bx by0].
  simpl in Ha, Hb. constructor; [exact Ha|]. constructor; [|constructor].
  apply box_mid; assumption.
Qed.

Lemma circle_in_box (cx cy scale : R) :
  0 <= scale -> Forall (within_box cx cy (scale / 2)) (_circle cx cy scale).
Proof.
  intro Hs. unfold _circle. cbv zeta. apply closed_Forall; [simpl; discriminate|].
  rewrite Forall_map, Forall_forall. intros i _. apply box_polar. lra.
Qed.

Lemma triangle_in_box (cx cy scale : R) :
  0 <= scale -> Forall (within_box cx cy (scale / 2)) (_triangle cx cy scale).
Proof.
  intro Hs. unfold _triangle. cbv zeta.
  set (corners := map _ (seq 0 3)).
  assert (Hv : forall v, In v corners -> within_box cx cy (scale / 2) (mkCoord (fst v) (snd v))).
  { intros v Hv. unfold corners in Hv. apply in_map_iff in Hv. destruct Hv as [i [<- _]].
    simpl. apply box_polar. lra. }
  assert (Hlen : length corners = 3%nat) by reflexivity.
  apply closed_Forall; [simpl; discriminate|].
  rewrite Forall_flat_map, Forall_forall. intros i Hi. apply in_seq in Hi.
  assert (Hi1 : (i < length corners)%nat) by (rewrite Hlen; lia).
  assert (Hi2 : ((i + 1) mod 3 < length corners)%nat)
    by (rewrite Hlen; apply Nat.mod_upper_bound; lia).
  assert (Ha := Hv _ (nth_In corners (0, 0) Hi1)).
  assert (Hb := Hv _ (nth_In corners (0, 0) Hi2)).
  destruct (nth i corners (0, 0)) as [ax ay].
  destruct (nth ((i + 1) mod 3) corners (0, 0)) as [bx by0].
  simpl in Ha, Hb. rewrite Forall_map, Forall_forall. intros j Hj. apply in_seq in Hj.
  apply box_interp; [exact Ha|exact Hb|]. apply frac_unit. lia.
Qed.

Lemma arrow_in_box (cx cy scale : R) :
  0 <= scale -> Forall (within_box cx cy (scale / 2)) (_arrow cx cy scale).
Proof.
  intro Hs. unfold _arrow. cbv zeta.
  set (s := scale * 0.45).
  set (vertices := [(cx - s, cy); (cx + s * 0.3, cy); (cx + s * 0.3, cy + s * 0.4); (cx + s, cy);
     (cx + s * 0.3, cy - s * 0.4); (cx + s * 0.3, cy); (cx - s, cy)]).
  assert (Hv : forall v, In v vertices -> within_box cx cy (scale / 2) (mkCoord (fst v) (snd v))).
  { intros v Hv. unfold vertices in Hv.
    repeat (destruct Hv as [<-|Hv]; [unfold within_box, s; simpl; split; split; lra|]).
    destruct Hv. }
  apply Forall_app. split.
  - rewrite Forall_flat_map, Forall_forall. intros i Hi. apply in_seq in Hi.
    assert (Hi1 : (i < length vertices)%nat) by (simpl in Hi |- *; lia).
    assert (Hi2 : (i + 1 < length vertices)%nat) by (simpl in Hi |- *; lia).
    assert (Ha := Hv _ (nth_In vertices (0, 0) Hi1)).
    assert (Hb := Hv _ (nth_In vertices (0, 0) Hi2)).
    destruct (nth i vertices (0, 0)) as [ax ay].
    destruct (nth (i + 1) vertices (0, 0)) as [bx by0].
    simpl in Ha, Hb. constructor; [exact Ha|]. constructor; [|constructor].
    apply box_mid; assumption.
  - constructor; [|constructor]. apply Hv. apply last_In. discriminate.
Qed.

Lemma square_in_box (cx cy scale : R) :
  0 <= scale -> Forall (within_box cx cy (scale / 2)) (_square cx cy scale).
Proof.
  intro Hs. unfold _square. cbv zeta.
  set (s := scale * 0.4).
  set (corners := [(cx - s, cy + s); (cx + s, cy + s); (cx + s, cy - s); (cx - s, cy - s)]).
  assert (Hv : forall v, In v corners -> within_box cx cy (scale / 2) (mkCoord (fst v) (snd v))).
  { intros v Hv. unfold corners in Hv.
    repeat (destruct Hv as [<-|Hv]; [unfold within_box, s; simpl; split; split; lra|]).
    destruct Hv. }
  apply closed_Forall; [simpl; discriminate|].
  rewrite Forall_flat_map, Forall_forall. intros i Hi. apply in_seq in Hi.
  assert (Hi1 : (i < length corners)%nat) by (simpl; lia).
  assert (Hi2 : ((i + 1) mod 4 < length corners)%nat)
    by (change (length corners) with 4%nat; apply Nat.mod_upper_bound; lia).
  assert (Ha := Hv _ (nth_In corners (0, 0) Hi1)).
  assert (Hb := Hv _ (nth_In corners (0, 0) Hi2)).
  destruct (nth i corners (0, 0)) as [ax ay].
  destruct (nth ((i + 1) mod 4) corners (0, 0)) as [bx by0].
  simpl in Ha, Hb. rewrite Forall_map, Forall_forall. intros j Hj. apply in_seq in Hj.
  apply box_interp; [exact Ha|exact Hb|]. apply frac_unit. lia.
Qed.

Section Names.

Variable Char : Type.
Variable char_eqb : Char -> Char -> bool.
Variable chr : Ascii.ascii -> Char.
Variable str_lower str_upper str_strip : list Char -> list Char.
Variable str_split : list Char -> list (list Char).
Variable char_isalpha : Char -> bool.

Lemma dict_get_P {V : Type} (P : V -> Prop) (k : list Char) (d : list (list Char * V))
    (default : V) :
  Forall (fun kv => P (snd kv)) d -> P default -> P (dict_get Char char_eqb k d default).
Proof.
  intros Hd H0. induction d as [|[k' v] d IH]; simpl; [exact H0|].
  inversion Hd as [|? ? Hv Hrest]; subst.
  destruct (str_eqb Char char_eqb k' k); [exact Hv|exact (IH Hrest)].
Qed.

Lemma dict_get_hit {V : Type} (P : V -> Prop) (k k0 : list Char) (v : V)
    (d : list (list Char * V)) (default : V) :
  Forall (fun kv => P (snd kv)) d -> In (k0, v) d -> str_eqb Char char_eqb k0 k = true ->
  P (dict_get Char char_eqb k d default).
Proof.
  intros Hd Hin Hk. induction d as [|[k' v'] d IH]; [destruct Hin|].
  simpl. inversion Hd as [|? ? Hv Hrest]; subst.
  destruct Hin as [E|Hin].
  - injection E as -> ->. rewrite Hk. exact Hv.
  - destruct (str_eqb Char char_eqb k' k); [exact Hv|exact (IH Hrest Hin)].
Qed.

Lemma str_eqb_refl (a : list Char) :
  (forall c, char_eqb c c = true) -> str_eqb Char char_eqb a a = true.
Proof.
  intro Hc. induction a as [|x a IH]; [reflexivity|]. simpl. rewrite Hc, IH. reflexivity.
Qed.

Lemma letter_templates_bounded (scale : R) :
  0 <= scale ->
  Forall (fun kv => Forall (fun d => - (scale / 2) <= fst d <= scale / 2 /\
                                     - (scale / 2) <= snd d <= scale / 2) (snd kv))
    (letter_templates Char chr (scale * 0.4) (scale * 0.5)).
Proof.
  intro Hs. unfold letter_templates.
  repeat (apply Forall_cons;
    [cbn [snd]; repeat (apply Forall_cons; [cbn [fst snd]; split; split; lra|]); apply Forall_nil|]).
  apply Forall_nil.
Qed.

Lemma letter_templates_long (scale : R) :
  Forall (fun kv => (3 <= length (snd kv))%nat)
    (letter_templates Char chr (scale * 0.4) (scale * 0.5)).
Proof.
  unfold letter_templates.
  repeat (apply Forall_cons; [cbn [snd length]; lia|]). apply Forall_nil.
Qed.

Lemma letter_in_box (char : list Char) (cx cy scale : R) :
  0 <= scale ->
  Forall (within_box cx cy (scale / 2)) (_letter Char char_eqb chr str_upper char cx cy scale).
Proof.
  intro Hs. unfold _letter. cbv zeta. rewrite Forall_map.
  pose proof (letter_templates_bounded scale Hs) as Hb.
  assert (H : Forall (fun d => - (scale / 2) <= fst d <= scale / 2 /\
                               - (scale / 2) <= snd d <= scale / 2)
     (dict_get Char char_eqb (str_upper char) (letter_templates Char chr (scale * 0.4) (scale * 0.5))
        (dict_get Char char_eqb (lit Char chr "O"%string)
           (letter_templates Char chr (scale * 0.4) (scale * 0.5)) []))).
  { apply (dict_get_P (Forall _)); [exact Hb|].
    apply (dict_get_P (Forall _)); [exact Hb|constructor]. }
  eapply Forall_impl; [|exact H]. intros d Hd. unfold within_box. simpl. lra.
Qed.

Lemma letter_long (char : list Char) (cx cy scale : R) :
  (forall c, char_eqb c c = true) ->
  (3 <= length (_letter Char char_eqb chr str_upper char cx cy scale))%nat.
Proof.
  intro Hc. unfold _letter. cbv zeta. rewrite length_map.
  pose proof (letter_templates_long scale) as Hl.
  apply (dict_get_P (fun l => (3 <= length l)%nat)); [exact Hl|].
  apply (dict_get_hit (fun l => (3 <= length l)%nat) _ (lit Char chr "O"%string)
           [(0, scale * 0.5); (- (scale * 0.4), scale * 0.5 * 0.5);
            (- (scale * 0.4), - (scale * 0.5) * 0.5); (0, - (scale * 0.5));
            (scale * 0.4, - (scale * 0.5) * 0.5); (scale * 0.4, scale * 0.5 * 0.5);
            (0, scale * 0.5)]); [exact Hl| |apply str_eqb_refl; exact Hc].
  unfold letter_templates. simpl In. tauto.
Qed.

Lemma templates_long (key : list Char) (func : R -> R -> R -> list Coordinate) (cx cy scale : R) :
  In (key, func) (TEMPLATES Char chr) -> (13 <= length (func cx cy scale))%nat.
Proof.
  unfold TEMPLATES. intro H.
  repeat (destruct H as [H|H]; [injection H as <- <-|]); [| | | | | |destruct H].
  - unfold _heart. cbv zeta. rewrite length_app, length_map, length_seq. simpl. lia.
  - unfold _star. simpl. lia.
  - unfold _circle. cbv zeta. rewrite length_app, length_map, length_seq. simpl. lia.
  - unfold _triangle. simpl. lia.
  - unfold _arrow. simpl. lia.
  - unfold _square. simpl. lia.
Qed.

Lemma templates_in_box (key : list Char) (func : R -> R -> R -> list Coordinate) (cx cy scale : R) :
  0 <= scale -> In (key, func) (TEMPLATES Char chr) ->
  Forall (within_box cx cy (scale / 2)) (func cx cy scale).
Proof.
  unfold TEMPLATES. intros Hs H.
  repeat (destruct H as [H|H]; [injection H as <- <-|]); [| | | | | |destruct H].
  - apply heart_in_box; exact Hs.
  - apply star_in_box; exact Hs.
  - apply circle_in_box; exact Hs.
  - apply triangle_in_box; exact Hs.
  - apply arrow_in_box; exact Hs.
  - apply square_in_box; exact Hs.
Qed.

Lemma get_parametric_shape_cases (P : list Coordinate -> Prop) (shape_name : list Char)
    (center : Coordinate) (scale : R) :
  (forall char, P (_letter Char char_eqb chr str_upper char (lng center) (lat center) scale)) ->
  (forall key func, In (key, func) (TEMPLATES Char chr) -> P (func (lng center) (lat center) scale)) ->
  P (_circle (lng center) (lat center) scale) ->
  P (get_parametric_shape Char char_eqb chr str_lower str_upper str_strip str_split char_isalpha
       shape_name center scale).
Proof.
  intros HL HT HC. unfold get_parametric_shape. cbv zeta.
  set (name_lower := str_strip (str_lower shape_name)).
  assert (Hrest : P match find (fun kf => contains Char char_eqb (fst kf) name_lower)
                            (TEMPLATES Char chr) with
                    | Some (_, func) => func (lng center) (lat center) scale
                    | None =>
                        if (length name_lower =? 1)%nat && str_isalpha Char char_isalpha name_lower
                        then _letter Char char_eqb chr str_upper name_lower (lng center) (lat center) scale
                        else _circle (lng center) (lat center) scale
                    end).
  { destruct (find _ (TEMPLATES Char chr)) as [[key func]|] eqn:Ef.
    - apply find_some in Ef. exact (HT key func (proj1 Ef)).
    - destruct (_ && _); [apply HL|exact HC]. }
  destruct (contains Char char_eqb _ name_lower); [|exact Hrest].
  destruct (find (letter_char Char char_eqb chr char_isalpha) name_lower); [apply HL|].
  destruct (find _ (str_split name_lower)); [apply HL|exact Hrest].
Qed.

(** For a non-negative scale, every shape [get_parametric_shape] returns,
    whatever the name, lies in the square of side [scale] centred on
    [center]: each point is at most [scale / 2] away from it in longitude
    and in latitude. *)
Theorem get_parametric_shape_in_box (shape_name : list Char) (center : Coordinate) (scale : R) :
  0 <= scale ->
  Forall (within_box (lng center) (lat center) (scale / 2))
    (get_parametric_shape Char char_eqb chr str_lower str_upper str_strip str_split char_isalpha
       shape_name center scale).
Proof.
  intro Hs. apply get_parametric_shape_cases.
  - intro char. apply letter_in_box. exact Hs.
  - intros key func Hin. apply (templates_in_box key); assumption.
  - apply circle_in_box. exact Hs.
Qed.

(** With a reflexive character equality, [get_parametric_shape] returns at
    least three points for every name: an unknown letter falls back to the
    ["O"] template rather than to an empty outline. *)
Theorem get_parametric_shape_length (shape_name : list Char) (center : Coordinate) (scale : R) :
  (forall c, char_eqb c c = true) ->
  (3 <= length (get_parametric_shape Char char_eqb chr str_lower str_upper str_strip str_split
                  char_isalpha shape_name center scale))%nat.
Proof.
  intro Hc. apply (get_parametric_shape_cases (fun l => (3 <= length l)%nat)).
  - intro char. apply letter_long. exact Hc.
  - intros key func Hin. pose proof (templates_long key func (lng center) (lat center) scale Hin). lia.
  - pose proof (templates_long (lit Char chr "circle"%string) _circle (lng center) (lat center) scale
                  ltac:(unfold TEMPLATES; simpl; tauto)). lia.
Qed.

End Names.

Lemma get_parametric_shape_in_box_witness :
  0 <= 1 /\
  Forall (within_box (lng (mkCoord 2 3)) (lat (mkCoord 2 3)) (1 / 2))
    (get_parametric_shape Ascii.ascii Ascii.eqb (fun a => a) (fun s => s) (fun s => s)
       (fun s => s) (fun s => [s]) (fun _ => true)
       (String.list_ascii_of_string "heart"%string) (mkCoord 2 3) 1).
Proof.
  split; [lra|].
  apply (get_parametric_shape_in_box Ascii.ascii Ascii.eqb (fun a => a) (fun s => s)
           (fun s => s) (fun s => s) (fun s => [s]) (fun _ => true)). lra.
Defined.

Lemma get_parametric_shape_length_witness :
  (forall c, Ascii.eqb c c = true) /\
  (3 <= length (get_parametric_shape Ascii.ascii Ascii.eqb (fun a => a) (fun s => s)
                  (fun s => s) (fun s => s) (fun s => [s]) (fun _ => true)
                  (String.list_ascii_of_string "letter q"%string) (mkCoord 2 3) 1))%nat.
Proof.
  split; [exact Ascii.eqb_refl|].
  apply (get_parametric_shape_length Ascii.ascii Ascii.eqb (fun a => a) (fun s => s)
           (fun s => s) (fun s => s) (fun s => [s]) (fun _ => true)).
  exact Ascii.eqb_refl.
Defined.

End TemplateFacts.

(** ** The float reading of [_resample_curve] *)

Module FloatFacts.
Import Binary64 FloatResample.

(** The rounding agrees with Python: [0.1 + 0.2 == 0.30000000000000004]
    ([1351079888211149 * 2^-52]), and [11119.492664455875 * 49] and its
    quotient by [49] are [4680270019511089 * 2^-33] and
    [3056502869884793 * 2^-38], one unit in the last place above [d_0_1]. *)
Lemma binary64_python_values :
  eqb (add (mkDouble 3602879701896397 (-55)) (mkDouble 3602879701896397 (-54)))
      (mkDouble 1351079888211149 (-52)) = true /\
  eqb (mul d_0_1 (of_nat 49)) (mkDouble 4680270019511089 (-33)) = true /\
  eqb (div (mul d_0_1 (of_nat 49)) (of_nat 49)) (mkDouble 3056502869884793 (-38)) = true /\
  leb (div (mul d_0_1 (of_nat 49)) (of_nat 49)) d_0_1 = false.
Proof. vm_compute. repeat split. Qed.

(** C4 (float reading): the general form of the counterexample below.
    Whatever the float [haversine_distance_m] is elsewhere, if it returns
    CPython's value on the segment [(0, 0) -> (0, 0.1)], resampling that
    segment to 50 points gives 49 points. *)
Lemma resample_curve_fl_overshoot (hav : Coordinate -> Coordinate -> double) :
  hav p00 p01 = d_0_1 ->
  length (_resample_curve hav [p00; p01] 50) = 49%nat.
Proof.
  intro H. unfold _resample_curve, cumlen. cbn [cumlen_from].
  rewrite H. vm_compute. reflexivity.
Qed.

Lemma resample_curve_fl_overshoot_witness :
  (fun _ _ => d_0_1) p00 p01 = d_0_1 /\
  length (_resample_curve (fun _ _ => d_0_1) [p00; p01] 50) = 49%nat.
Proof.
  split; [reflexivity|]. apply (resample_curve_fl_overshoot (fun _ _ => d_0_1)). reflexivity.
Defined.

(** C4 (counterexample, float reading): [_resample_curve([Coordinate(lng=0,
    lat=0), Coordinate(lng=0, lat=0.1)], 50)] returns 49 points, not 50. The
    segment's float length is [d = 11119.492664455875], the target of
    [k = 49] is [d * 49 / 49 = 11119.492664455876 > d], no [cumlen[i]]
    reaches it, and the end point [(0, 0.1)] is never appended: the result
    starts at [(0, 0)] and its last point has a latitude other than [0.1]. *)
Lemma resample_curve_fl_drops_last :
  length (_resample_curve (fun _ _ => d_0_1) [p00; p01] 50) = 49%nat /\
  leb (div (mul d_0_1 (of_nat 49)) (of_nat 49)) d_0_1 = false /\
  hd origin (_resample_curve (fun _ _ => d_0_1) [p00; p01] 50) = p00 /\
  eqb (lat (last (_resample_curve (fun _ _ => d_0_1) [p00; p01] 50) origin)) lat_0_1 = false.
Proof. vm_compute. repeat split. Qed.

End FloatFacts.
